(** * gtn: the graph combinators of [gtn/functions.cpp]

    A shallow embedding of the combinators (negate, add, subtract, clone,
    concat, closure, union, compose, intersect, remove, minimizeAcyclicFST)
    together with the backward rule each of them records, and the properties
    of their forward constructions and of their gradient functions. *)

From Stdlib Require Import ZArith.
From Stdlib Require Import Floats.SpecFloat.
From stdpp Require Import base list gmap strings sorting.

#[local] Set Warnings "-register-all,-clear-no-such-hyp".
#[local] Open Scope nat_scope.

(** ** Weights

    A weight is a C++ [float]: IEEE-754 binary32, that is precision 24 and
    maximal exponent 128, with the default rounding to nearest even. *)

Definition float32 : Type := spec_float.
Definition prec32 : Z := 24%Z.
Definition emax32 : Z := 128%Z.

Definition fneg (x : float32) : float32 := SFopp x.
Definition fadd (x y : float32) : float32 := SFadd prec32 emax32 x y.
Definition fsub (x y : float32) : float32 := SFsub prec32 emax32 x y.
Definition fzero : float32 := S754_zero false.
Definition float_of_Z (z : Z) : float32 := binary_normalize prec32 emax32 z 0 false.

(** ** Exceptions

    [throw std::logic_error(msg)] ends the call; nothing is returned. *)

Inductive result (A : Type) : Type :=
  | Ok (a : A)
  | LogicError (msg : string).
Arguments Ok {A} a.
Arguments LogicError {A} msg.

(** ** Loops

    [for (n = 0; n < count; ++n) body(n)] over a state [S]. *)

Definition forRange {S : Type} (count : nat) (body : nat → S → S) (s : S) : S :=
  fold_left (λ s n, body n s) (seq 0 count) s.

(** [for (auto x : xs) body(x)]. *)
Definition forEach {A S : Type} (xs : list A) (body : A → S → S) (s : S) : S :=
  fold_left (λ s x, body x s) xs s.

Module gtn.

(** ** The graph ([gtn/graph.h]) *)

Definition label : Type := Z.

Record Node : Type := mkNode {
  node_start : bool;
  node_accept : bool }.

Record Arc : Type := mkArc {
  arc_upNode : nat;
  arc_downNode : nat;
  arc_ilabel : label;
  arc_olabel : label;
  arc_weight : float32 }.

(** The gradient functions are lambdas that capture nothing, so a recorded
    closure is known by the combinator that made it. *)
Inductive GradFunc : Type :=
  | negate_gradFunc
  | add_gradFunc
  | subtract_gradFunc
  | clone_gradFunc
  | concat_gradFunc
  | closure_gradFunc
  | union_gradFunc
  | remove_gradFunc.

(** Modelled from the spec: the class [Graph] of graph.h, which is not among
    the sources. A graph is "an ordered sequence of nodes and an ordered
    sequence of arcs ... plus optional gradient-tracking state: a flag
    indicating whether gradients are requested, a per-arc gradient
    accumulator ..., and a recorded backward closure together with the list
    of input graphs that produced it". *)
Inductive Graph : Type := mkGraph {
  g_nodes : list Node;
  g_arcs : list Arc;
  g_calcGrad : bool;
  g_grad : option (list float32);
  g_gradFunc : option GradFunc;
  g_inputs : list Graph }.

(** Modelled from the spec: [Graph(bool calcGrad)], a leaf graph without
    nodes or arcs. *)
Definition Graph_leaf (calcGrad : bool) : Graph :=
  mkGraph [] [] calcGrad None None [].

#[export] Instance Graph_inhabited : Inhabited Graph := populate (Graph_leaf false).
#[export] Instance Node_inhabited : Inhabited Node := populate (mkNode false false).
#[export] Instance Arc_inhabited : Inhabited Arc := populate (mkArc 0 0 0%Z 0%Z fzero).

(** Modelled from the spec: [Graph(gradFunc, inputs)], the empty derived
    graph, which "records a backward closure and retains references to those
    inputs". It asks for a gradient when one of its inputs does. *)
Definition Graph_derived (gradFunc : GradFunc) (inputs : list Graph) : Graph :=
  mkGraph [] [] (existsb g_calcGrad inputs) None (Some gradFunc) inputs.

(** Modelled from the spec: the read accessors of [Graph] "for
    endpoints/labels/weight/counts/start-set/accept-set/incoming-and-outgoing-
    arc-lists per node". Lists of indices are in increasing order. *)
Definition numNodes (g : Graph) : nat := length (g_nodes g).
Definition numArcs (g : Graph) : nat := length (g_arcs g).
Definition isStart (g : Graph) (n : nat) : bool := node_start (g_nodes g !!! n).
Definition isAccept (g : Graph) (n : nat) : bool := node_accept (g_nodes g !!! n).
Definition srcNode (g : Graph) (a : nat) : nat := arc_upNode (g_arcs g !!! a).
Definition dstNode (g : Graph) (a : nat) : nat := arc_downNode (g_arcs g !!! a).
Definition ilabel (g : Graph) (a : nat) : label := arc_ilabel (g_arcs g !!! a).
Definition olabel (g : Graph) (a : nat) : label := arc_olabel (g_arcs g !!! a).
Definition weight (g : Graph) (a : nat) : float32 := arc_weight (g_arcs g !!! a).
Definition weights (g : Graph) : list float32 := arc_weight <$> g_arcs g.
Definition calcGrad (g : Graph) : bool := g_calcGrad g.

Definition start (g : Graph) : list nat :=
  filter (λ n, isStart g n = true) (seq 0 (numNodes g)).
Definition accept (g : Graph) : list nat :=
  filter (λ n, isAccept g n = true) (seq 0 (numNodes g)).
Definition numStart (g : Graph) : nat := length (start g).
Definition numAccept (g : Graph) : nat := length (accept g).
Definition in_ (g : Graph) (n : nat) : list nat :=
  filter (λ a, dstNode g a = n) (seq 0 (numArcs g)).
Definition out (g : Graph) (n : nat) : list nat :=
  filter (λ a, srcNode g a = n) (seq 0 (numArcs g)).

(** Modelled from the spec: [Graph::item], the weight of the only arc of a
    scalar graph. *)
Definition item (g : Graph) : float32 := weight g 0.

(** Modelled from the spec: [Graph::addNode], "add a node (optionally
    start/accept) returning its index". *)
Definition addNode (g : Graph) (start accept : bool) : nat * Graph :=
  (numNodes g,
   mkGraph (g_nodes g ++ [mkNode start accept]) (g_arcs g)
     (g_calcGrad g) (g_grad g) (g_gradFunc g) (g_inputs g)).

(** Modelled from the spec: [Graph::addArc], "add an arc (src, dst, ilabel,
    olabel defaulting to ilabel, weight defaulting to 0) returning its
    index". *)
Definition addArc (g : Graph) (upNode downNode : nat) (ilabel olabel : label)
    (weight : float32) : nat * Graph :=
  (numArcs g,
   mkGraph (g_nodes g) (g_arcs g ++ [mkArc upNode downNode ilabel olabel weight])
     (g_calcGrad g) (g_grad g) (g_gradFunc g) (g_inputs g)).

(** The overload [addArc(upNode, downNode, label)]. *)
Definition addArc3 (g : Graph) (upNode downNode : nat) (lbl : label) : nat * Graph :=
  addArc g upNode downNode lbl lbl fzero.

(** The call [addArc(upNode, downNode, ilabel, olabel)] with the default weight. *)
Definition addArc4 (g : Graph) (upNode downNode : nat) (ilabel olabel : label) : nat * Graph :=
  addArc g upNode downNode ilabel olabel fzero.

(** Modelled from the spec: [Graph::makeAccept], which marks node [i] as an
    accept node. *)
Definition makeAccept (g : Graph) (i : nat) : Graph :=
  mkGraph (alter (λ nd, mkNode (node_start nd) true) i (g_nodes g)) (g_arcs g)
    (g_calcGrad g) (g_grad g) (g_gradFunc g) (g_inputs g).

(** Modelled from the spec: [Graph::withoutWeights], which "returns a
    structural copy -- same nodes/arcs/topology, weights zeroed", kept
    "so a combinator can reuse an input's topology without double-retaining
    its original autograd chain": the copy has no recorded closure and no
    inputs. It is a handle on the gradient state of the original (the flag
    and the accumulator), which is where the gradient of the original is
    accumulated during backward. *)
Definition withoutWeights (g : Graph) : Graph :=
  mkGraph (g_nodes g)
    ((λ a, mkArc (arc_upNode a) (arc_downNode a) (arc_ilabel a) (arc_olabel a) fzero)
       <$> g_arcs g)
    (g_calcGrad g) (g_grad g) None [].

(** ** Backward: what a gradient function does

    A gradient function reads its inputs and the deltas graph, and its only
    effects are calls of [addGrad] on inputs and exceptions. It is modelled
    by the sequence of the [addGrad] calls it makes, in order, with the way
    it ends. *)

Inductive GradCall : Type :=
  | AddGrad (input : nat) (values : list float32).

Definition Backward (A : Type) : Type := list GradCall * result A.

Definition bw_ret {A} (a : A) : Backward A := ([], Ok a).

Definition bw_bind {A B} (m : Backward A) (f : A → Backward B) : Backward B :=
  match m with
  | (calls, Ok a) => let '(calls', r) := f a in (calls ++ calls', r)
  | (calls, LogicError msg) => (calls, LogicError msg)
  end.

Definition bw_throw {A} (msg : string) : Backward A := ([], LogicError msg).
Definition bw_lift {A} (r : result A) : Backward A := ([], r).

(** [inputs[i].addGrad(values)] *)
Definition bw_addGrad (i : nat) (values : list float32) : Backward unit :=
  ([AddGrad i values], Ok tt).

#[export] Instance Backward_ret : MRet Backward := @bw_ret.
#[export] Instance Backward_bind : MBind Backward := λ A B f m, bw_bind m f.

Definition bw_calls {A} (m : Backward A) : list GradCall := m.1.
Definition bw_result {A} (m : Backward A) : result A := m.2.

(** Modelled from the spec: [Graph::addGrad], which "accumulates (sums) a
    per-arc gradient contribution" into the accumulator; "gradient buffers
    are allocated lazily, only when gradient tracking is requested". *)
Definition addGrad (g : Graph) (values : list float32) : Graph :=
  if calcGrad g then
    mkGraph (g_nodes g) (g_arcs g) (g_calcGrad g)
      (Some (match g_grad g with
             | None => values
             | Some acc => zip_with fadd acc values
             end))
      (g_gradFunc g) (g_inputs g)
  else g.

(** The inputs after the calls of a gradient function. *)
Definition applyCall (inputs : list Graph) (c : GradCall) : list Graph :=
  match c with
  | AddGrad i values => alter (λ g, addGrad g values) i inputs
  end.

Definition applyCalls (calls : list GradCall) (inputs : list Graph) : list Graph :=
  fold_left applyCall calls inputs.

(** [std::vector<float>(grad, grad + count)], where [grad] points at
    position [pos] of [deltas.weights()]. Reading past the end of the
    weights is undefined in the source; the deltas graph of a backward pass
    has one value per arc of the result, and the statements below say so
    where they need it. *)
Definition vectorRange (ws : list float32) (pos count : nat) : list float32 :=
  take count (drop pos ws).

(** ** Scalar combinators *)

Definition negate (g : Graph) : result Graph :=
  if negb (numArcs g =? 1) then
    LogicError "[gtn::negate] input must have only one arc"
  else
    let result := Graph_derived negate_gradFunc [g] in
    let result := (addNode result true false).2 in
    let result := (addNode result false true).2 in
    let result := (addArc result 0 1 0%Z 0%Z (fneg (item g))).2 in
    Ok result.

Definition negate_grad (inputs : list Graph) (deltas : Graph) : Backward unit :=
  d ← bw_lift (negate deltas);
  bw_addGrad 0 (weights d).

Definition add (g1 g2 : Graph) : result Graph :=
  if negb (numArcs g1 =? 1) || negb (numArcs g2 =? 1) then
    LogicError "[gtn::add] inputs must have only one arc"
  else
    let weight := fadd (item g1) (item g2) in
    let result := Graph_derived add_gradFunc [g1; g2] in
    let result := (addNode result true false).2 in
    let result := (addNode result false true).2 in
    let result := (addArc result 0 1 0%Z 0%Z weight).2 in
    Ok result.

Definition add_grad (inputs : list Graph) (deltas : Graph) : Backward unit :=
  bw_addGrad 0 (weights deltas);;
  bw_addGrad 1 (weights deltas).

Definition subtract (g1 g2 : Graph) : result Graph :=
  if negb (numArcs g1 =? 1) || negb (numArcs g2 =? 1) then
    LogicError "[gtn::subtract] inputs must have only one arc"
  else
    let weight := fsub (item g1) (item g2) in
    let result := Graph_derived subtract_gradFunc [g1; g2] in
    let result := (addNode result true false).2 in
    let result := (addNode result false true).2 in
    let result := (addArc result 0 1 0%Z 0%Z weight).2 in
    Ok result.

Definition subtract_grad (inputs : list Graph) (deltas : Graph) : Backward unit :=
  bw_addGrad 0 (weights deltas);;
  if calcGrad (inputs !!! 1) then
    d ← bw_lift (negate deltas);
    bw_addGrad 1 (weights d)
  else mret tt.

(** ** Structural combinators *)

Inductive Projection : Type := NONE | INPUT | OUTPUT.

Definition clone (g : Graph) (projection : Projection) : Graph :=
  let out := Graph_derived clone_gradFunc [withoutWeights g] in
  let out := forRange (numNodes g) (λ n out,
    (addNode out (isStart g n) (isAccept g n)).2) out in
  let out := forRange (numArcs g) (λ a out,
    (addArc out
       (srcNode g a)
       (dstNode g a)
       (match projection with OUTPUT => olabel g a | _ => ilabel g a end)
       (match projection with INPUT => ilabel g a | _ => olabel g a end)
       (weight g a)).2) out in
  out.

Definition clone_grad (inputs : list Graph) (deltas : Graph) : Backward unit :=
  bw_addGrad 0 (weights deltas).

Definition projectInput (g : Graph) : Graph := clone g INPUT.
Definition projectOutput (g : Graph) : Graph := clone g OUTPUT.

(** The loop of concat's gradient function: the state is the position of
    the pointer [grad] in [deltas.weights()] and what was done so far. *)
Definition concat_grad (inputs : list Graph) (deltas : Graph) : Backward unit :=
  let grad := weights deltas in
  (forRange (length inputs) (λ i '(pos, done),
     let graph := inputs !!! i in
     let done :=
       done;;
       if calcGrad graph
       then bw_addGrad i (vectorRange grad pos (numArcs graph))
       else mret tt in
     let pos := pos + numArcs graph in
     let pos :=
       if 0 <? i then pos + numAccept (inputs !!! (i - 1)) * numStart graph
       else pos in
     (pos, done)) (0, mret tt)).2.

Definition closure_grad (inputs : list Graph) (deltas : Graph) : Backward unit :=
  let grad := weights deltas in
  bw_addGrad 0 (vectorRange grad 0 (numArcs (inputs !!! 0))).

Definition union_grad (inputs : list Graph) (deltas : Graph) : Backward unit :=
  let grad := weights deltas in
  (forRange (length inputs) (λ i '(pos, done),
     let graph := inputs !!! i in
     let done :=
       done;;
       if calcGrad graph
       then bw_addGrad i (vectorRange grad pos (numArcs graph))
       else mret tt in
     (pos + numArcs graph, done)) (0, mret tt)).2.

Definition union_ (graphs : list Graph) : Graph :=
  let inputs := forEach graphs (λ g inputs, inputs ++ [withoutWeights g]) [] in
  let out := Graph_derived union_gradFunc inputs in
  (forEach graphs (λ graph '(nodeOffset, out),
     let out := forRange (numNodes graph) (λ n out,
       (addNode out (isStart graph n) (isAccept graph n)).2) out in
     let out := forRange (numArcs graph) (λ a out,
       (addArc out
          (nodeOffset + srcNode graph a)
          (nodeOffset + dstNode graph a)
          (ilabel graph a)
          (olabel graph a)
          (weight graph a)).2) out in
     (nodeOffset + numNodes graph, out)) (0, out)).2.

Definition remove_grad (inputs : list Graph) (deltas : Graph) : Backward unit :=
  bw_throw "[gtn::remove] gradient compuation not implemented".

Section WithEpsilon.

(** The reserved label of graph.h, "a reserved sentinel label value" that
    "denotes epsilon"; its value is declared outside the sources. *)
Variable epsilon : label.

(** The body of the loop of concat over [i]: the state is [nodeOffset] and
    the graph under construction. *)
Definition concat_step (graphs : list Graph) (i : nat) (st : nat * Graph) : nat * Graph :=
  let '(nodeOffset, out) := st in
  let graph := graphs !!! i in
  let out := forRange (numNodes graph) (λ n out,
    (addNode out
       ((i =? 0) && isStart graph n)
       ((i =? length graphs - 1) && isAccept graph n)).2) out in
  let out := forRange (numArcs graph) (λ a out,
    (addArc out
       (nodeOffset + srcNode graph a)
       (nodeOffset + dstNode graph a)
       (ilabel graph a)
       (olabel graph a)
       (weight graph a)).2) out in
  let out :=
    if 0 <? i then
      let pGraph := graphs !!! (i - 1) in
      let pNodeOffset := nodeOffset - numNodes pGraph in
      forEach (accept pGraph) (λ a out,
        forEach (start graph) (λ s out,
          (addArc3 out (a + pNodeOffset) (s + nodeOffset) epsilon).2) out) out
    else out in
  (nodeOffset + numNodes graph, out).

Definition concat (graphs : list Graph) : Graph :=
  let inputs := forEach graphs (λ g inputs, inputs ++ [withoutWeights g]) [] in
  let out := Graph_derived concat_gradFunc inputs in
  if length graphs =? 0 then
    (addNode out true true).2
  else
    (forRange (length graphs) (concat_step graphs) (0, out)).2.

Definition concat2 (g1 g2 : Graph) : Graph := concat [g1; g2].

Definition closure (g : Graph) : Graph :=
  let closed := Graph_derived closure_gradFunc [withoutWeights g] in
  let closed := (addNode closed true true).2 in
  let closed := forRange (numNodes g) (λ n closed,
    (addNode closed false false).2) closed in
  let closed := forRange (numArcs g) (λ a closed,
    (addArc closed
       (srcNode g a + 1)
       (dstNode g a + 1)
       (ilabel g a)
       (olabel g a)
       (weight g a)).2) closed in
  let closed := forEach (start g) (λ s closed,
    (addArc3 closed 0 (s + 1) epsilon).2) closed in
  let closed := forEach (accept g) (λ a closed,
    (addArc3 closed (a + 1) 0 epsilon).2) closed in
  closed.

End WithEpsilon.

(** ** Composition: the choice of the arc matcher

    The matchers and [detail::compose] are in gtn/functions/compose.h and
    the sortedness flags in graph.h, outside the sources: they are
    parameters here. *)

Inductive ArcMatcher : Type :=
  | UnsortedMatcher (g1 g2 : Graph)
  | SinglySortedMatcher (g1 g2 : Graph) (searchG1 : bool)
  | DoublySortedMatcher (g1 g2 : Graph).

Section Compose.

Variable ilabelSorted olabelSorted : Graph → bool.
Variable detail_compose : Graph → Graph → ArcMatcher → Graph.

Definition compose_matcher (g1 g2 : Graph) : ArcMatcher :=
  let g1Sorted := olabelSorted g1 in
  let g2Sorted := ilabelSorted g2 in
  if g1Sorted && g2Sorted then DoublySortedMatcher g1 g2
  else if g1Sorted || g2Sorted then SinglySortedMatcher g1 g2 g1Sorted
  else UnsortedMatcher g1 g2.

Definition compose (g1 g2 : Graph) : Graph :=
  detail_compose g1 g2 (compose_matcher g1 g2).

Definition intersect_matcher (g1 g2 : Graph) : ArcMatcher :=
  let g1Sorted := ilabelSorted g1 || olabelSorted g1 in
  let g2Sorted := ilabelSorted g2 || olabelSorted g2 in
  if g1Sorted && g2Sorted then DoublySortedMatcher g1 g2
  else if g1Sorted || g2Sorted then SinglySortedMatcher g1 g2 g1Sorted
  else UnsortedMatcher g1 g2.

Definition intersect (g1 g2 : Graph) : Graph :=
  detail_compose g1 g2 (intersect_matcher g1 g2).

End Compose.

(** ** Label removal *)

Definition label_match (g : Graph) (il ol : label) (a : nat) : bool :=
  (ilabel g a =? il)%Z && (olabel g a =? ol)%Z.

(** The first loop of remove: a node of the result for every node of [g]
    that is kept, and its index in [nodes]. *)
Definition remove_nodes (g : Graph) (il ol : label) (graph : Graph) : list Z * Graph :=
  let nodes := replicate (numNodes g) (-1)%Z in
  forRange (numNodes g) (λ n '(nodes, graph),
    if isStart g n || negb (forallb (label_match g il ol) (in_ g n)) then
      let '(idx, graph) := addNode graph (isStart g n) false in
      (<[n := Z.of_nat idx]> nodes, graph)
    else (nodes, graph)) (nodes, graph).

(** The body of [for (auto a : g.out(next))]. The node indices of the result
    are ints: [curr] and [nodes[dn]] are not negative where an arc is added
    (see [remove_arc_endpoints]). *)
Definition explore_arc (g : Graph) (il ol : label) (nodes : list Z) (curr : Z)
    (a : nat) (st : list nat * gset nat * Graph) : list nat * gset nat * Graph :=
  let '(toExplore, reachable, graph) := st in
  let dn := dstNode g a in
  if label_match g il ol a then
    if negb (bool_decide (dn ∈ reachable)) then
      (toExplore ++ [dn], {[dn]} ∪ reachable, graph)
    else (toExplore, reachable, graph)
  else
    (toExplore, reachable,
     (addArc4 graph (Z.to_nat curr) (Z.to_nat (nodes !!! dn)) (ilabel g a) (olabel g a)).2).

(** [while (!toExplore.empty())]; [fuel] bounds the number of rounds, and
    [None] is a loop that was cut short. *)
Fixpoint explore (fuel : nat) (g : Graph) (il ol : label) (nodes : list Z) (curr : Z)
    (toExplore : list nat) (reachable : gset nat) (graph : Graph)
    : option (list nat * gset nat * Graph) :=
  match toExplore with
  | [] => Some ([], reachable, graph)
  | next :: toExplore =>
    match fuel with
    | 0 => None
    | S fuel =>
      let graph := if isAccept g next then makeAccept graph (Z.to_nat curr) else graph in
      let '(toExplore, reachable, graph) :=
        forEach (out g next) (explore_arc g il ol nodes curr) (toExplore, reachable, graph) in
      explore fuel g il ol nodes curr toExplore reachable graph
    end
  end.

(** The body of the second loop of remove over [n]. *)
Definition remove_step (fuel : nat) (g : Graph) (il ol : label) (nodes : list Z)
    (n : nat) (st : option (list nat * gset nat * Graph))
    : option (list nat * gset nat * Graph) :=
  '(toExplore, reachable, graph) ← st;
  let curr := nodes !!! n in
  let '(toExplore, reachable) :=
    if (0 <=? curr)%Z then (toExplore ++ [n], {[n]} ∪ reachable)
    else (toExplore, reachable) in
  '(toExplore, reachable, graph) ← explore fuel g il ol nodes curr toExplore reachable graph;
  Some (toExplore, (∅ : gset nat), graph).

Definition remove_fuel (fuel : nat) (g : Graph) (il ol : label) : option Graph :=
  let graph := Graph_derived remove_gradFunc [g] in
  let '(nodes, graph) := remove_nodes g il ol graph in
  '(_, _, graph) ← forRange (numNodes g) (remove_step fuel g il ol nodes)
                     (Some ([], (∅ : gset nat), graph));
  Some graph.

(** A round of the while loop takes a node out of the queue, and a node
    enters the queue once, when it enters [reachable]: it is the node the
    search starts from or the destination of an arc. So [numArcs g + 1]
    rounds are enough ([explore_total]). *)
Definition remove (g : Graph) (il ol : label) : option Graph :=
  remove_fuel (S (numArcs g)) g il ol.

(** [remove(g, label)] *)
Definition remove1 (g : Graph) (lbl : label) : option Graph := remove g lbl lbl.

(** ** Minimization of an acyclic graph *)

(** Modelled from the spec: [Graph::numOut], the number of arcs that leave
    a node. *)
Definition numOut (g : Graph) (n : nat) : nat := length (out g n).

(** Modelled from the spec: the graph that [Graph graph;] declares, without
    nodes, arcs or recorded gradient function. Its gradient flag is the
    default of the constructor, which graph.h declares. *)
Definition Graph_new : Graph := Graph_leaf true.

(** [std::set<int>]: the elements in increasing order, each once;
    [insert]. *)
Fixpoint set_insert (x : nat) (s : list nat) : list nat :=
  match s with
  | [] => [x]
  | y :: s' =>
    if x <? y then x :: s
    else if x =? y then s
    else y :: set_insert x s'
  end.

(** [std::count(first, last, value)] *)
Definition std_count (value : nat) (l : list nat) : nat :=
  length (filter (λ y, y = value) l).

(** [std::equal(first1, last1, first2, pred)]: the second range is read as
    far as the first goes. *)
Fixpoint std_equal {A} (pred : A → A → bool) (l1 l2 : list A) : bool :=
  match l1, l2 with
  | [], _ => true
  | x :: l1, y :: l2 => pred x y && std_equal pred l1 l2
  | _ :: _, [] => false
  end.

(** The lambda [addPredecessors]. *)
Definition addPredecessors (g : Graph) (node : nat) (predecessors : list nat)
    : list nat :=
  forEach (in_ g node) (λ in_arc predecessors,
    set_insert (srcNode g in_arc) predecessors) predecessors.

(** The lambda [isToMerge]. The ranges of [std::equal] have the same length,
    by the test on [numOut]. *)
Definition isToMerge (g : Graph) (oldToNew : list Z) (node1 node2 : nat) : bool :=
  if Bool.eqb (isStart g node1) (isStart g node2) &&
     Bool.eqb (isAccept g node1) (isAccept g node2) &&
     (numOut g node1 =? numOut g node2) then
    if std_equal (λ a1 a2,
         (ilabel g a1 =? ilabel g a2)%Z &&
         (olabel g a1 =? olabel g a2)%Z &&
         (oldToNew !!! dstNode g a1 =? oldToNew !!! dstNode g a2)%Z)
         (out g node1) (out g node2)
    then true
    else false
  else false.

(** The variables that the loops of minimizeAcyclicFST change. *)
Record MinState : Type := mkMinState {
  ms_graph : Graph;
  ms_oldToNew : list Z;
  ms_oldProcessed : list nat;
  ms_predecessors : list nat }.

(** [if (node < 0) { node = graph.addNode(start, accept); }], for one of the
    four variables [nodeStartAccept], ..., [nodeNoStartNoAccept]. *)
Definition leafNode (graph : Graph) (node : Z) (start accept : bool) : Graph * Z :=
  if (node <? 0)%Z then
    let '(i, graph) := addNode graph start accept in (graph, Z.of_nat i)
  else (graph, node).

(** The body of the first loop, over the nodes [n] of [g]; the four
    variables are in the order of their declaration. *)
Definition minimize_leaf (g : Graph) (n : nat) (st : MinState * (Z * Z * Z * Z))
    : MinState * (Z * Z * Z * Z) :=
  let '(s, (nodeStartAccept, nodeStartNoAccept, nodeNoStartAccept, nodeNoStartNoAccept)) := st in
  if numOut g n =? 0 then
    let '(graph, oldToNew, classes) :=
      if isStart g n && isAccept g n then
        let '(graph, nodeStartAccept) := leafNode (ms_graph s) nodeStartAccept true true in
        (graph, <[n := nodeStartAccept]> (ms_oldToNew s),
         (nodeStartAccept, nodeStartNoAccept, nodeNoStartAccept, nodeNoStartNoAccept))
      else if isStart g n && negb (isAccept g n) then
        let '(graph, nodeStartNoAccept) := leafNode (ms_graph s) nodeStartNoAccept true false in
        (graph, <[n := nodeStartNoAccept]> (ms_oldToNew s),
         (nodeStartAccept, nodeStartNoAccept, nodeNoStartAccept, nodeNoStartNoAccept))
      else if negb (isStart g n) && isAccept g n then
        let '(graph, nodeNoStartAccept) := leafNode (ms_graph s) nodeNoStartAccept false true in
        (graph, <[n := nodeNoStartAccept]> (ms_oldToNew s),
         (nodeStartAccept, nodeStartNoAccept, nodeNoStartAccept, nodeNoStartNoAccept))
      else if negb (isStart g n) && negb (isAccept g n) then
        let '(graph, nodeNoStartNoAccept) := leafNode (ms_graph s) nodeNoStartNoAccept false false in
        (graph, <[n := nodeNoStartNoAccept]> (ms_oldToNew s),
         (nodeStartAccept, nodeStartNoAccept, nodeNoStartAccept, nodeNoStartNoAccept))
      else
        (ms_graph s, ms_oldToNew s,
         (nodeStartAccept, nodeStartNoAccept, nodeNoStartAccept, nodeNoStartNoAccept)) in
    (mkMinState graph oldToNew (ms_oldProcessed s ++ [n])
       (addPredecessors g n (ms_predecessors s)),
     classes)
  else st.

(** The body of [for (auto predNode : predecessors)], which fills
    [candidateSets]. *)
Definition minimize_candidate (g : Graph) (oldToNew : list Z) (oldProcessed : list nat)
    (predNode : nat) (candidateSets : list (list nat)) : list (list nat) :=
  if forallb (λ a, 0 <? std_count (dstNode g a) oldProcessed) (out g predNode) then
    match list_find (λ subset, isToMerge g oldToNew (subset !!! 0) predNode = true)
            candidateSets with
    | None => candidateSets ++ [[predNode]]
    | Some (it, _) => alter (λ subset, subset ++ [predNode]) it candidateSets
    end
  else candidateSets.

(** A node index that [Graph::addArc] is given as an [int]. The spec
    describes the call for the index of a node; [None] stands for a negative
    [int]. *)
Definition nodeIndex (i : Z) : option nat :=
  if (i <? 0)%Z then None else Some (Z.to_nat i).

(** The body of [for (auto subset : candidateSets)]. [addArc] is given the
    [int] that [oldToNew] holds for the destination of the arc, and [None]
    is a call with a negative one, which is the [-1] of a node that was not
    processed. For a graph whose arcs have their ends among its nodes,
    [oldToNew] is read and written within its range; outside of it, which
    is undefined in the source, the model writes nothing and reads the
    default of the type. *)
Definition minimize_merge (g : Graph) (subset : list nat) (s : MinState)
    : option MinState :=
  let '(mergedNode, graph) :=
    addNode (ms_graph s) (isStart g (subset !!! 0)) (isAccept g (subset !!! 0)) in
  let s := forEach subset (λ n s,
    mkMinState (ms_graph s)
      (<[n := Z.of_nat mergedNode]> (ms_oldToNew s))
      (ms_oldProcessed s ++ [n])
      (addPredecessors g n (ms_predecessors s)))
    (mkMinState graph (ms_oldToNew s) (ms_oldProcessed s) (ms_predecessors s)) in
  graph ← forEach (out g (subset !!! 0)) (λ a graph,
    graph ← graph;
    downNode ← nodeIndex (ms_oldToNew s !!! dstNode g a);
    Some (addArc graph
       mergedNode
       downNode
       (ilabel g a)
       (olabel g a)
       (weight g a)).2) (Some (ms_graph s));
  Some (mkMinState graph (ms_oldToNew s) (ms_oldProcessed s) (ms_predecessors s)).

(** One round of [while (!predecessors.empty())]. *)
Definition minimize_round (g : Graph) (s : MinState) : option MinState :=
  let candidateSets :=
    forEach (ms_predecessors s)
      (minimize_candidate g (ms_oldToNew s) (ms_oldProcessed s)) [] in
  let s := mkMinState (ms_graph s) (ms_oldToNew s) (ms_oldProcessed s) [] in
  forEach candidateSets (λ subset s, s ← s; minimize_merge g subset s) (Some s).

(** The while loop; [fuel] bounds the number of rounds, and [None] is a loop
    that was cut short or a call of [addArc] with a negative index. *)
Fixpoint minimize_loop (fuel : nat) (g : Graph) (s : MinState) : option Graph :=
  match ms_predecessors s with
  | [] => Some (ms_graph s)
  | _ :: _ =>
    match fuel with
    | 0 => None
    | S fuel =>
      match minimize_round g s with
      | Some s => minimize_loop fuel g s
      | None => None
      end
    end
  end.

(** The state when the while loop starts. *)
Definition minimize_init (g : Graph) : MinState :=
  let graph := Graph_new in
  let oldToNew := replicate (numNodes g) (-1)%Z in
  (forRange (numNodes g) (minimize_leaf g)
     (mkMinState graph oldToNew [] [], ((-1)%Z, (-1)%Z, (-1)%Z, (-1)%Z))).1.

Definition minimizeAcyclicFST_fuel (fuel : nat) (g : Graph) : option Graph :=
  minimize_loop fuel g (minimize_init g).

(** A node is in [predecessors] when an arc leaves it, and a round that
    finds a candidate processes a node that was not: [numArcs g + 1] rounds
    are enough, and no call of [addArc] has a negative index
    ([minimize_total]). *)
Definition minimizeAcyclicFST (g : Graph) : option Graph :=
  minimizeAcyclicFST_fuel (S (numArcs g)) g.

(** ** The recorded closure *)

Definition gradFunc_call (f : GradFunc) (inputs : list Graph) (deltas : Graph)
    : Backward unit :=
  match f with
  | negate_gradFunc => negate_grad inputs deltas
  | add_gradFunc => add_grad inputs deltas
  | subtract_gradFunc => subtract_grad inputs deltas
  | clone_gradFunc => clone_grad inputs deltas
  | concat_gradFunc => concat_grad inputs deltas
  | closure_gradFunc => closure_grad inputs deltas
  | union_gradFunc => union_grad inputs deltas
  | remove_gradFunc => remove_grad inputs deltas
  end.

(** Modelled from the spec: [Graph::backward(deltas)] on one graph, which
    "invokes the recorded closure exactly once with the input list and a
    deltas graph". *)
Definition invokeGradFunc (g : Graph) (deltas : Graph) : Backward unit :=
  match g_gradFunc g with
  | Some f => gradFunc_call f (g_inputs g) deltas
  | None => mret tt
  end.

End gtn.

Import gtn.

(** ** Definitions used by the statements *)

(** Exceptions propagate through nested calls, as in [negate(negate(g))]. *)
#[export] Instance result_ret : MRet result := @Ok.
#[export] Instance result_bind : MBind result := λ A B f r,
  match r with
  | Ok a => f a
  | LogicError msg => LogicError msg
  end.

(** The result of the scalar combinators: a start node, an accept node and
    one arc between them, labelled 0, that carries the value. *)
Definition scalarGraph (gradFunc : GradFunc) (inputs : list Graph) (w : float32) : Graph :=
  mkGraph [mkNode true false; mkNode false true] [mkArc 0 1 0%Z 0%Z w]
    (existsb g_calcGrad inputs) None (Some gradFunc) inputs.

(** A graph with one arc of weight [w] from its start node to its accept
    node. *)
Definition scalar (w : Z) (calcGrad : bool) : Graph :=
  let g := Graph_leaf calcGrad in
  let g := (addNode g true false).2 in
  let g := (addNode g false true).2 in
  (addArc g 0 1 0%Z 0%Z (float_of_Z w)).2.

(** "Every combinator's recorded backward closure checks an input's
    calcGrad() before doing gradient-related work for that input": a
    gradient function calls [addGrad] only on inputs that ask for a
    gradient. *)
Definition gradFuncs_check_calcGrad : Prop :=
  ∀ (f : GradFunc) (inputs : list Graph) (deltas : Graph) (i : nat) (values : list float32),
    AddGrad i values ∈ bw_calls (gradFunc_call f inputs deltas) →
    calcGrad (inputs !!! i) = true.

(** A graph with more nodes, or with more arcs, at the end. *)
Definition withNodes (g : Graph) (nds : list Node) : Graph :=
  mkGraph (g_nodes g ++ nds) (g_arcs g)
    (g_calcGrad g) (g_grad g) (g_gradFunc g) (g_inputs g).

Definition withArcs (g : Graph) (arcs : list Arc) : Graph :=
  mkGraph (g_nodes g) (g_arcs g ++ arcs)
    (g_calcGrad g) (g_grad g) (g_gradFunc g) (g_inputs g).

(** *** The layout of concat

    [nodeOffset graphs i] is the value of the variable [nodeOffset] when the
    loop of concat reaches graph [i]: the number of nodes of the graphs
    before it. *)
Definition nodeOffset (graphs : list Graph) (i : nat) : nat :=
  sum_list_with numNodes (take i graphs).

(** An arc with both ends moved by [off]. *)
Definition shiftArc (off : nat) (a : Arc) : Arc :=
  mkArc (off + arc_upNode a) (off + arc_downNode a)
    (arc_ilabel a) (arc_olabel a) (arc_weight a).

(** The epsilon arcs from every accept node of [pGraph], whose nodes start
    at [pOff], to every start node of [graph], whose nodes start at [off]. *)
Definition connectors (epsilon : label) (pGraph graph : Graph) (pOff off : nat) : list Arc :=
  a ← accept pGraph;
  (λ s, mkArc (a + pOff) (s + off) epsilon epsilon fzero) <$> start graph.

(** The nodes that concat makes for graph [i]. *)
Definition concat_nodes (graphs : list Graph) (i : nat) : list Node :=
  (λ nd, mkNode ((i =? 0) && node_start nd)
                ((i =? length graphs - 1) && node_accept nd))
    <$> g_nodes (graphs !!! i).

(** The arcs that concat makes for graph [i]: its arcs, then the connectors
    from graph [i - 1]. *)
Definition concat_arcs (epsilon : label) (graphs : list Graph) (i : nat) : list Arc :=
  (shiftArc (nodeOffset graphs i) <$> g_arcs (graphs !!! i)) ++
  (if 0 <? i
   then connectors epsilon (graphs !!! (i - 1)) (graphs !!! i)
          (nodeOffset graphs (i - 1)) (nodeOffset graphs i)
   else []).

(** The position of the first arc that concat makes for graph [i]. *)
Definition arcOffset (graphs : list Graph) : nat → nat :=
  fix go (i : nat) : nat :=
    match i with
    | 0 => 0
    | S j =>
      go j + numArcs (graphs !!! j) +
      (if 0 <? j then numAccept (graphs !!! (j - 1)) * numStart (graphs !!! j) else 0)
    end.

(** What the gradient function of concat does for input [i]. *)
Definition concat_grad_calls (inputs : list Graph) (ws : list float32) (i : nat)
    : list GradCall :=
  if calcGrad (inputs !!! i)
  then [AddGrad i (vectorRange ws (arcOffset inputs i) (numArcs (inputs !!! i)))]
  else [].

(** The position of the first arc that union makes for graph [i], and what
    its gradient function does for input [i]. *)
Definition unionOffset (graphs : list Graph) (i : nat) : nat :=
  sum_list_with numArcs (take i graphs).

Definition union_grad_calls (inputs : list Graph) (ws : list float32) (i : nat)
    : list GradCall :=
  if calcGrad (inputs !!! i)
  then [AddGrad i (vectorRange ws (unionOffset inputs i) (numArcs (inputs !!! i)))]
  else [].

(** *** remove

    A node of [g] is kept when it is a start node or when one of its
    incoming arcs does not have both labels to remove. *)
Definition kept (g : Graph) (il ol : label) (n : nat) : bool :=
  isStart g n || negb (forallb (label_match g il ol) (in_ g n)).

(** The kept nodes, in increasing order, and the index in the result of the
    node made for a kept node [n]: the number of kept nodes before [n]. *)
Definition survivors (g : Graph) (il ol : label) : list nat :=
  filter (λ n, kept g il ol n = true) (seq 0 (numNodes g)).

Definition newIndex (g : Graph) (il ol : label) (n : nat) : nat :=
  length (filter (λ m, kept g il ol m = true) (seq 0 n)).

(** The vector [nodes] after the first loop of remove. *)
Definition nodesTable (g : Graph) (il ol : label) : list Z :=
  (λ n, if kept g il ol n then Z.of_nat (newIndex g il ol n) else (-1)%Z)
    <$> seq 0 (numNodes g).

(** [y] follows [x] by an arc of [g] with both labels to remove. *)
Definition matching (g : Graph) (il ol : label) (x y : nat) : Prop :=
  ∃ a, a < numArcs g ∧ srcNode g a = x ∧ dstNode g a = y ∧
       label_match g il ol a = true.

(** [y] is reached from [x] along arcs with both labels to remove; [x]
    itself is. *)
Definition reaches (g : Graph) (il ol : label) : nat → nat → Prop :=
  rtc (matching g il ol).

(** What holds of the arcs that remove makes. *)
Definition removeArc (il ol : label) (arc : Arc) : Prop :=
  ¬ (arc_ilabel arc = il ∧ arc_olabel arc = ol) ∧ arc_weight arc = fzero.

(** What a search from the node for [curr] may change in the graph under
    construction: it adds arcs, and it may mark node [curr] as accept. *)
Definition grows (il ol : label) (curr : nat) (G G' : Graph) : Prop :=
  length (g_nodes G') = length (g_nodes G) ∧
  (∀ k, node_start (g_nodes G' !!! k) = node_start (g_nodes G !!! k)) ∧
  (∀ k, k ≠ curr →
     node_accept (g_nodes G' !!! k) = node_accept (g_nodes G !!! k)) ∧
  (Forall (removeArc il ol) (g_arcs G) → Forall (removeArc il ol) (g_arcs G')) ∧
  g_gradFunc G' = g_gradFunc G ∧
  g_inputs G' = g_inputs G.

(** The destinations of the arcs of [g]: the nodes a search can put in its
    queue, with the node it starts from. *)
Definition destinations (g : Graph) : gset nat :=
  list_to_set (dstNode g <$> seq 0 (numArcs g)).

(** What holds of the graph under construction when the second loop of
    remove has handled the nodes before [k]. *)
Definition remove_inv (g : Graph) (il ol : label) (k : nat) (G : Graph) : Prop :=
  length (g_nodes G) = length (survivors g il ol) ∧
  (∀ j n, survivors g il ol !! j = Some n →
     node_start (g_nodes G !!! j) = isStart g n) ∧
  (∀ j n, survivors g il ol !! j = Some n → n < k →
     node_accept (g_nodes G !!! j) = true ↔
     ∃ x, reaches g il ol n x ∧ isAccept g x = true) ∧
  (∀ j n, survivors g il ol !! j = Some n → k ≤ n →
     node_accept (g_nodes G !!! j) = false) ∧
  Forall (removeArc il ol) (g_arcs G) ∧
  g_gradFunc G = Some remove_gradFunc ∧
  g_inputs G = [g].

(** *** Graphs for the examples *)

(** A graph whose arcs carry the given values: a deltas graph. *)
Definition deltasOf (values : list Z) : Graph :=
  forEach values (λ v g, (addArc g 0 0 0%Z 0%Z (float_of_Z v)).2) (Graph_leaf false).

(** A graph with four nodes, 0 (start) to 3 (accept), and with the arcs
    0 -e-> 1, 1 -e-> 1, 1 -7-> 2, 2 -e-> 3 and 0 -8-> 2, where e is the label
    -1; the arcs have weight 1, but for the last, of weight 5. *)
Definition chain : Graph :=
  let g := Graph_leaf true in
  let g := (addNode g true false).2 in
  let g := (addNode g false false).2 in
  let g := (addNode g false false).2 in
  let g := (addNode g false true).2 in
  let g := (addArc g 0 1 (-1)%Z (-1)%Z (float_of_Z 1)).2 in
  let g := (addArc g 1 1 (-1)%Z (-1)%Z (float_of_Z 1)).2 in
  let g := (addArc g 1 2 7%Z 7%Z (float_of_Z 1)).2 in
  let g := (addArc g 2 3 (-1)%Z (-1)%Z (float_of_Z 1)).2 in
  let g := (addArc g 0 2 8%Z 8%Z (float_of_Z 5)).2 in
  g.

(** *** The layout of union

    The arcs that union makes for the graphs, when the nodes of the first
    of them start at [off]. *)
Fixpoint union_arcs (off : nat) (graphs : list Graph) : list Arc :=
  match graphs with
  | [] => []
  | g :: graphs => (shiftArc off <$> g_arcs g) ++ union_arcs (off + numNodes g) graphs
  end.

(** *** Well-formed graphs

    "Every arc's endpoints are valid node indices." *)
Definition wellFormed (g : Graph) : Prop :=
  Forall (λ a, arc_upNode a < numNodes g ∧ arc_downNode a < numNodes g) (g_arcs g).

(** *** clone

    The arc that clone makes for an arc, under a projection. *)
Definition projectArc (projection : Projection) (a : Arc) : Arc :=
  mkArc (arc_upNode a) (arc_downNode a)
    (match projection with OUTPUT => arc_olabel a | _ => arc_ilabel a end)
    (match projection with INPUT => arc_ilabel a | _ => arc_olabel a end)
    (arc_weight a).

(** The arc that remove makes for the arc [a] of [g], while it searches from
    the node whose new index is [curr]. *)
Definition removedArc (g : Graph) (nodes : list Z) (curr : Z) (a : nat) : Arc :=
  mkArc (Z.to_nat curr) (Z.to_nat (nodes !!! dstNode g a))
    (ilabel g a) (olabel g a) fzero.

(** What holds of the arcs of the graph under construction when the second
    loop of remove has handled the nodes before [k]: they are the arcs made
    for the arcs of [g] that do not match and leave a node reached from a
    kept node before [k]. *)
Definition remove_arcs_inv (g : Graph) (il ol : label) (k : nat) (G : Graph) : Prop :=
  ∀ arc, arc ∈ g_arcs G ↔
    ∃ n a, n < k ∧ n ∈ survivors g il ol ∧ a < numArcs g ∧
           reaches g il ol n (srcNode g a) ∧
           label_match g il ol a = false ∧
           arc = removedArc g (nodesTable g il ol)
                   (Z.of_nat (newIndex g il ol n)) a.

(** *** minimizeAcyclicFST

    The nodes that an arc leaves. *)
Definition sources (g : Graph) : gset nat :=
  list_to_set (srcNode g <$> seq 0 (numArcs g)).

(** [p] has an arc to [n]. *)
Definition predecessorOf (g : Graph) (n p : nat) : Prop :=
  ∃ a, a < numArcs g ∧ dstNode g a = n ∧ srcNode g a = p.

(** All the arcs that leave [p] go to nodes of [processed]. *)
Definition candidate (g : Graph) (processed : list nat) (p : nat) : Prop :=
  ∀ a, a < numArcs g → srcNode g a = p → dstNode g a ∈ processed.

(** What the rounds of the while loop keep: no node of [predecessors] is
    processed, the arcs that leave a processed node go to processed nodes,
    and an arc leaves every node of [predecessors]. *)
Definition minimize_inv (g : Graph) (s : MinState) : Prop :=
  (∀ p, p ∈ ms_predecessors s → p ∉ ms_oldProcessed s) ∧
  (∀ x, x ∈ ms_oldProcessed s → candidate g (ms_oldProcessed s) x) ∧
  (∀ p, p ∈ ms_predecessors s → ∃ a, a < numArcs g ∧ srcNode g a = p).

(** What holds of the graph under construction: it records no gradient
    function, and each of its arcs has the labels and the weight of an arc
    of [g]. *)
Definition minimize_graph_inv (g : Graph) (G : Graph) : Prop :=
  g_gradFunc G = None ∧ g_inputs G = [] ∧
  Forall (λ arc, ∃ a, a < numArcs g ∧ arc_ilabel arc = ilabel g a ∧
                      arc_olabel arc = olabel g a ∧ arc_weight arc = weight g a)
    (g_arcs G).

(** A node with an arc to itself. *)
Definition selfLoop : Graph :=
  let g := Graph_leaf true in
  let g := (addNode g true true).2 in
  (addArc g 0 0 1%Z 1%Z (float_of_Z 1)).2.

(** A start node with two arcs of label 1, of weights 1 and 2, to two nodes
    that each have an arc of label 2, of weights 3 and 4, to an accept node
    of their own. *)
Definition diamond : Graph :=
  let g := Graph_leaf true in
  let g := (addNode g true false).2 in
  let g := (addNode g false false).2 in
  let g := (addNode g false false).2 in
  let g := (addNode g false true).2 in
  let g := (addNode g false true).2 in
  let g := (addArc g 0 1 1%Z 1%Z (float_of_Z 1)).2 in
  let g := (addArc g 0 2 1%Z 1%Z (float_of_Z 2)).2 in
  let g := (addArc g 1 3 2%Z 2%Z (float_of_Z 3)).2 in
  let g := (addArc g 2 4 2%Z 2%Z (float_of_Z 4)).2 in
  g.

(** What the loops of minimizeAcyclicFST keep of the sizes: a node of the
    result is made with a processed node of its own, the processed nodes are
    listed once, [predecessors] is in increasing order, an arc of the result
    is made for an arc that leaves a processed node, and a processed node is
    a node of [g] or a node that an arc leaves. *)
Definition minimize_size_inv (g : Graph) (s : MinState) : Prop :=
  numNodes (ms_graph s) ≤ length (ms_oldProcessed s) ∧
  NoDup (ms_oldProcessed s) ∧
  StronglySorted lt (ms_predecessors s) ∧
  numArcs (ms_graph s) ≤ sum_list_with (numOut g) (ms_oldProcessed s) ∧
  (∀ x, x ∈ ms_oldProcessed s →
        x < numNodes g ∨ ∃ a, a < numArcs g ∧ srcNode g a = x).

(** What the loops of minimizeAcyclicFST keep of the indices: [oldToNew] has
    an entry for each node of [g], the entry of a processed node is the index
    of a node of the graph under construction, and the arcs of that graph
    have their ends among its nodes. *)
Definition minimize_index_inv (g : Graph) (s : MinState) : Prop :=
  length (ms_oldToNew s) = numNodes g ∧
  (∀ x, x ∈ ms_oldProcessed s → x < numNodes g →
        (0 ≤ ms_oldToNew s !!! x < Z.of_nat (numNodes (ms_graph s)))%Z) ∧
  wellFormed (ms_graph s).

(** The arcs that remove makes while it searches from the kept node [n] and
    takes [x] out of the queue: one for each arc of [g] that leaves [x] and
    does not match, in the order of these arcs in [g]. *)
Definition removedArcs (g : Graph) (il ol : label) (n x : nat) : list Arc :=
  (λ a, mkArc (newIndex g il ol n) (newIndex g il ol (dstNode g a))
          (ilabel g a) (olabel g a) fzero)
    <$> filter (λ a, label_match g il ol a = false) (out g x).

(** What holds of the list of arcs of the graph under construction when the
    second loop of remove has handled the nodes before [k]: the kept nodes
    before [k] have each had their search, in increasing order; [order n]
    lists the nodes that the search from [n] took out of its queue, which
    are the nodes reached from [n], each once, [n] first. *)
Definition remove_arcs_exact (g : Graph) (il ol : label) (k : nat) (G : Graph) : Prop :=
  ∃ order : nat → list nat,
    (∀ n, n < k → kept g il ol n = true →
       head (order n) = Some n ∧ NoDup (order n) ∧
       ∀ x, x ∈ order n ↔ reaches g il ol n x) ∧
    g_arcs G =
      filter (λ n, kept g il ol n = true) (seq 0 k) ≫= (λ n,
        order n ≫= (λ x,
          removedArc g (nodesTable g il ol) (Z.of_nat (newIndex g il ol n))
            <$> filter (λ a, label_match g il ol a = false) (out g x))).

(** The state that [minimize_merge] returns when it returns one: the
    destinations of the arcs are the entries of [oldToNew] as indices. *)
Definition merged (g : Graph) (subset : list nat) (s : MinState) : MinState :=
  let '(mergedNode, graph) :=
    addNode (ms_graph s) (isStart g (subset !!! 0)) (isAccept g (subset !!! 0)) in
  let s := forEach subset (λ n s,
    mkMinState (ms_graph s)
      (<[n := Z.of_nat mergedNode]> (ms_oldToNew s))
      (ms_oldProcessed s ++ [n])
      (addPredecessors g n (ms_predecessors s)))
    (mkMinState graph (ms_oldToNew s) (ms_oldProcessed s) (ms_predecessors s)) in
  let graph := forEach (out g (subset !!! 0)) (λ a graph,
    (addArc graph
       mergedNode
       (Z.to_nat (ms_oldToNew s !!! dstNode g a))
       (ilabel g a)
       (olabel g a)
       (weight g a)).2) (ms_graph s) in
  mkMinState graph (ms_oldToNew s) (ms_oldProcessed s) (ms_predecessors s).

(** The state that [minimize_round] returns when it returns one. *)
Definition rounded (g : Graph) (s : MinState) : MinState :=
  let candidateSets :=
    forEach (ms_predecessors s)
      (minimize_candidate g (ms_oldToNew s) (ms_oldProcessed s)) [] in
  let s := mkMinState (ms_graph s) (ms_oldToNew s) (ms_oldProcessed s) [] in
  forEach candidateSets (merged g) s.

(** What the loops of minimizeAcyclicFST keep of [oldToNew]: the entry of a
    processed node is not the initial [-1]. *)
Definition minimize_nonneg_inv (s : MinState) : Prop :=
  ∀ x, x ∈ ms_oldProcessed s → (0 ≤ ms_oldToNew s !!! x)%Z.

(** ** Loops *)

Lemma forRange_S {S} (n : nat) (body : nat → S → S) (s : S) :
  forRange (Datatypes.S n) body s = body n (forRange n body s).
Proof. unfold forRange. by rewrite seq_S, fold_left_app. Qed.

Lemma forEach_cons {A S} (x : A) (xs : list A) (body : A → S → S) (s : S) :
  forEach (x :: xs) body s = forEach xs body (body x s).
Proof. reflexivity. Qed.

Lemma forEach_ext {A S} (xs : list A) (f g : A → S → S) (s : S) :
  (∀ x s, f x s = g x s) → forEach xs f s = forEach xs g s.
Proof.
  intros H. revert s. induction xs as [|x xs IH]; intros s; [done |].
  by rewrite !forEach_cons, H, IH.
Qed.

Lemma forRange_forEach {S} (n : nat) (body : nat → S → S) (s : S) :
  forRange n body s = forEach (seq 0 n) body s.
Proof. reflexivity. Qed.

Lemma withNodes_nil (g : Graph) : withNodes g [] = g.
Proof. unfold withNodes. rewrite app_nil_r. by destruct g. Qed.

Lemma withArcs_nil (g : Graph) : withArcs g [] = g.
Proof. unfold withArcs. rewrite app_nil_r. by destruct g. Qed.

Lemma withNodes_app (g : Graph) (l1 l2 : list Node) :
  withNodes (withNodes g l1) l2 = withNodes g (l1 ++ l2).
Proof. unfold withNodes. cbn. by rewrite app_assoc. Qed.

Lemma withArcs_app (g : Graph) (l1 l2 : list Arc) :
  withArcs (withArcs g l1) l2 = withArcs g (l1 ++ l2).
Proof. unfold withArcs. cbn. by rewrite app_assoc. Qed.

(** A loop that only adds nodes, or only adds arcs. *)
Lemma forEach_addNode {A} (xs : list A) (st ac : A → bool) (g : Graph) :
  forEach xs (λ x g, (addNode g (st x) (ac x)).2) g =
  withNodes g ((λ x, mkNode (st x) (ac x)) <$> xs).
Proof.
  revert g. induction xs as [|x xs IH]; intros g.
  - cbn. by rewrite withNodes_nil.
  - rewrite forEach_cons, IH. cbn. unfold withNodes. cbn. by rewrite <- app_assoc.
Qed.

Lemma forEach_addArc {A} (xs : list A) (up down : A → nat) (il ol : A → label)
    (w : A → float32) (g : Graph) :
  forEach xs (λ x g, (addArc g (up x) (down x) (il x) (ol x) (w x)).2) g =
  withArcs g ((λ x, mkArc (up x) (down x) (il x) (ol x) (w x)) <$> xs).
Proof.
  revert g. induction xs as [|x xs IH]; intros g.
  - cbn. by rewrite withArcs_nil.
  - rewrite forEach_cons, IH. cbn. unfold withArcs. cbn. by rewrite <- app_assoc.
Qed.

Lemma forEach_withArcs {A} (xs : list A) (F : A → list Arc) (g : Graph) :
  forEach xs (λ x g, withArcs g (F x)) g = withArcs g (xs ≫= F).
Proof.
  revert g. induction xs as [|x xs IH]; intros g.
  - cbn. by rewrite withArcs_nil.
  - rewrite forEach_cons, IH, withArcs_app. reflexivity.
Qed.

(** The elements of a vector, read one index after the other. *)
Lemma fmap_by_index {A B} `{Inhabited A} (l : list A) (f : A → B) :
  (λ i, f (l !!! i)) <$> seq 0 (length l) = f <$> l.
Proof.
  apply list_eq. intros i. rewrite !list_lookup_fmap.
  destruct (l !! i) as [a|] eqn:Hi.
  - rewrite lookup_seq_lt by (by eapply lookup_lt_Some). cbn.
    by rewrite (list_lookup_total_correct _ _ _ Hi).
  - rewrite lookup_seq_ge; [done | by apply lookup_ge_None].
Qed.

(** ** Scalar combinators *)

Lemma fneg_involutive (x : float32) : fneg (fneg x) = x.
Proof. destruct x as [s|s| |s m e]; simpl; try reflexivity; by rewrite negb_involutive. Qed.

Lemma negate_eq (g : Graph) :
  negate g =
  if bool_decide (numArcs g = 1)
  then Ok (scalarGraph negate_gradFunc [g] (fneg (item g)))
  else LogicError "[gtn::negate] input must have only one arc".
Proof.
  unfold negate. case_bool_decide as H.
  - rewrite H. reflexivity.
  - destruct (Nat.eqb_spec (numArcs g) 1); [done | reflexivity].
Qed.

Lemma add_eq (g1 g2 : Graph) :
  add g1 g2 =
  if bool_decide (numArcs g1 = 1 ∧ numArcs g2 = 1)
  then Ok (scalarGraph add_gradFunc [g1; g2] (fadd (item g1) (item g2)))
  else LogicError "[gtn::add] inputs must have only one arc".
Proof.
  unfold add.
  destruct (Nat.eqb_spec (numArcs g1) 1), (Nat.eqb_spec (numArcs g2) 1);
    case_bool_decide; simpl; try reflexivity; naive_solver.
Qed.

Lemma subtract_eq (g1 g2 : Graph) :
  subtract g1 g2 =
  if bool_decide (numArcs g1 = 1 ∧ numArcs g2 = 1)
  then Ok (scalarGraph subtract_gradFunc [g1; g2] (fsub (item g1) (item g2)))
  else LogicError "[gtn::subtract] inputs must have only one arc".
Proof.
  unfold subtract.
  destruct (Nat.eqb_spec (numArcs g1) 1), (Nat.eqb_spec (numArcs g2) 1);
    case_bool_decide; simpl; try reflexivity; naive_solver.
Qed.

(** C6. negate throws exactly when its input does not have exactly one arc,
    add and subtract exactly when one of their inputs does not; a call that
    throws returns no graph at all; a call that succeeds returns the graph
    with two nodes and one arc whose weight is the negation of the weight of
    the input, the sum of the two weights, their difference. *)
Theorem scalar_combinators_precondition (g g1 g2 : Graph) :
  ((∃ msg, negate g = LogicError msg) ↔ numArcs g ≠ 1) ∧
  ((∃ msg, add g1 g2 = LogicError msg) ↔ numArcs g1 ≠ 1 ∨ numArcs g2 ≠ 1) ∧
  ((∃ msg, subtract g1 g2 = LogicError msg) ↔ numArcs g1 ≠ 1 ∨ numArcs g2 ≠ 1) ∧
  (numArcs g = 1 →
     ∃ r, negate g = Ok r ∧ numNodes r = 2 ∧ numArcs r = 1 ∧
          item r = fneg (item g)) ∧
  (numArcs g1 = 1 → numArcs g2 = 1 →
     ∃ r, add g1 g2 = Ok r ∧ numNodes r = 2 ∧ numArcs r = 1 ∧
          item r = fadd (item g1) (item g2)) ∧
  (numArcs g1 = 1 → numArcs g2 = 1 →
     ∃ r, subtract g1 g2 = Ok r ∧ numNodes r = 2 ∧ numArcs r = 1 ∧
          item r = fsub (item g1) (item g2)).
Proof.
  rewrite negate_eq, add_eq, subtract_eq.
  repeat split.
  - intros [msg H]. case_bool_decide; [discriminate | done].
  - intros H. rewrite bool_decide_eq_false_2 by done. eauto.
  - intros [msg H]. case_bool_decide; [discriminate | lia].
  - intros H. rewrite bool_decide_eq_false_2 by lia. eauto.
  - intros [msg H]. case_bool_decide; [discriminate | lia].
  - intros H. rewrite bool_decide_eq_false_2 by lia. eauto.
  - intros H. rewrite bool_decide_eq_true_2 by done. eauto.
  - intros H1 H2. rewrite bool_decide_eq_true_2 by done. eauto.
  - intros H1 H2. rewrite bool_decide_eq_true_2 by done. eauto.
Qed.

(** C9. For a graph [g] with exactly one arc, negate(negate(g)) returns a
    graph, and the weight of its only arc is the weight of the arc of [g]. *)
Theorem negate_negate (g : Graph) :
  numArcs g = 1 →
  ∃ r, (negate g ≫= negate) = Ok r ∧ numArcs r = 1 ∧ item r = item g.
Proof.
  intros H. rewrite negate_eq, bool_decide_eq_true_2 by done.
  eexists. split; [reflexivity |]. split; [reflexivity |].
  apply fneg_involutive.
Qed.

Lemma negate_negate_witness :
  numArcs (scalar 2 true) = 1 ∧
  ∃ r, (negate (scalar 2 true) ≫= negate) = Ok r ∧ numArcs r = 1 ∧
       item r = item (scalar 2 true).
Proof. split; [reflexivity | apply negate_negate; reflexivity]. Defined.

(** ** concat: the forward construction *)

Lemma nodeOffset_S (graphs : list Graph) (i : nat) :
  i < length graphs →
  nodeOffset graphs (S i) = nodeOffset graphs i + numNodes (graphs !!! i).
Proof.
  intros Hi. unfold nodeOffset.
  destruct (lookup_lt_is_Some_2 graphs i Hi) as [g Hg].
  rewrite (take_S_r _ _ _ Hg), sum_list_with_app.
  rewrite (list_lookup_total_correct _ _ _ Hg). cbn. lia.
Qed.

Lemma concat_step_eq (epsilon : label) (graphs : list Graph) (i : nat) (out : Graph) :
  i < length graphs →
  concat_step epsilon graphs i (nodeOffset graphs i, out) =
  (nodeOffset graphs (S i),
   withArcs (withNodes out (concat_nodes graphs i)) (concat_arcs epsilon graphs i)).
Proof.
  intros Hi. unfold concat_step.
  assert (0 < i → nodeOffset graphs i - numNodes (graphs !!! (i - 1)) =
                  nodeOffset graphs (i - 1)) as Hoff.
  { intros Hpos. replace i with (S (i - 1)) at 1 by lia.
    rewrite nodeOffset_S by lia. lia. }
  rewrite nodeOffset_S by done. f_equal.
  rewrite !forRange_forEach.
  rewrite (forEach_addNode _
    (λ n, (i =? 0) && isStart (graphs !!! i) n)
    (λ n, (i =? length graphs - 1) && isAccept (graphs !!! i) n)).
  unfold isStart, isAccept, numNodes.
  rewrite (fmap_by_index (g_nodes (graphs !!! i))
    (λ nd, mkNode ((i =? 0) && node_start nd) ((i =? length graphs - 1) && node_accept nd))).
  fold (concat_nodes graphs i).
  rewrite (forEach_addArc _
    (λ a, nodeOffset graphs i + srcNode (graphs !!! i) a)
    (λ a, nodeOffset graphs i + dstNode (graphs !!! i) a)
    (ilabel (graphs !!! i)) (olabel (graphs !!! i)) (weight (graphs !!! i))).
  unfold srcNode, dstNode, ilabel, olabel, weight, numArcs.
  rewrite (fmap_by_index (g_arcs (graphs !!! i))
    (λ a, mkArc (nodeOffset graphs i + arc_upNode a) (nodeOffset graphs i + arc_downNode a)
            (arc_ilabel a) (arc_olabel a) (arc_weight a))).
  change (λ a, mkArc (nodeOffset graphs i + arc_upNode a) (nodeOffset graphs i + arc_downNode a)
            (arc_ilabel a) (arc_olabel a) (arc_weight a)) with (shiftArc (nodeOffset graphs i)).
  unfold concat_arcs.
  destruct (0 <? i) eqn:Hpos.
  - apply Nat.ltb_lt in Hpos.
    unfold numNodes in Hoff. rewrite Hoff by done.
    erewrite forEach_ext; last first.
    { intros a g. unfold addArc3.
      apply (forEach_addArc (start (graphs !!! i))
        (λ _, a + nodeOffset graphs (i - 1)) (λ s, s + nodeOffset graphs i)
        (λ _, epsilon) (λ _, epsilon) (λ _, fzero)). }
    rewrite (forEach_withArcs (accept (graphs !!! (i - 1)))).
    rewrite withArcs_app. reflexivity.
  - by rewrite app_nil_r.
Qed.

Lemma concat_loop (epsilon : label) (graphs : list Graph) (out : Graph) (k : nat) :
  k ≤ length graphs →
  forRange k (concat_step epsilon graphs) (0, out) =
  (nodeOffset graphs k,
   withArcs (withNodes out (seq 0 k ≫= concat_nodes graphs))
     (seq 0 k ≫= concat_arcs epsilon graphs)).
Proof.
  induction k as [|k IH]; intros Hk.
  - cbn. by rewrite withNodes_nil, withArcs_nil.
  - rewrite forRange_S, IH by lia. rewrite concat_step_eq by lia.
    f_equal. rewrite !seq_S, !bind_app. cbn. rewrite !app_nil_r.
    unfold withArcs, withNodes. cbn. by rewrite <- !app_assoc.
Qed.

Lemma concat_inputs (graphs : list Graph) :
  forEach graphs (λ g inputs, inputs ++ [withoutWeights g]) [] =
  withoutWeights <$> graphs.
Proof.
  enough (∀ acc, forEach graphs (λ g inputs, inputs ++ [withoutWeights g]) acc =
                 acc ++ (withoutWeights <$> graphs)) as H by apply H.
  induction graphs as [|g graphs IH]; intros acc.
  - cbn. by rewrite app_nil_r.
  - rewrite forEach_cons, IH. cbn. by rewrite <- app_assoc.
Qed.

Lemma concat_eq (epsilon : label) (graphs : list Graph) :
  graphs ≠ [] →
  concat epsilon graphs =
  mkGraph (seq 0 (length graphs) ≫= concat_nodes graphs)
    (seq 0 (length graphs) ≫= concat_arcs epsilon graphs)
    (existsb g_calcGrad (withoutWeights <$> graphs)) None
    (Some concat_gradFunc) (withoutWeights <$> graphs).
Proof.
  intros Hne. unfold concat. rewrite concat_inputs.
  destruct (Nat.eqb_spec (length graphs) 0) as [H0|H0].
  - by destruct graphs.
  - rewrite concat_loop by done. reflexivity.
Qed.

(** Blocks laid one after the other: block [i] starts where the blocks
    before it end. *)
Lemma bind_seq_split {A} (F : nat → list A) (i k : nat) :
  i < k →
  seq 0 k ≫= F = (seq 0 i ≫= F) ++ F i ++ (seq (S i) (k - S i) ≫= F).
Proof.
  intros Hi. replace k with (i + S (k - S i)) at 1 by lia.
  rewrite seq_app, bind_app. cbn [seq]. rewrite bind_cons. reflexivity.
Qed.

Lemma bind_seq_lookup {A} (F : nat → list A) (i k j : nat) :
  i < k → j < length (F i) →
  (seq 0 k ≫= F) !! (length (seq 0 i ≫= F) + j) = F i !! j.
Proof.
  intros Hi Hj. rewrite (bind_seq_split F i k) by done.
  rewrite lookup_app_r by lia.
  replace (length (seq 0 i ≫= F) + j - length (seq 0 i ≫= F)) with j by lia.
  by rewrite lookup_app_l.
Qed.

Lemma bind_seq_length_S {A} (F : nat → list A) (k : nat) :
  length (seq 0 (S k) ≫= F) = length (seq 0 k ≫= F) + length (F k).
Proof. by rewrite seq_S, bind_app, length_app, bind_singleton. Qed.

Lemma connectors_length (epsilon : label) (p q : Graph) (pOff off : nat) :
  length (connectors epsilon p q pOff off) = numAccept p * numStart q.
Proof.
  unfold connectors, numAccept, numStart.
  induction (accept p) as [|a l IH]; [done |].
  rewrite bind_cons, length_app, length_fmap, IH. cbn. lia.
Qed.

Lemma concat_arcs_length (epsilon : label) (graphs : list Graph) (i : nat) :
  length (concat_arcs epsilon graphs i) =
  numArcs (graphs !!! i) +
  (if 0 <? i then numAccept (graphs !!! (i - 1)) * numStart (graphs !!! i) else 0).
Proof.
  unfold concat_arcs. rewrite length_app, length_fmap.
  destruct (0 <? i); [by rewrite connectors_length | done].
Qed.

Lemma concat_arcs_offset (epsilon : label) (graphs : list Graph) (k : nat) :
  length (seq 0 k ≫= concat_arcs epsilon graphs) = arcOffset graphs k.
Proof.
  induction k as [|k IH]; [done |].
  rewrite bind_seq_length_S, IH, concat_arcs_length. cbn [arcOffset]. lia.
Qed.

Lemma concat_nodes_offset (graphs : list Graph) (k : nat) :
  k ≤ length graphs →
  length (seq 0 k ≫= concat_nodes graphs) = nodeOffset graphs k.
Proof.
  induction k as [|k IH]; intros Hk; [done |].
  rewrite bind_seq_length_S, IH, nodeOffset_S by lia.
  unfold concat_nodes. by rewrite length_fmap.
Qed.

Lemma nodeOffset_all (graphs : list Graph) :
  nodeOffset graphs (length graphs) = sum_list_with numNodes graphs.
Proof. unfold nodeOffset. by rewrite firstn_all. Qed.

Lemma arcOffset_S (graphs : list Graph) (i : nat) :
  arcOffset graphs (S i) =
  arcOffset graphs i + numArcs (graphs !!! i) +
  (if 0 <? i then numAccept (graphs !!! (i - 1)) * numStart (graphs !!! i) else 0).
Proof. reflexivity. Qed.

Lemma arcOffset_mono (graphs : list Graph) (i j : nat) :
  i ≤ j → arcOffset graphs i ≤ arcOffset graphs j.
Proof.
  induction 1 as [|j Hij IH]; [done |]. rewrite arcOffset_S. lia.
Qed.

Lemma concat_arc_lookup (epsilon : label) (graphs : list Graph) (i a : nat) :
  i < length graphs → a < numArcs (graphs !!! i) →
  (seq 0 (length graphs) ≫= concat_arcs epsilon graphs) !! (arcOffset graphs i + a) =
  Some (shiftArc (nodeOffset graphs i) (g_arcs (graphs !!! i) !!! a)).
Proof.
  intros Hi Ha. rewrite <- (concat_arcs_offset epsilon).
  rewrite bind_seq_lookup; [| done | rewrite concat_arcs_length; lia].
  unfold concat_arcs. rewrite lookup_app_l by (by rewrite length_fmap).
  rewrite list_lookup_fmap.
  destruct (lookup_lt_is_Some_2 (g_arcs (graphs !!! i)) a Ha) as [x Hx].
  by rewrite Hx, (list_lookup_total_correct _ _ _ Hx).
Qed.

Lemma concat_connector_lookup (epsilon : label) (graphs : list Graph) (i j : nat) :
  0 < i < length graphs →
  j < numAccept (graphs !!! (i - 1)) * numStart (graphs !!! i) →
  (seq 0 (length graphs) ≫= concat_arcs epsilon graphs)
    !! (arcOffset graphs i + numArcs (graphs !!! i) + j) =
  connectors epsilon (graphs !!! (i - 1)) (graphs !!! i)
    (nodeOffset graphs (i - 1)) (nodeOffset graphs i) !! j.
Proof.
  intros Hi Hj. rewrite <- (concat_arcs_offset epsilon), <- Nat.add_assoc.
  assert ((0 <? i) = true) as Hpos by (apply Nat.ltb_lt; lia).
  rewrite bind_seq_lookup; [| lia | rewrite concat_arcs_length, Hpos; lia].
  unfold concat_arcs. rewrite Hpos.
  rewrite lookup_app_r by (rewrite length_fmap; unfold numArcs; lia).
  rewrite length_fmap. f_equal. unfold numArcs. lia.
Qed.

Lemma concat_node_lookup (graphs : list Graph) (i n : nat) :
  i < length graphs → n < numNodes (graphs !!! i) →
  (seq 0 (length graphs) ≫= concat_nodes graphs) !! (nodeOffset graphs i + n) =
  Some (mkNode ((i =? 0) && isStart (graphs !!! i) n)
               ((i =? length graphs - 1) && isAccept (graphs !!! i) n)).
Proof.
  intros Hi Hn. rewrite <- concat_nodes_offset by lia.
  rewrite bind_seq_lookup; [| done | unfold concat_nodes; by rewrite length_fmap].
  unfold concat_nodes, isStart, isAccept. rewrite list_lookup_fmap.
  destruct (lookup_lt_is_Some_2 (g_nodes (graphs !!! i)) n Hn) as [x Hx].
  by rewrite Hx, (list_lookup_total_correct _ _ _ Hx).
Qed.

Lemma elem_of_accept (g : Graph) (n : nat) :
  n ∈ accept g ↔ n < numNodes g ∧ isAccept g n = true.
Proof. unfold accept. rewrite list_elem_of_filter, elem_of_seq. intuition lia. Qed.

Lemma elem_of_start (g : Graph) (n : nat) :
  n ∈ start g ↔ n < numNodes g ∧ isStart g n = true.
Proof. unfold start. rewrite list_elem_of_filter, elem_of_seq. intuition lia. Qed.

Lemma elem_of_connectors (epsilon : label) (p q : Graph) (pOff off : nat) (arc : Arc) :
  arc ∈ connectors epsilon p q pOff off ↔
  ∃ a s, a ∈ accept p ∧ s ∈ start q ∧
         arc = mkArc (a + pOff) (s + off) epsilon epsilon fzero.
Proof.
  unfold connectors. rewrite list_elem_of_bind. split.
  - intros (a & Harc & Ha). apply list_elem_of_fmap in Harc as (s & -> & Hs). eauto.
  - intros (a & s & Ha & Hs & ->). exists a. split; [| done].
    apply list_elem_of_fmap. eauto.
Qed.

Lemma NoDup_connectors (epsilon : label) (p q : Graph) (pOff off : nat) :
  NoDup (connectors epsilon p q pOff off).
Proof.
  unfold connectors. apply NoDup_bind.
  - intros a1 a2 arc _ _ H1 H2.
    apply list_elem_of_fmap in H1 as (s1 & -> & _).
    apply list_elem_of_fmap in H2 as (s2 & Heq & _).
    injection Heq as Ha _. lia.
  - intros a _. apply NoDup_fmap_2_strong.
    + intros s1 s2 _ _ Heq. injection Heq as Hs. lia.
    + unfold start. apply NoDup_filter, NoDup_seq.
  - unfold accept. apply NoDup_filter, NoDup_seq.
Qed.

(** C1. concat of a list of graphs that is not empty makes, for the graphs
    in order, the nodes of graph [i] renumbered from [nodeOffset i], start
    exactly when [i] is the first graph and the node is a start node of it,
    accept exactly when [i] is the last graph and the node is an accept node
    of it; its arcs are, for the graphs in order, the arcs of graph [i] with
    both ends moved by [nodeOffset i] and the same labels and weight, then,
    from the second graph on, one epsilon arc of weight 0 from every accept
    node of graph [i - 1] to every start node of graph [i], and nothing
    else. concat of no graph has one node, start and accept, and no arc.
    concat of two graphs has as many nodes as both together, and its arcs
    are theirs followed by the connectors: one arc when the first graph has
    one accept node and the second one start node. *)
Theorem concat_forward (epsilon : label) (g : Graph) (graphs : list Graph) :
  let gs := g :: graphs in
  let out := concat epsilon gs in
  (g_nodes (concat epsilon []) = [mkNode true true] ∧
   g_arcs (concat epsilon []) = []) ∧
  numNodes out = sum_list_with numNodes gs ∧
  (∀ i n, i < length gs → n < numNodes (gs !!! i) →
     isStart out (nodeOffset gs i + n) = (i =? 0) && isStart (gs !!! i) n ∧
     isAccept out (nodeOffset gs i + n) =
       (i =? length gs - 1) && isAccept (gs !!! i) n) ∧
  g_arcs out = seq 0 (length gs) ≫= concat_arcs epsilon gs ∧
  (∀ i a, i < length gs → a < numArcs (gs !!! i) →
     g_arcs out !! (arcOffset gs i + a) =
     Some (shiftArc (nodeOffset gs i) (g_arcs (gs !!! i) !!! a))) ∧
  (∀ i j, 0 < i < length gs →
     j < numAccept (gs !!! (i - 1)) * numStart (gs !!! i) →
     g_arcs out !! (arcOffset gs i + numArcs (gs !!! i) + j) =
     connectors epsilon (gs !!! (i - 1)) (gs !!! i)
       (nodeOffset gs (i - 1)) (nodeOffset gs i) !! j) ∧
  numArcs out = arcOffset gs (length gs) ∧
  (∀ p q pOff off,
     NoDup (connectors epsilon p q pOff off) ∧
     length (connectors epsilon p q pOff off) = numAccept p * numStart q ∧
     ∀ arc, arc ∈ connectors epsilon p q pOff off ↔
            ∃ a s, (a < numNodes p ∧ isAccept p a = true) ∧
                   (s < numNodes q ∧ isStart q s = true) ∧
                   arc = mkArc (a + pOff) (s + off) epsilon epsilon fzero) ∧
  (∀ g1 g2,
     numNodes (concat2 epsilon g1 g2) = numNodes g1 + numNodes g2 ∧
     g_arcs (concat2 epsilon g1 g2) =
       (shiftArc 0 <$> g_arcs g1) ++ (shiftArc (numNodes g1) <$> g_arcs g2) ++
       connectors epsilon g1 g2 0 (numNodes g1) ∧
     ∀ a s, accept g1 = [a] → start g2 = [s] →
       connectors epsilon g1 g2 0 (numNodes g1) =
       [mkArc (a + 0) (s + numNodes g1) epsilon epsilon fzero]).
Proof.
  intros gs out.
  assert (gs ≠ []) as Hne by done.
  assert (g_nodes out = seq 0 (length gs) ≫= concat_nodes gs) as Hnodes.
  { unfold out. by rewrite concat_eq. }
  assert (g_arcs out = seq 0 (length gs) ≫= concat_arcs epsilon gs) as Harcs.
  { unfold out. by rewrite concat_eq. }
  split_and!.
  - reflexivity.
  - reflexivity.
  - unfold numNodes at 1. rewrite Hnodes, concat_nodes_offset by done.
    apply nodeOffset_all.
  - intros i n Hi Hn. unfold isStart at 1, isAccept at 1.
    rewrite Hnodes.
    by rewrite (list_lookup_total_correct _ _ _ (concat_node_lookup gs i n Hi Hn)).
  - exact Harcs.
  - intros i a Hi Ha. rewrite Harcs. by apply concat_arc_lookup.
  - intros i j Hi Hj. rewrite Harcs. by apply concat_connector_lookup.
  - unfold numArcs at 1. rewrite Harcs. apply concat_arcs_offset.
  - intros p q pOff off. split_and!.
    + apply NoDup_connectors.
    + apply connectors_length.
    + intros arc. rewrite elem_of_connectors.
      split; intros (a & s & Ha & Hs & ->); exists a, s;
        rewrite ?elem_of_accept, ?elem_of_start in *; done.
  - intros g1 g2. unfold concat2.
    assert ([g1; g2] ≠ []) as Hne2 by done.
    rewrite (concat_eq epsilon [g1; g2] Hne2). cbn [g_arcs g_nodes length seq].
    split_and!.
    + unfold numNodes at 1. cbn [g_nodes]. rewrite !bind_cons, !length_app.
      unfold concat_nodes. rewrite !length_fmap. cbn. unfold numNodes. lia.
    + rewrite !bind_cons. unfold concat_arcs. cbn. unfold nodeOffset. cbn.
      rewrite !app_nil_r, Nat.add_0_r. reflexivity.
    + intros a s Ha Hs. unfold connectors. rewrite Ha, Hs. reflexivity.
Qed.

(** ** concat: the gradient function *)

Lemma concat_grad_eq (inputs : list Graph) (deltas : Graph) :
  concat_grad inputs deltas =
  (seq 0 (length inputs) ≫= concat_grad_calls inputs (weights deltas), Ok tt).
Proof.
  unfold concat_grad.
  enough (∀ k,
    forRange k (λ i '(pos, done),
      let graph := inputs !!! i in
      let done :=
        done;;
        if calcGrad graph
        then bw_addGrad i (vectorRange (weights deltas) pos (numArcs graph))
        else mret tt in
      let pos := pos + numArcs graph in
      let pos :=
        if 0 <? i then pos + numAccept (inputs !!! (i - 1)) * numStart graph
        else pos in
      (pos, done)) (0, mret tt)
    = (arcOffset inputs k,
       (seq 0 k ≫= concat_grad_calls inputs (weights deltas), Ok tt))) as H.
  { cbv zeta. cbv zeta in H. rewrite H. reflexivity. }
  induction k as [|k IH]; [reflexivity |].
  rewrite forRange_S, IH. cbv zeta. rewrite arcOffset_S.
  f_equal.
  - destruct (0 <? k); lia.
  - rewrite seq_S, bind_app, bind_singleton. change (0 + k) with k.
    assert (concat_grad_calls inputs (weights deltas) k =
            if calcGrad (inputs !!! k)
            then [AddGrad k (vectorRange (weights deltas) (arcOffset inputs k)
                               (numArcs (inputs !!! k)))]
            else []) as -> by reflexivity.
    destruct (calcGrad (inputs !!! k)); cbn; by rewrite ?app_nil_r.
Qed.

Lemma withoutWeights_topology (g : Graph) :
  g_nodes (withoutWeights g) = g_nodes g ∧
  numArcs (withoutWeights g) = numArcs g ∧
  start (withoutWeights g) = start g ∧
  accept (withoutWeights g) = accept g.
Proof.
  split_and!; [done | unfold numArcs; cbn; by rewrite length_fmap | done | done].
Qed.

Lemma inputs_lookup (graphs : list Graph) (j : nat) :
  numArcs ((withoutWeights <$> graphs) !!! j) = numArcs (graphs !!! j) ∧
  numStart ((withoutWeights <$> graphs) !!! j) = numStart (graphs !!! j) ∧
  numAccept ((withoutWeights <$> graphs) !!! j) = numAccept (graphs !!! j).
Proof.
  destruct (decide (j < length graphs)) as [Hj|Hj].
  - rewrite (list_lookup_total_fmap withoutWeights graphs j Hj).
    destruct (withoutWeights_topology (graphs !!! j)) as (_ & Ha & Hs & Hc).
    unfold numStart, numAccept. by rewrite Ha, Hs, Hc.
  - rewrite !list_lookup_total_alt, !lookup_ge_None_2; [done | lia |].
    rewrite length_fmap. lia.
Qed.

Lemma arcOffset_inputs (graphs : list Graph) (i : nat) :
  arcOffset (withoutWeights <$> graphs) i = arcOffset graphs i.
Proof.
  induction i as [|i IH]; [done |]. rewrite !arcOffset_S, IH.
  destruct (inputs_lookup graphs i) as (-> & -> & _).
  destruct (inputs_lookup graphs (i - 1)) as (_ & _ & ->). done.
Qed.

Lemma concat_recorded (epsilon : label) (graphs : list Graph) :
  g_gradFunc (concat epsilon graphs) = Some concat_gradFunc ∧
  g_inputs (concat epsilon graphs) = withoutWeights <$> graphs.
Proof.
  destruct graphs as [|g graphs].
  - done.
  - by rewrite concat_eq.
Qed.

Lemma concat_numArcs (epsilon : label) (graphs : list Graph) :
  numArcs (concat epsilon graphs) = arcOffset graphs (length graphs).
Proof.
  destruct graphs as [|g graphs]; [done |].
  unfold numArcs. rewrite concat_eq by done. apply concat_arcs_offset.
Qed.

Lemma vectorRange_spec {A} (ws : list A) (pos count : nat) :
  pos + count ≤ length ws →
  length (take count (drop pos ws)) = count ∧
  ∀ a, a < count → take count (drop pos ws) !! a = ws !! (pos + a).
Proof.
  intros H. split.
  - rewrite length_take, length_drop. lia.
  - intros a Ha. by rewrite lookup_take_lt, lookup_drop.
Qed.

(** C2. The gradient function recorded by concat makes, for the inputs in
    order, one call of addGrad on each input that asks for a gradient and
    none on the others. For a deltas graph with one value per arc of the
    result, the values given to input [i] are the [numArcs] values of deltas
    that start at the position of the first arc concat made for graph [i]:
    as many as the graph has arcs, in their order, each at the position of
    the copy of that arc. The positions of the epsilon connectors are in the
    range of no input. *)
Theorem concat_backward (epsilon : label) (graphs : list Graph) (deltas : Graph) :
  let out := concat epsilon graphs in
  let inputs := g_inputs out in
  let ws := weights deltas in
  numArcs deltas = numArcs out →
  invokeGradFunc out deltas =
    (seq 0 (length graphs) ≫= concat_grad_calls inputs ws, Ok tt) ∧
  (∀ i, i < length graphs →
     let count := numArcs (graphs !!! i) in
     let values := vectorRange ws (arcOffset graphs i) count in
     concat_grad_calls inputs ws i =
       (if calcGrad (inputs !!! i) then [AddGrad i values] else []) ∧
     length values = count ∧
     ∀ a, a < count →
       values !! a = ws !! (arcOffset graphs i + a) ∧
       g_arcs out !! (arcOffset graphs i + a) =
         Some (shiftArc (nodeOffset graphs i) (g_arcs (graphs !!! i) !!! a))) ∧
  (∀ i j, 0 < i < length graphs →
     j < numAccept (graphs !!! (i - 1)) * numStart (graphs !!! i) →
     let pos := arcOffset graphs i + numArcs (graphs !!! i) + j in
     g_arcs out !! pos =
       connectors epsilon (graphs !!! (i - 1)) (graphs !!! i)
         (nodeOffset graphs (i - 1)) (nodeOffset graphs i) !! j ∧
     ∀ i', i' < length graphs →
       ¬ (arcOffset graphs i' ≤ pos < arcOffset graphs i' + numArcs (graphs !!! i'))).
Proof.
  intros out inputs ws Hlen.
  destruct (concat_recorded epsilon graphs) as [Hf Hin].
  fold out in Hf, Hin. fold inputs in Hin.
  assert (length ws = arcOffset graphs (length graphs)) as Hws.
  { unfold ws, weights. rewrite length_fmap. fold (numArcs deltas).
    rewrite Hlen. apply concat_numArcs. }
  assert (∀ i, i < length graphs →
            arcOffset graphs i + numArcs (graphs !!! i) ≤ length ws) as Hfit.
  { intros i Hi. rewrite Hws.
    etrans; [| apply (arcOffset_mono graphs (S i)); lia].
    rewrite arcOffset_S. lia. }
  split_and!.
  - unfold invokeGradFunc. rewrite Hf. cbn [gradFunc_call].
    rewrite concat_grad_eq. fold inputs ws.
    by rewrite Hin, length_fmap.
  - intros i Hi count values.
    destruct (vectorRange_spec ws (arcOffset graphs i) count (Hfit i Hi)) as [Hl Hv].
    split_and!.
    + unfold concat_grad_calls. rewrite Hin, arcOffset_inputs.
      by destruct (inputs_lookup graphs i) as (-> & _ & _).
    + exact Hl.
    + intros a Ha. split; [by apply Hv |].
      destruct graphs as [|g graphs]; [cbn in Hi; lia |].
      unfold out. rewrite concat_eq by done. by apply concat_arc_lookup.
  - intros i j Hi Hj pos. split.
    + destruct graphs as [|g graphs]; [cbn in Hi; lia |].
      unfold out. rewrite concat_eq by done. by apply concat_connector_lookup.
    + intros i' Hi' [Hlo Hhi].
      assert ((0 <? i) = true) as Hpos by (apply Nat.ltb_lt; lia).
      destruct (decide (i' < i)) as [Hlt|Hge].
      * pose proof (arcOffset_mono graphs (S i') i ltac:(lia)) as Hm.
        rewrite arcOffset_S in Hm. unfold pos in Hhi. lia.
      * destruct (decide (i' = i)) as [->|Hne]; [unfold pos in Hhi; lia |].
        pose proof (arcOffset_mono graphs (S i) i' ltac:(lia)) as Hm.
        rewrite arcOffset_S, Hpos in Hm. unfold pos in Hlo. lia.
Qed.

(** ** closure *)

Lemma closure_eq (epsilon : label) (g : Graph) :
  closure epsilon g =
  mkGraph (mkNode true true :: replicate (numNodes g) (mkNode false false))
    ((shiftArc 1 <$> g_arcs g) ++
     ((λ s, mkArc 0 (s + 1) epsilon epsilon fzero) <$> start g) ++
     ((λ a, mkArc (a + 1) 0 epsilon epsilon fzero) <$> accept g))
    (g_calcGrad g) None (Some closure_gradFunc) [withoutWeights g].
Proof.
  unfold closure. rewrite !forRange_forEach.
  rewrite (forEach_addNode _ (λ _, false) (λ _, false)).
  rewrite (forEach_addArc _
    (λ a, srcNode g a + 1) (λ a, dstNode g a + 1) (ilabel g) (olabel g) (weight g)).
  unfold addArc3.
  rewrite (forEach_addArc (start g)
    (λ _, 0) (λ s, s + 1) (λ _, epsilon) (λ _, epsilon) (λ _, fzero)).
  rewrite (forEach_addArc (accept g)
    (λ a, a + 1) (λ _, 0) (λ _, epsilon) (λ _, epsilon) (λ _, fzero)).
  unfold srcNode, dstNode, ilabel, olabel, weight, numArcs.
  rewrite (fmap_by_index (g_arcs g)
    (λ a, mkArc (arc_upNode a + 1) (arc_downNode a + 1)
            (arc_ilabel a) (arc_olabel a) (arc_weight a))).
  unfold withArcs, withNodes. cbn. rewrite orb_false_r.
  f_equal.
  - f_equal. clear. induction (numNodes g) as [|n IH]; [done |].
    rewrite seq_S, fmap_app, IH. cbn. clear.
    induction n as [|n IH]; [done |]. cbn. by rewrite IH.
  - rewrite <- !app_assoc. f_equal.
    apply list_fmap_ext. intros _ a _. unfold shiftArc. f_equal; lia.
Qed.

(** C5. closure makes one new node, node 0, start and accept, and then one
    node, neither start nor accept, for every node of [g]: node [n] of [g]
    is node [n + 1]. Its first arcs are the arcs of [g] in their order, with
    both ends moved by 1 and the same labels and weight; then come one
    epsilon arc from node 0 to [s + 1] for every start node [s] of [g], and
    then one epsilon arc from [a + 1] to node 0 for every accept node [a].
    The recorded gradient function gives the first [numArcs g] values of
    deltas to [g], as they are. *)
Theorem closure_shape (epsilon : label) (g : Graph) (deltas : Graph) :
  let closed := closure epsilon g in
  let ws := weights deltas in
  numNodes closed = 1 + numNodes g ∧
  (isStart closed 0 = true ∧ isAccept closed 0 = true) ∧
  (∀ n, n < numNodes g →
     isStart closed (n + 1) = false ∧ isAccept closed (n + 1) = false) ∧
  g_arcs closed =
    (shiftArc 1 <$> g_arcs g) ++
    ((λ s, mkArc 0 (s + 1) epsilon epsilon fzero) <$> start g) ++
    ((λ a, mkArc (a + 1) 0 epsilon epsilon fzero) <$> accept g) ∧
  (∀ a, a < numArcs g →
     g_arcs closed !! a = Some (shiftArc 1 (g_arcs g !!! a))) ∧
  (∀ s, s ∈ start g ↔ s < numNodes g ∧ isStart g s = true) ∧
  (∀ a, a ∈ accept g ↔ a < numNodes g ∧ isAccept g a = true) ∧
  NoDup (start g) ∧ NoDup (accept g) ∧
  g_inputs closed = [withoutWeights g] ∧
  numArcs (withoutWeights g) = numArcs g ∧
  invokeGradFunc closed deltas = ([AddGrad 0 (take (numArcs g) ws)], Ok tt) ∧
  (∀ a, a < numArcs g → take (numArcs g) ws !! a = ws !! a).
Proof.
  intros closed ws. unfold closed. rewrite closure_eq.
  split_and!.
  - unfold numNodes at 1. cbn. by rewrite length_replicate.
  - reflexivity.
  - reflexivity.
  - intros n Hn. unfold isStart, isAccept. cbn [g_nodes].
    replace (n + 1) with (S n) by lia.
    rewrite (list_lookup_total_correct _ _ (mkNode false false)); [done |].
    cbn. by apply lookup_replicate_2.
  - reflexivity.
  - intros a Ha. cbn [g_arcs].
    rewrite lookup_app_l by (by rewrite length_fmap).
    rewrite list_lookup_fmap.
    destruct (lookup_lt_is_Some_2 (g_arcs g) a Ha) as [x Hx].
    by rewrite Hx, (list_lookup_total_correct _ _ _ Hx).
  - apply elem_of_start.
  - apply elem_of_accept.
  - unfold start. apply NoDup_filter, NoDup_seq.
  - unfold accept. apply NoDup_filter, NoDup_seq.
  - reflexivity.
  - apply withoutWeights_topology.
  - unfold invokeGradFunc. cbn [g_gradFunc g_inputs gradFunc_call].
    unfold closure_grad, bw_addGrad, vectorRange. cbn [drop].
    change ([withoutWeights g] !!! 0) with (withoutWeights g).
    by destruct (withoutWeights_topology g) as (_ & -> & _).
  - intros a Ha. by apply lookup_take_lt.
Qed.

(** ** compose and intersect: the matcher *)

(** C8. compose makes one call of detail::compose, with one matcher, chosen
    from the two flags [olabelSorted g1] and [ilabelSorted g2] only: the
    doubly sorted matcher when both hold, else the singly sorted matcher
    (told whether it is [g1] that is sorted) when one of them holds, else the
    unsorted matcher. intersect does the same with the flags "[g1] is sorted
    by input or by output label" and "[g2] is sorted by input or by output
    label". *)
Theorem compose_matcher_choice
    (ilabelSorted olabelSorted : Graph → bool)
    (detail_compose : Graph → Graph → ArcMatcher → Graph) (g1 g2 : Graph) :
  let choice (g1Sorted g2Sorted : bool) : ArcMatcher :=
    match g1Sorted, g2Sorted with
    | true, true => DoublySortedMatcher g1 g2
    | true, false => SinglySortedMatcher g1 g2 true
    | false, true => SinglySortedMatcher g1 g2 false
    | false, false => UnsortedMatcher g1 g2
    end in
  compose ilabelSorted olabelSorted detail_compose g1 g2 =
    detail_compose g1 g2 (compose_matcher ilabelSorted olabelSorted g1 g2) ∧
  compose_matcher ilabelSorted olabelSorted g1 g2 =
    choice (olabelSorted g1) (ilabelSorted g2) ∧
  intersect ilabelSorted olabelSorted detail_compose g1 g2 =
    detail_compose g1 g2 (intersect_matcher ilabelSorted olabelSorted g1 g2) ∧
  intersect_matcher ilabelSorted olabelSorted g1 g2 =
    choice (ilabelSorted g1 || olabelSorted g1) (ilabelSorted g2 || olabelSorted g2).
Proof.
  intros choice. split_and!.
  - reflexivity.
  - unfold compose_matcher, choice.
    by destruct (olabelSorted g1), (ilabelSorted g2).
  - reflexivity.
  - unfold intersect_matcher, choice.
    by destruct (ilabelSorted g1 || olabelSorted g1), (ilabelSorted g2 || olabelSorted g2).
Qed.

(** ** The gradient functions and calcGrad *)

Lemma union_grad_eq (inputs : list Graph) (deltas : Graph) :
  union_grad inputs deltas =
  (seq 0 (length inputs) ≫= union_grad_calls inputs (weights deltas), Ok tt).
Proof.
  unfold union_grad.
  enough (∀ k,
    forRange k (λ i '(pos, done),
      let graph := inputs !!! i in
      let done :=
        done;;
        if calcGrad graph
        then bw_addGrad i (vectorRange (weights deltas) pos (numArcs graph))
        else mret tt in
      (pos + numArcs graph, done)) (0, mret tt)
    = (unionOffset inputs k,
       (seq 0 k ≫= union_grad_calls inputs (weights deltas), Ok tt))) as H.
  { cbv zeta. cbv zeta in H. rewrite H. reflexivity. }
  induction k as [|k IH]; [reflexivity |].
  rewrite forRange_S, IH. cbv zeta.
  f_equal.
  - unfold unionOffset. destruct (decide (k < length inputs)) as [Hk|Hk].
    + destruct (lookup_lt_is_Some_2 inputs k Hk) as [x Hx].
      rewrite (take_S_r _ _ _ Hx), sum_list_with_app.
      rewrite (list_lookup_total_correct _ _ _ Hx). cbn. lia.
    + rewrite !firstn_all2 by lia.
      rewrite list_lookup_total_alt, lookup_ge_None_2 by lia. cbn. lia.
  - rewrite seq_S, bind_app, bind_singleton. change (0 + k) with k.
    assert (union_grad_calls inputs (weights deltas) k =
            if calcGrad (inputs !!! k)
            then [AddGrad k (vectorRange (weights deltas) (unionOffset inputs k)
                               (numArcs (inputs !!! k)))]
            else []) as -> by reflexivity.
    destruct (calcGrad (inputs !!! k)); cbn; by rewrite ?app_nil_r.
Qed.

Lemma concat_grad_checks (inputs : list Graph) (deltas : Graph) (i : nat)
    (values : list float32) :
  AddGrad i values ∈ bw_calls (concat_grad inputs deltas) →
  calcGrad (inputs !!! i) = true.
Proof.
  rewrite concat_grad_eq. unfold bw_calls. cbn [fst].
  intros (j & Hj & _)%list_elem_of_bind. unfold concat_grad_calls in Hj.
  destruct (calcGrad (inputs !!! j)) eqn:Hc.
  - apply list_elem_of_singleton in Hj. by injection Hj as -> _.
  - by apply not_elem_of_nil in Hj.
Qed.

Lemma union_grad_checks (inputs : list Graph) (deltas : Graph) (i : nat)
    (values : list float32) :
  AddGrad i values ∈ bw_calls (union_grad inputs deltas) →
  calcGrad (inputs !!! i) = true.
Proof.
  rewrite union_grad_eq. unfold bw_calls. cbn [fst].
  intros (j & Hj & _)%list_elem_of_bind. unfold union_grad_calls in Hj.
  destruct (calcGrad (inputs !!! j)) eqn:Hc.
  - apply list_elem_of_singleton in Hj. by injection Hj as -> _.
  - by apply not_elem_of_nil in Hj.
Qed.

Lemma applyCalls_untouched (calls : list GradCall) (inputs : list Graph) (i : nat) :
  (∀ values, AddGrad i values ∉ calls) →
  applyCalls calls inputs !! i = inputs !! i.
Proof.
  revert inputs. induction calls as [|[j v] calls IH]; intros inputs Hno; [done |].
  cbn. rewrite IH.
  - cbn. apply list_lookup_alter_ne. intros ->. apply (Hno v). by left.
  - intros values Hin. apply (Hno values). by right.
Qed.

(** ** addGrad on a graph that asks for no gradient

    With [addGrad] as it is modelled above, a call on a graph that asks for
    no gradient changes nothing, so that no list of calls changes an input
    that asks for none. *)
Lemma addGrad_not_requested (g : Graph) (values : list float32) :
  calcGrad g = false → addGrad g values = g.
Proof. intros H. unfold addGrad. by rewrite H. Qed.

Lemma applyCalls_not_requested (calls : list GradCall) (inputs : list Graph) (i : nat) :
  calcGrad (inputs !!! i) = false →
  applyCalls calls inputs !! i = inputs !! i.
Proof.
  revert inputs. induction calls as [|[j v] calls IH]; intros inputs Hc; [done |].
  cbn [applyCalls fold_left applyCall].
  assert (alter (λ g, addGrad g v) j inputs !! i = inputs !! i) as Hsame.
  { destruct (decide (j = i)) as [->|Hne]; [| by apply list_lookup_alter_ne].
    rewrite list_lookup_alter_eq.
    destruct (inputs !! i) as [x|] eqn:Hx; [| done].
    rewrite (list_lookup_total_correct _ _ _ Hx) in Hc.
    cbn. by rewrite addGrad_not_requested. }
  fold (applyCalls calls (alter (λ g, addGrad g v) j inputs)).
  rewrite IH, Hsame; [done |].
  rewrite !list_lookup_total_alt, Hsame. by rewrite <- list_lookup_total_alt.
Qed.

(** C3, the claim as it is written, fails: the gradient function of add
    calls addGrad on its first input when that input asks for no
    gradient. *)
Lemma add_grad_no_check : ¬ gradFuncs_check_calcGrad.
Proof.
  intros H.
  specialize (H add_gradFunc [scalar 2 false; scalar 3 true] (scalar 1 false)
                0 (weights (scalar 1 false))).
  assert (calcGrad ([scalar 2 false; scalar 3 true] !!! 0) = true) as Hc.
  { apply H. cbn. by left. }
  discriminate Hc.
Qed.

(** C3, amended. An input that asks for no gradient is left as it is by
    every gradient function, and a contribution is accumulated in an input
    only when it asks for a gradient; but not every gradient function checks
    calcGrad() itself. Those of concat and union call addGrad on an input
    only when it asks for a gradient, and the one of subtract does so for
    its second input: when that input asks for no gradient, the negation of
    deltas is not computed (the call ends well whatever deltas is) and no
    call is made on it. The gradient function of add calls addGrad with
    deltas on both inputs, the one of subtract on its first input, and those
    of negate, clone and closure on their input, whatever the flags of these
    inputs are: there it is addGrad that does nothing for an input that asks
    for no gradient. *)
Theorem gradFuncs_calcGrad (inputs : list Graph) (deltas : Graph) :
  (∀ (f : GradFunc) (i : nat),
     calcGrad (inputs !!! i) = false →
     applyCalls (bw_calls (gradFunc_call f inputs deltas)) inputs !! i = inputs !! i) ∧
  (∀ i values,
     AddGrad i values ∈ bw_calls (concat_grad inputs deltas) ∨
     AddGrad i values ∈ bw_calls (union_grad inputs deltas) →
     calcGrad (inputs !!! i) = true) ∧
  (calcGrad (inputs !!! 1) = false →
     subtract_grad inputs deltas = ([AddGrad 0 (weights deltas)], Ok tt) ∧
     applyCalls (bw_calls (subtract_grad inputs deltas)) inputs !! 1 = inputs !! 1) ∧
  (calcGrad (inputs !!! 1) = true →
     subtract_grad inputs deltas =
     match negate deltas with
     | Ok d => ([AddGrad 0 (weights deltas); AddGrad 1 (weights d)], Ok tt)
     | LogicError msg => ([AddGrad 0 (weights deltas)], LogicError msg)
     end) ∧
  add_grad inputs deltas =
    ([AddGrad 0 (weights deltas); AddGrad 1 (weights deltas)], Ok tt) ∧
  negate_grad inputs deltas =
    match negate deltas with
    | Ok d => ([AddGrad 0 (weights d)], Ok tt)
    | LogicError msg => ([], LogicError msg)
    end ∧
  clone_grad inputs deltas = ([AddGrad 0 (weights deltas)], Ok tt) ∧
  closure_grad inputs deltas =
    ([AddGrad 0 (vectorRange (weights deltas) 0 (numArcs (inputs !!! 0)))], Ok tt).
Proof.
  split_and!; try reflexivity.
  - intros f i Hc. by apply applyCalls_not_requested.
  - intros i values [H|H]; [by eapply concat_grad_checks | by eapply union_grad_checks].
  - intros Hc. unfold subtract_grad. rewrite Hc. split; [reflexivity |].
    apply applyCalls_untouched. intros values Hin. cbn in Hin.
    apply list_elem_of_singleton in Hin. discriminate Hin.
  - intros Hc. unfold subtract_grad. rewrite Hc.
    by destruct (negate deltas).
Qed.

(** ** remove: the nodes *)

Lemma filter_seq_S (P : nat → Prop) `{∀ n, Decision (P n)} (k : nat) :
  filter P (seq 0 (S k)) = filter P (seq 0 k) ++ (if decide (P k) then [k] else []).
Proof.
  rewrite seq_S, filter_app. f_equal.
Qed.

Lemma remove_nodes_eq (g : Graph) (il ol : label) (G0 : Graph) :
  numNodes G0 = 0 →
  remove_nodes g il ol G0 =
  (nodesTable g il ol,
   withNodes G0 ((λ n, mkNode (isStart g n) false) <$> survivors g il ol)).
Proof.
  intros HG0. unfold remove_nodes.
  enough (∀ k, k ≤ numNodes g →
    forRange k (λ n '(nodes, graph),
      if isStart g n || negb (forallb (label_match g il ol) (in_ g n)) then
        let '(idx, graph) := addNode graph (isStart g n) false in
        (<[n := Z.of_nat idx]> nodes, graph)
      else (nodes, graph)) (replicate (numNodes g) (-1)%Z, G0)
    = (((λ n, if kept g il ol n then Z.of_nat (newIndex g il ol n) else (-1)%Z)
          <$> seq 0 k) ++ replicate (numNodes g - k) (-1)%Z,
       withNodes G0 ((λ n, mkNode (isStart g n) false)
          <$> filter (λ n, kept g il ol n = true) (seq 0 k)))) as H.
  { cbv zeta. rewrite H by done. rewrite Nat.sub_diag. cbn [replicate].
    by rewrite app_nil_r. }
  induction k as [|k IH]; intros Hk.
  - cbn. rewrite Nat.sub_0_r. by rewrite withNodes_nil.
  - rewrite forRange_S, IH by lia.
    change (isStart g k || negb (forallb (label_match g il ol) (in_ g k)))
      with (kept g il ol k).
    rewrite filter_seq_S, seq_S, !fmap_app. cbn [fmap list_fmap Nat.add].
    replace (numNodes g - k) with (S (numNodes g - S k)) by lia.
    cbn [replicate].
    destruct (kept g il ol k) eqn:Hkept.
    + rewrite decide_True by done. cbn [addNode fst snd].
      f_equal.
      * rewrite insert_app_r_alt by (rewrite length_fmap, length_seq; lia).
        rewrite length_fmap, length_seq, Nat.sub_diag. cbn [list_insert].
        rewrite <- app_assoc. cbn. do 3 f_equal.
        unfold numNodes, withNodes. cbn [g_nodes]. rewrite length_app, length_fmap.
        unfold numNodes in HG0. rewrite HG0. reflexivity.
      * unfold withNodes. cbn. by rewrite app_assoc.
    + rewrite decide_False by done.
      cbn. rewrite app_nil_r, <- app_assoc. reflexivity.
Qed.

Lemma elem_of_in_ (g : Graph) (n a : nat) :
  a ∈ in_ g n ↔ a < numArcs g ∧ dstNode g a = n.
Proof. unfold in_. rewrite list_elem_of_filter, elem_of_seq. intuition lia. Qed.

Lemma elem_of_out (g : Graph) (n a : nat) :
  a ∈ out g n ↔ a < numArcs g ∧ srcNode g a = n.
Proof. unfold out. rewrite list_elem_of_filter, elem_of_seq. intuition lia. Qed.

Lemma forallb_false {A} (f : A → bool) (l : list A) :
  forallb f l = false ↔ ∃ x, x ∈ l ∧ f x = false.
Proof.
  induction l as [|y l IH]; cbn.
  - split; [done | intros (x & Hx & _); by apply not_elem_of_nil in Hx].
  - rewrite andb_false_iff, IH. split.
    + intros [Hy|(x & Hx & Hf)]; [exists y | exists x]; split; try done.
      * by left.
      * by right.
    + intros (x & Hx & Hf). apply elem_of_cons in Hx as [->|Hx]; eauto.
Qed.

Lemma kept_spec (g : Graph) (il ol : label) (n : nat) :
  kept g il ol n = true ↔
  isStart g n = true ∨
  ∃ a, a < numArcs g ∧ dstNode g a = n ∧ label_match g il ol a = false.
Proof.
  unfold kept. rewrite orb_true_iff, negb_true_iff, forallb_false.
  split.
  - intros [H|(a & Ha & Hm)]; [by left | right].
    apply elem_of_in_ in Ha as [Ha Hd]. by exists a.
  - intros [H|(a & Ha & Hd & Hm)]; [by left | right].
    exists a. split; [| done]. by apply elem_of_in_.
Qed.

Lemma elem_of_survivors (g : Graph) (il ol : label) (n : nat) :
  n ∈ survivors g il ol ↔ n < numNodes g ∧ kept g il ol n = true.
Proof. unfold survivors. rewrite list_elem_of_filter, elem_of_seq. intuition lia. Qed.

Lemma survivors_newIndex (g : Graph) (il ol : label) (n : nat) :
  n < numNodes g → kept g il ol n = true →
  survivors g il ol !! newIndex g il ol n = Some n.
Proof.
  intros Hn Hk. unfold survivors, newIndex.
  replace (numNodes g) with (n + S (numNodes g - S n)) by lia.
  rewrite seq_app, filter_app. cbn [seq Nat.add].
  rewrite filter_cons, decide_True by done.
  rewrite lookup_app_r by done. by rewrite Nat.sub_diag.
Qed.

Lemma survivors_lookup (g : Graph) (il ol : label) (j n : nat) :
  survivors g il ol !! j = Some n →
  n < numNodes g ∧ kept g il ol n = true ∧ j = newIndex g il ol n.
Proof.
  intros Hj.
  assert (n ∈ survivors g il ol) as [Hn Hk]%elem_of_survivors
    by (by eapply list_elem_of_lookup_2).
  split_and!; [done | done |].
  eapply NoDup_lookup; [| exact Hj | by apply survivors_newIndex].
  unfold survivors. apply NoDup_filter, NoDup_seq.
Qed.

Lemma nodesTable_lookup (g : Graph) (il ol : label) (n : nat) :
  n < numNodes g →
  nodesTable g il ol !!! n =
  if kept g il ol n then Z.of_nat (newIndex g il ol n) else (-1)%Z.
Proof.
  intros Hn. apply list_lookup_total_correct. unfold nodesTable.
  rewrite list_lookup_fmap, lookup_seq_lt by done. reflexivity.
Qed.

(** ** remove: the search *)

Lemma grows_refl (il ol : label) (c : nat) (G : Graph) : grows il ol c G G.
Proof. by unfold grows. Qed.

Lemma grows_trans (il ol : label) (c : nat) (G1 G2 G3 : Graph) :
  grows il ol c G1 G2 → grows il ol c G2 G3 → grows il ol c G1 G3.
Proof.
  intros (Hl1 & Hs1 & Ha1 & Hf1 & Hg1 & Hi1) (Hl2 & Hs2 & Ha2 & Hf2 & Hg2 & Hi2).
  unfold grows. split_and!.
  - congruence.
  - intros k. by rewrite Hs2.
  - intros k Hk. by rewrite Ha2, Ha1.
  - auto.
  - congruence.
  - congruence.
Qed.

Lemma label_match_false (g : Graph) (il ol : label) (a : nat) :
  label_match g il ol a = false ↔ ¬ (ilabel g a = il ∧ olabel g a = ol).
Proof.
  unfold label_match. rewrite andb_false_iff, !Z.eqb_neq. split.
  - intros [H|H] [H1 H2]; by apply H.
  - intros H. destruct (decide (ilabel g a = il)); [right | by left].
    intros H2. by apply H.
Qed.

(** The loop over the arcs that leave [next]. *)
Lemma explore_arcs_spec (g : Graph) (il ol : label) (nodes : list Z) (curr : Z)
    (U : gset nat) (l : list nat) (q : list nat) (R : gset nat) (G : Graph)
    (q1 : list nat) (R1 : gset nat) (G1 : Graph) :
  forEach l (explore_arc g il ol nodes curr) (q, R, G) = (q1, R1, G1) →
  (∃ new, q1 = q ++ new ∧ R1 = list_to_set new ∪ R ∧
     ∀ d, d ∈ new →
       (d ∉ R) ∧ ∃ a, a ∈ l ∧ label_match g il ol a = true ∧ dstNode g a = d) ∧
  (∀ a, a ∈ l → label_match g il ol a = true → dstNode g a ∈ R1) ∧
  g_nodes G1 = g_nodes G ∧
  (Forall (removeArc il ol) (g_arcs G) → Forall (removeArc il ol) (g_arcs G1)) ∧
  g_gradFunc G1 = g_gradFunc G ∧
  g_inputs G1 = g_inputs G ∧
  ((∀ a, a ∈ l → dstNode g a ∈ U) →
   length q1 + size (U ∖ R1) ≤ length q + size (U ∖ R)).
Proof.
  revert q R G. induction l as [|a l IH]; intros q R G Hrun.
  - cbn in Hrun. injection Hrun as <- <- <-.
    split_and!; try done.
    + exists []. rewrite app_nil_r. split_and!; [done | set_solver | set_solver].
    + set_solver.
  - rewrite forEach_cons in Hrun. unfold explore_arc at 2 in Hrun.
    destruct (label_match g il ol a) eqn:Hm.
    + destruct (bool_decide (dstNode g a ∈ R)) eqn:Hin; cbn [negb] in Hrun.
      * apply bool_decide_eq_true in Hin.
        destruct (IH _ _ _ Hrun) as ((new & -> & -> & Hnew) & Hall & Hn & Hf & Hg & Hi & Hsz).
        split_and!; try done.
        -- exists new. split_and!; [done | done |].
           intros d Hd. destruct (Hnew d Hd) as (HdR & a' & Ha' & Hm' & Hd').
           split; [done |]. exists a'. split_and!; [by right | done | done].
        -- intros a' [->|Ha']%elem_of_cons Hm'; [set_solver | by apply Hall].
        -- intros HU. apply Hsz. intros a' Ha'. apply HU. by right.
      * apply bool_decide_eq_false in Hin.
        destruct (IH _ _ _ Hrun) as ((new & -> & -> & Hnew) & Hall & Hn & Hf & Hg & Hi & Hsz).
        split_and!; try done.
        -- exists (dstNode g a :: new). split_and!.
           ++ by rewrite <- app_assoc.
           ++ set_solver.
           ++ intros d [->|Hd]%elem_of_cons.
              ** split; [done |]. exists a. split_and!; [by left | done | done].
              ** destruct (Hnew d Hd) as (HdR & a' & Ha' & Hm' & Hd').
                 split; [set_solver |]. exists a'. split_and!; [by right | done | done].
        -- intros a' [->|Ha']%elem_of_cons Hm'; [set_solver | by apply Hall].
        -- intros HU.
           assert (dstNode g a ∈ U) as HdU by (apply HU; by left).
           assert (size (U ∖ ({[dstNode g a]} ∪ R)) < size (U ∖ R)) as Hlt.
           { apply subset_size. set_solver. }
           specialize (Hsz ltac:(intros a' Ha'; apply HU; by right)).
           rewrite !length_app in *. cbn [length] in *. lia.
    + destruct (IH _ _ _ Hrun) as ((new & -> & -> & Hnew) & Hall & Hn & Hf & Hg & Hi & Hsz).
      split_and!; try done.
      * exists new. split_and!; [done | done |].
        intros d Hd. destruct (Hnew d Hd) as (HdR & a' & Ha' & Hm' & Hd').
        split; [done |]. exists a'. split_and!; [by right | done | done].
      * intros a' [->|Ha']%elem_of_cons Hm'; [congruence | by apply Hall].
      * intros HG. apply Hf. cbn. apply Forall_app. split; [done |].
        apply Forall_singleton. split; [| done]. cbn.
        by apply label_match_false.
      * intros HU. apply Hsz. intros a' Ha'. apply HU. by right.
Qed.

Lemma makeAccept_grows (il ol : label) (c : nat) (G : Graph) :
  grows il ol c G (makeAccept G c).
Proof.
  unfold grows, makeAccept. cbn. split_and!; try done.
  - apply length_alter.
  - intros k. destruct (decide (k = c)) as [->|Hk].
    + destruct (decide (c < length (g_nodes G))) as [Hc|Hc].
      * rewrite list_lookup_total_alter_eq by done. reflexivity.
      * rewrite !list_lookup_total_alt, list_lookup_alter_eq.
        rewrite lookup_ge_None_2 by lia. reflexivity.
    + by rewrite list_lookup_total_alter_ne.
  - intros k Hk. by rewrite list_lookup_total_alter_ne.
Qed.

Lemma makeAccept_accept (G : Graph) (c : nat) :
  c < length (g_nodes G) →
  node_accept (g_nodes (makeAccept G c) !!! c) = true.
Proof.
  intros Hc. unfold makeAccept. cbn.
  by rewrite list_lookup_total_alter_eq.
Qed.

(** The while loop, when it ends: [R'] is [R] with what is reached from the
    queue, every node that was taken out of the queue has its matching
    successors in [R'], and node [curr] is marked as accept exactly when it
    was already or when a node taken out of the queue is an accept node. *)
Lemma explore_spec (g : Graph) (il ol : label) (nodes : list Z) (curr : Z)
    (fuel : nat) (q : list nat) (R : gset nat) (G : Graph)
    (q' : list nat) (R' : gset nat) (G' : Graph) :
  explore fuel g il ol nodes curr q R G = Some (q', R', G') →
  Z.to_nat curr < length (g_nodes G) →
  q' = [] ∧ R ⊆ R' ∧
  (∀ m, m ∈ R' → m ∈ R ∨ ∃ x, x ∈ q ∧ reaches g il ol x m) ∧
  (∀ x m, x ∈ q ∨ (x ∈ R' ∧ x ∉ R) → matching g il ol x m → m ∈ R') ∧
  grows il ol (Z.to_nat curr) G G' ∧
  (node_accept (g_nodes G' !!! Z.to_nat curr) = true ↔
   node_accept (g_nodes G !!! Z.to_nat curr) = true ∨
   ∃ x, (x ∈ q ∨ (x ∈ R' ∧ x ∉ R)) ∧ isAccept g x = true).
Proof.
  revert q R G. induction fuel as [|fuel IH]; intros q R G Hrun Hc.
  - destruct q as [|next q]; [| discriminate Hrun].
    injection Hrun as <- <- <-.
    split_and!; [done | done | by left | | apply grows_refl |].
    + intros x m [Hx|[Hx Hx']]; [by apply not_elem_of_nil in Hx | done].
    + split; [by left |]. intros [H|(x & [Hx|[Hx Hx']] & _)]; [done | | done].
      by apply not_elem_of_nil in Hx.
  - destruct q as [|next q].
    { injection Hrun as <- <- <-.
      split_and!; [done | done | by left | | apply grows_refl |].
      + intros x m [Hx|[Hx Hx']]; [by apply not_elem_of_nil in Hx | done].
      + split; [by left |]. intros [H|(x & [Hx|[Hx Hx']] & _)]; [done | | done].
        by apply not_elem_of_nil in Hx. }
    cbn [explore] in Hrun.
    set (G1 := if isAccept g next then makeAccept G (Z.to_nat curr) else G) in Hrun.
    destruct (forEach (out g next) (explore_arc g il ol nodes curr) (q, R, G1))
      as [[q1 R1] G2] eqn:Harcs.
    destruct (explore_arcs_spec g il ol nodes curr ∅ _ _ _ _ _ _ _ Harcs)
      as ((new & -> & -> & Hnew) & Hall & Hn & Hf & Hg & Hi & _).
    assert (grows il ol (Z.to_nat curr) G G1) as HG1.
    { unfold G1. destruct (isAccept g next); [apply makeAccept_grows | apply grows_refl]. }
    assert (grows il ol (Z.to_nat curr) G1 G2) as HG2.
    { unfold grows. rewrite Hn. split_and!; done. }
    assert (Z.to_nat curr < length (g_nodes G2)) as Hc2.
    { rewrite Hn. destruct HG1 as (-> & _). done. }
    destruct (IH _ _ _ Hrun Hc2) as (-> & Hsub & Hsound & Hclosed & HG' & Hacc).
    assert (∀ d, d ∈ new → matching g il ol next d) as Hstep.
    { intros d Hd. destruct (Hnew d Hd) as (_ & a & [Ha Hs]%elem_of_out & Hm & Hdn).
      by exists a. }
    split_and!.
    + done.
    + set_solver.
    + intros m Hm. destruct (Hsound m Hm) as [HmR|(x & Hx & Hxm)].
      * apply elem_of_union in HmR as [Hmn|HmR]; [| by left].
        right. exists next. split; [by left |].
        apply rtc_once, Hstep. by apply elem_of_list_to_set in Hmn.
      * right. apply elem_of_app in Hx as [Hx|Hx].
        -- exists x. split; [by right | done].
        -- exists next. split; [by left |].
           eapply rtc_l; [by apply Hstep | done].
    + intros x m Hx Hxm.
      destruct (decide (x = next)) as [->|Hne].
      * destruct Hxm as (a & Ha & Hs & Hd & Hm). subst m.
        apply Hsub, Hall; [by apply elem_of_out | done].
      * apply (Hclosed x m); [| done].
        destruct Hx as [Hx|[Hx Hx']].
        -- left. apply elem_of_cons in Hx as [->|Hx]; [done |].
           apply elem_of_app. by left.
        -- destruct (decide (x ∈ new)) as [Hxn|Hxn].
           ++ left. apply elem_of_app. by right.
           ++ right. split; [done |]. set_solver.
    + by eapply grows_trans; [eapply grows_trans |].
    + rewrite Hacc, Hn.
      assert (node_accept (g_nodes G1 !!! Z.to_nat curr) = true ↔
              node_accept (g_nodes G !!! Z.to_nat curr) = true ∨ isAccept g next = true)
        as ->.
      { unfold G1. destruct (isAccept g next).
        - rewrite makeAccept_accept by done. naive_solver.
        - naive_solver. }
      split.
      * intros [[H|H]|(x & Hx & Hax)].
        -- by left.
        -- right. exists next. split; [left; by left | done].
        -- right. exists x. split; [| done].
           destruct Hx as [Hx|[Hx Hx']].
           ++ apply elem_of_app in Hx as [Hx|Hx].
              ** left. by right.
              ** right. split; [set_solver |]. by apply (Hnew x).
           ++ right. split; [done | set_solver].
      * intros [H|(x & Hx & Hax)]; [left; by left |].
        destruct (decide (x = next)) as [->|Hne]; [left; by right |].
        right. exists x. split; [| done].
        destruct Hx as [Hx|[Hx Hx']].
        -- left. apply elem_of_cons in Hx as [->|Hx]; [done |].
           apply elem_of_app. by left.
        -- destruct (decide (x ∈ new)) as [Hxn|Hxn].
           ++ left. apply elem_of_app. by right.
           ++ right. split; [done | set_solver].
Qed.

Lemma dstNode_destination (g : Graph) (a : nat) :
  a < numArcs g → dstNode g a ∈ destinations g.
Proof.
  intros Ha. unfold destinations. apply elem_of_list_to_set, list_elem_of_fmap.
  exists a. split; [done |]. apply elem_of_seq. lia.
Qed.

Lemma size_list_to_set_le (l : list nat) :
  size (list_to_set l : gset nat) ≤ length l.
Proof.
  induction l as [|x l IH]; cbn.
  - by rewrite size_empty.
  - rewrite size_union_alt, size_singleton.
    pose proof (subseteq_size (list_to_set l ∖ {[x]}) (list_to_set l : gset nat)
                  ltac:(set_solver)). lia.
Qed.

Lemma destinations_size (g : Graph) : size (destinations g) ≤ numArcs g.
Proof.
  unfold destinations. etrans; [apply size_list_to_set_le |].
  by rewrite length_fmap, length_seq.
Qed.

(** The while loop ends: a round takes a node out of the queue, and what
    enters the queue leaves the destinations that are not reached yet. *)
Lemma explore_total (g : Graph) (il ol : label) (nodes : list Z) (curr : Z)
    (fuel : nat) (q : list nat) (R : gset nat) (G : Graph) :
  length q + size (destinations g ∖ R) ≤ fuel →
  is_Some (explore fuel g il ol nodes curr q R G).
Proof.
  revert q R G. induction fuel as [|fuel IH]; intros q R G Hfuel.
  - destruct q; [by eexists | cbn in Hfuel; lia].
  - destruct q as [|next q]; [by eexists |].
    cbn [explore].
    destruct (forEach (out g next) (explore_arc g il ol nodes curr)
                (q, R, if isAccept g next then makeAccept G (Z.to_nat curr) else G))
      as [[q1 R1] G2] eqn:Harcs.
    destruct (explore_arcs_spec g il ol nodes curr (destinations g) _ _ _ _ _ _ _ Harcs)
      as (_ & _ & _ & _ & _ & _ & Hsz).
    apply IH. cbn in Hfuel.
    specialize (Hsz ltac:(intros a [Ha _]%elem_of_out; by apply dstNode_destination)).
    lia.
Qed.

(** More fuel changes nothing. *)
Lemma explore_more_fuel (g : Graph) (il ol : label) (nodes : list Z) (curr : Z)
    (fuel extra : nat) (q : list nat) (R : gset nat) (G : Graph)
    (res : list nat * gset nat * Graph) :
  explore fuel g il ol nodes curr q R G = Some res →
  explore (fuel + extra) g il ol nodes curr q R G = Some res.
Proof.
  revert q R G. induction fuel as [|fuel IH]; intros q R G Hrun.
  - destruct q; [| discriminate Hrun]. by destruct extra.
  - destruct q as [|next q]; [done |].
    cbn [explore Nat.add] in *.
    destruct (forEach (out g next) (explore_arc g il ol nodes curr)
                (q, R, if isAccept g next then makeAccept G (Z.to_nat curr) else G))
      as [[q1 R1] G2]. by apply IH.
Qed.

(** ** remove: the result *)

Lemma reaches_closed (g : Graph) (il ol : label) (S : gset nat) (x m : nat) :
  (∀ y z, y ∈ S → matching g il ol y z → z ∈ S) →
  reaches g il ol x m → x ∈ S → m ∈ S.
Proof.
  intros Hclosed Hr. induction Hr as [y|y z w Hyz _ IH]; [done |].
  intros Hy. apply IH. by apply (Hclosed y z).
Qed.

Lemma remove_inv_0 (g : Graph) (il ol : label) :
  remove_inv g il ol 0
    (withNodes (Graph_derived remove_gradFunc [g])
       ((λ n, mkNode (isStart g n) false) <$> survivors g il ol)).
Proof.
  unfold remove_inv. cbn. split_and!; try done.
  - by rewrite length_fmap.
  - intros j n Hj.
    rewrite (list_lookup_total_correct _ _ (mkNode (isStart g n) false)); [done |].
    by rewrite list_lookup_fmap, Hj.
  - intros j n Hj Hn. lia.
  - intros j n Hj _.
    rewrite (list_lookup_total_correct _ _ (mkNode (isStart g n) false)); [done |].
    by rewrite list_lookup_fmap, Hj.
Qed.

Lemma remove_step_inv (g : Graph) (il ol : label) (k : nat) (G : Graph) :
  k < numNodes g →
  remove_inv g il ol k G →
  ∃ G', remove_step (S (numArcs g)) g il ol (nodesTable g il ol) k
          (Some ([], ∅, G)) = Some ([], ∅, G') ∧
        remove_inv g il ol (S k) G'.
Proof.
  intros Hk (Hlen & Hst & Hacc & Hnot & Harcs & Hgf & Hin).
  unfold remove_step. cbn [mbind option_bind].
  rewrite nodesTable_lookup by done.
  destruct (kept g il ol k) eqn:Hkept.
  - assert ((0 <=? Z.of_nat (newIndex g il ol k))%Z = true) as ->
      by (apply Z.leb_le; lia).
    cbn [app].
    set (c := newIndex g il ol k).
    pose proof (survivors_newIndex g il ol k Hk Hkept) as Hc. fold c in Hc.
    assert (c < length (g_nodes G)) as HcG.
    { rewrite Hlen. by eapply lookup_lt_Some. }
    destruct (explore_total g il ol (nodesTable g il ol) (Z.of_nat c)
                (S (numArcs g)) [k] ({[k]} ∪ ∅) G) as [[[q' R'] G'] Hrun].
    { cbn. pose proof (destinations_size g).
      pose proof (subseteq_size (destinations g ∖ ({[k]} ∪ ∅)) (destinations g)
                    ltac:(set_solver)). lia. }
    rewrite Hrun. cbn.
    apply explore_spec in Hrun; [| by rewrite Nat2Z.id].
    rewrite Nat2Z.id in Hrun.
    destruct Hrun as (-> & Hsub & Hsound & Hclosed & Hgrow & HaccG').
    exists G'. split; [done |].
    assert (∀ x, reaches g il ol k x ↔ x ∈ R') as Hreach.
    { intros x. split.
      - intros Hr. apply (reaches_closed g il ol R' k x); [| done | set_solver].
        intros y z Hy Hyz. apply (Hclosed y z); [| done].
        destruct (decide (y = k)) as [->|Hne]; [left; by left | right; set_solver].
      - intros Hx. destruct (Hsound x Hx) as [HxR|(y & Hy & Hyx)].
        + assert (x = k) as -> by set_solver. apply rtc_refl.
        + apply list_elem_of_singleton in Hy as ->. done. }
    assert (node_accept (g_nodes G' !!! c) = true ↔
            ∃ x, reaches g il ol k x ∧ isAccept g x = true) as HaccC.
    { rewrite HaccG', (Hnot c k Hc) by lia. split.
      - intros [H|(x & Hx & Hax)]; [done |]. exists x. split; [| done].
        apply Hreach. destruct Hx as [Hx|[Hx _]]; [| done].
        apply list_elem_of_singleton in Hx as ->. set_solver.
      - intros (x & Hx & Hax). right. exists x. split; [| done].
        destruct (decide (x = k)) as [->|Hne]; [left; by left |].
        right. split; [by apply Hreach | set_solver]. }
    destruct Hgrow as (Hl' & Hs' & Ha' & Hf' & Hg' & Hi').
    unfold remove_inv. split_and!.
    + congruence.
    + intros j n Hj. rewrite Hs'. by apply Hst.
    + intros j n Hj Hn. destruct (decide (n = k)) as [->|Hne].
      * assert (j = c) as -> by (by apply survivors_lookup in Hj as (_ & _ & ->)).
        exact HaccC.
      * rewrite Ha'; [apply Hacc; [done | lia] |].
        intros ->. rewrite Hc in Hj. by injection Hj.
    + intros j n Hj Hn. rewrite Ha'; [apply (Hnot j n); [done | lia] |].
      intros ->. rewrite Hc in Hj. injection Hj as <-. lia.
    + by apply Hf'.
    + congruence.
    + congruence.
  - assert ((0 <=? -1)%Z = false) as -> by done.
    cbn. exists G. split; [done |].
    assert (∀ j n, survivors g il ol !! j = Some n → n ≠ k) as Hne.
    { intros j n Hj ->. apply survivors_lookup in Hj as (_ & Hk' & _). congruence. }
    unfold remove_inv. split_and!; try done.
    + intros j n Hj Hn. pose proof (Hne j n Hj). apply Hacc; [done | lia].
    + intros j n Hj Hn. pose proof (Hne j n Hj). apply (Hnot j n); [done | lia].
Qed.

Lemma remove_loop_inv (g : Graph) (il ol : label) (k : nat) (G0 : Graph) :
  k ≤ numNodes g →
  remove_inv g il ol 0 G0 →
  ∃ G, forRange k (remove_step (S (numArcs g)) g il ol (nodesTable g il ol))
         (Some ([], ∅, G0)) = Some ([], ∅, G) ∧
       remove_inv g il ol k G.
Proof.
  intros Hk H0. induction k as [|k IH].
  - by exists G0.
  - destruct IH as (G & Hrun & Hinv); [lia |].
    rewrite forRange_S, Hrun. by apply remove_step_inv.
Qed.

(** remove returns a graph, which is as [remove_inv] says when all the nodes
    are handled. *)
Lemma remove_spec (g : Graph) (il ol : label) :
  ∃ r, remove g il ol = Some r ∧ remove_inv g il ol (numNodes g) r.
Proof.
  unfold remove, remove_fuel. rewrite remove_nodes_eq by done.
  destruct (remove_loop_inv g il ol (numNodes g) _ ltac:(done) (remove_inv_0 g il ol))
    as (r & Hrun & Hinv).
  rewrite Hrun. cbn. by exists r.
Qed.

(** Where remove adds an arc for the arc [a] of [g], the entry of [nodes]
    for its destination is the index of a node of the result: the
    destination has the incoming arc [a], which does not match. *)
Lemma remove_arc_endpoints (g : Graph) (il ol : label) (a : nat) :
  a < numArcs g → dstNode g a < numNodes g →
  label_match g il ol a = false →
  nodesTable g il ol !!! dstNode g a =
    Z.of_nat (newIndex g il ol (dstNode g a)) ∧
  survivors g il ol !! newIndex g il ol (dstNode g a) = Some (dstNode g a).
Proof.
  intros Ha Hd Hm.
  assert (kept g il ol (dstNode g a) = true) as Hk.
  { apply kept_spec. right. by exists a. }
  split.
  - by rewrite nodesTable_lookup, Hk.
  - by apply survivors_newIndex.
Qed.

(** C4. remove returns a graph. It makes a node for the node [n] of [g]
    exactly when [n] is a start node or has an incoming arc whose labels
    are not both the labels to remove; node [j] of the result is made for
    the [j]-th such node, and is a start node exactly when that node is.
    No arc of the result has both labels to remove. The node made for [n]
    is an accept node exactly when an accept node of [g] is reached from
    [n] along arcs with both labels to remove, [n] itself included. *)
Theorem remove_shape (g : Graph) (il ol : label) :
  ∃ r, remove g il ol = Some r ∧
    (∀ n, n ∈ survivors g il ol ↔
       n < numNodes g ∧
       (isStart g n = true ∨
        ∃ a, a < numArcs g ∧ dstNode g a = n ∧
             ¬ (ilabel g a = il ∧ olabel g a = ol))) ∧
    NoDup (survivors g il ol) ∧
    numNodes r = length (survivors g il ol) ∧
    (∀ j n, survivors g il ol !! j = Some n →
       isStart r j = isStart g n ∧
       (isAccept r j = true ↔
        ∃ m, reaches g il ol n m ∧ isAccept g m = true)) ∧
    (∀ x y, matching g il ol x y ↔
       ∃ a, a < numArcs g ∧ srcNode g a = x ∧ dstNode g a = y ∧
            ilabel g a = il ∧ olabel g a = ol) ∧
    (∀ arc, arc ∈ g_arcs r → ¬ (arc_ilabel arc = il ∧ arc_olabel arc = ol)).
Proof.
  destruct (remove_spec g il ol) as (r & Hr & Hlen & Hst & Hacc & _ & Harcs & _ & _).
  exists r. split_and!.
  - done.
  - intros n. rewrite elem_of_survivors, kept_spec.
    by setoid_rewrite label_match_false.
  - unfold survivors. apply NoDup_filter, NoDup_seq.
  - done.
  - intros j n Hj. split; [by apply Hst |].
    apply Hacc; [done |]. by apply survivors_lookup in Hj as (Hn & _).
  - intros x y. unfold matching, label_match.
    setoid_rewrite andb_true_iff. by setoid_rewrite Z.eqb_eq.
  - intros arc Harc. rewrite Forall_forall in Harcs.
    by destruct (Harcs arc Harc).
Qed.

(** C10. Every arc of the graph that remove returns has weight 0: the arcs
    of [g] that are kept are added without their weight. *)
Theorem remove_weights (g : Graph) (il ol : label) :
  ∃ r, remove g il ol = Some r ∧
    ∀ arc, arc ∈ g_arcs r → arc_weight arc = fzero.
Proof.
  destruct (remove_spec g il ol) as (r & Hr & _ & _ & _ & _ & Harcs & _ & _).
  exists r. split; [done |].
  intros arc Harc. rewrite Forall_forall in Harcs.
  by destruct (Harcs arc Harc).
Qed.

(** C7. The gradient function that remove records on its result throws,
    whatever the deltas graph is, before any call of addGrad: the input [g]
    is left as it is. *)
Theorem remove_backward_throws (g : Graph) (il ol : label) (deltas : Graph) :
  ∃ r, remove g il ol = Some r ∧
    g_gradFunc r = Some remove_gradFunc ∧
    g_inputs r = [g] ∧
    invokeGradFunc r deltas =
      ([], LogicError "[gtn::remove] gradient compuation not implemented") ∧
    applyCalls (bw_calls (invokeGradFunc r deltas)) (g_inputs r) = [g].
Proof.
  destruct (remove_spec g il ol) as (r & Hr & _ & _ & _ & _ & _ & Hgf & Hin).
  exists r. unfold invokeGradFunc. rewrite Hgf, Hin. by split_and!.
Qed.

(** More fuel than remove gives to the search changes nothing. *)
Lemma remove_fuel_enough (g : Graph) (il ol : label) (extra : nat) :
  remove_fuel (S (numArcs g) + extra) g il ol = remove g il ol.
Proof.
  destruct (remove_spec g il ol) as (r & Hr & _). rewrite Hr.
  unfold remove in Hr. unfold remove_fuel in *.
  destruct (remove_nodes g il ol (Graph_derived remove_gradFunc [g])) as [nodes G0].
  enough (∀ k st,
    forRange k (remove_step (S (numArcs g)) g il ol nodes) (Some ([], ∅, G0)) = Some st →
    forRange k (remove_step (S (numArcs g) + extra) g il ol nodes) (Some ([], ∅, G0)) = Some st)
    as Hmore.
  { destruct (forRange (numNodes g) (remove_step (S (numArcs g)) g il ol nodes)
                (Some ([], ∅, G0))) as [st|] eqn:Hst; [| discriminate Hr].
    by rewrite (Hmore _ _ Hst). }
  induction k as [|k IH]; intros st Hst; [done |].
  rewrite forRange_S in *.
  destruct (forRange k (remove_step (S (numArcs g)) g il ol nodes) (Some ([], ∅, G0)))
    as [[[q R] G]|] eqn:Hk; [| discriminate Hst].
  rewrite (IH _ eq_refl). unfold remove_step in *. cbn [mbind option_bind] in *.
  destruct (if (0 <=? nodes !!! k)%Z then (q ++ [k], {[k]} ∪ R) else (q, R)) as [q1 R1].
  destruct (explore (S (numArcs g)) g il ol nodes (nodes !!! k) q1 R1 G)
    as [res|] eqn:Hres; [| discriminate Hst].
  by rewrite (explore_more_fuel _ _ _ _ _ _ extra _ _ _ _ Hres).
Qed.

(** ** Examples *)

(** The graphs of the test of concat: one arc of weight 2 in the first, one
    arc of weight 3 in the second. *)
Example concat_example :
  let out := concat2 (-1)%Z (scalar 2 true) (scalar 3 true) in
  g_nodes out =
    [mkNode true false; mkNode false false; mkNode false false; mkNode false true] ∧
  g_arcs out =
    [mkArc 0 1 0%Z 0%Z (float_of_Z 2); mkArc 2 3 0%Z 0%Z (float_of_Z 3);
     mkArc 1 2 (-1)%Z (-1)%Z fzero].
Proof. split; reflexivity. Qed.

(** remove of the label -1 in [chain]: nodes 0 and 2 are kept; node 2
    reaches the accept node 3; the arcs 0 -8-> 2 and 1 -7-> 2 become arcs
    from the node made for 0 to the node made for 2, of weight 0. *)
Example remove_example :
  ∃ r, remove1 chain (-1)%Z = Some r ∧
    survivors chain (-1)%Z (-1)%Z = [0; 2] ∧
    g_nodes r = [mkNode true false; mkNode false true] ∧
    g_arcs r = [mkArc 0 1 8%Z 8%Z fzero; mkArc 0 1 7%Z 7%Z fzero].
Proof. eexists. split_and!; vm_compute; reflexivity. Qed.

(** Three graphs of one arc each: the result of concat has five arcs, of
    which the third and the fifth are connectors; the values at their
    positions go to no input. *)
Lemma concat_backward_witness :
  let graphs := [scalar 2 true; scalar 3 true; scalar 4 true] in
  let deltas := deltasOf [10; 20; 30; 40; 50]%Z in
  numArcs deltas = numArcs (concat (-1)%Z graphs) ∧
  invokeGradFunc (concat (-1)%Z graphs) deltas =
    ([AddGrad 0 [float_of_Z 10]; AddGrad 1 [float_of_Z 20]; AddGrad 2 [float_of_Z 40]],
     Ok tt).
Proof.
  split; [reflexivity |].
  exact (proj1 (concat_backward (-1)%Z
           [scalar 2 true; scalar 3 true; scalar 4 true]
           (deltasOf [10; 20; 30; 40; 50]%Z) eq_refl)).
Defined.

(** ** union *)

Lemma withNodes_withArcs (g : Graph) (nds : list Node) (arcs : list Arc) :
  withNodes (withArcs g arcs) nds = withArcs (withNodes g nds) arcs.
Proof. reflexivity. Qed.

Lemma union_loop (graphs : list Graph) (off : nat) (out : Graph) :
  forEach graphs (λ graph '(nodeOffset, out),
    let out := forRange (numNodes graph) (λ n out,
      (addNode out (isStart graph n) (isAccept graph n)).2) out in
    let out := forRange (numArcs graph) (λ a out,
      (addArc out
         (nodeOffset + srcNode graph a)
         (nodeOffset + dstNode graph a)
         (ilabel graph a)
         (olabel graph a)
         (weight graph a)).2) out in
    (nodeOffset + numNodes graph, out)) (off, out) =
  (off + sum_list_with numNodes graphs,
   withArcs (withNodes out (graphs ≫= g_nodes)) (union_arcs off graphs)).
Proof.
  revert off out. induction graphs as [|g graphs IH]; intros off out.
  - cbn. by rewrite Nat.add_0_r, withNodes_nil, withArcs_nil.
  - rewrite forEach_cons. cbv zeta.
    rewrite !forRange_forEach.
    rewrite (forEach_addNode _ (isStart g) (isAccept g)).
    rewrite (forEach_addArc _
      (λ a, off + srcNode g a) (λ a, off + dstNode g a)
      (ilabel g) (olabel g) (weight g)).
    unfold isStart, isAccept, srcNode, dstNode, ilabel, olabel, weight.
    unfold numNodes at 1, numArcs at 1.
    rewrite (fmap_by_index (g_nodes g) (λ nd, mkNode (node_start nd) (node_accept nd))).
    rewrite (fmap_by_index (g_arcs g)
      (λ a, mkArc (off + arc_upNode a) (off + arc_downNode a)
              (arc_ilabel a) (arc_olabel a) (arc_weight a))).
    change (λ a, mkArc (off + arc_upNode a) (off + arc_downNode a)
              (arc_ilabel a) (arc_olabel a) (arc_weight a)) with (shiftArc off).
    rewrite (list_fmap_ext (λ nd, mkNode (node_start nd) (node_accept nd)) id (g_nodes g))
      by (by intros i [] _).
    rewrite list_fmap_id, IH. cbn [sum_list_with union_arcs]. f_equal; [lia |].
    rewrite bind_cons. unfold withArcs, withNodes. cbn.
    by rewrite <- !app_assoc.
Qed.

Lemma union_eq (graphs : list Graph) :
  union_ graphs =
  mkGraph (graphs ≫= g_nodes) (union_arcs 0 graphs)
    (existsb g_calcGrad (withoutWeights <$> graphs)) None
    (Some union_gradFunc) (withoutWeights <$> graphs).
Proof.
  unfold union_. rewrite concat_inputs. cbv zeta.
  rewrite (union_loop graphs 0). reflexivity.
Qed.

Lemma bind_seq_S {A} (F : nat → list A) (j n : nat) :
  seq (S j) n ≫= F = seq j n ≫= (λ i, F (S i)).
Proof.
  revert j. induction n as [|n IH]; intros j; [done |].
  cbn [seq]. by rewrite !bind_cons, IH.
Qed.

Lemma nodeOffset_cons (g : Graph) (graphs : list Graph) (i : nat) :
  nodeOffset (g :: graphs) (S i) = numNodes g + nodeOffset graphs i.
Proof. reflexivity. Qed.

Lemma union_arcs_by_index (off : nat) (graphs : list Graph) :
  union_arcs off graphs =
  seq 0 (length graphs) ≫=
    (λ i, shiftArc (off + nodeOffset graphs i) <$> g_arcs (graphs !!! i)).
Proof.
  revert off. induction graphs as [|g graphs IH]; intros off; [done |].
  cbn [union_arcs length seq]. rewrite bind_cons, bind_seq_S, IH.
  f_equal.
  - unfold nodeOffset. cbn. by rewrite Nat.add_0_r.
  - apply list_bind_ext; [| done]. intros i. rewrite nodeOffset_cons.
    by rewrite Nat.add_assoc.
Qed.

Lemma union_arcs_offset (off : nat) (graphs : list Graph) (k : nat) :
  k ≤ length graphs →
  length (seq 0 k ≫=
    (λ i, shiftArc (off + nodeOffset graphs i) <$> g_arcs (graphs !!! i))) =
  unionOffset graphs k.
Proof.
  induction k as [|k IH]; intros Hk; [done |].
  rewrite bind_seq_length_S, IH, length_fmap by lia.
  unfold unionOffset.
  destruct (lookup_lt_is_Some_2 graphs k ltac:(lia)) as [x Hx].
  rewrite (take_S_r _ _ _ Hx), sum_list_with_app.
  rewrite (list_lookup_total_correct _ _ _ Hx). cbn. unfold numArcs. lia.
Qed.

Lemma bind_nodes_length (graphs : list Graph) :
  length (graphs ≫= g_nodes) = sum_list_with numNodes graphs.
Proof.
  induction graphs as [|g graphs IH]; [done |].
  rewrite bind_cons, length_app, IH. reflexivity.
Qed.

Lemma bind_nodes_lookup (graphs : list Graph) (i n : nat) :
  i < length graphs → n < numNodes (graphs !!! i) →
  (graphs ≫= g_nodes) !! (nodeOffset graphs i + n) = g_nodes (graphs !!! i) !! n.
Proof.
  revert i. induction graphs as [|g graphs IH]; intros i Hi Hn; [cbn in Hi; lia |].
  rewrite bind_cons. destruct i as [|i].
  - unfold nodeOffset. cbn. by rewrite lookup_app_l.
  - rewrite nodeOffset_cons, lookup_app_r by (unfold numNodes; lia).
    replace (numNodes g + nodeOffset graphs i + n - length (g_nodes g))
      with (nodeOffset graphs i + n) by (unfold numNodes; lia).
    apply IH; [cbn in Hi; lia | done].
Qed.

(** X1. union makes, for the graphs in order, the nodes of each graph with
    their start and accept flags, renumbered from [nodeOffset i], and the
    arcs of each graph with both ends moved by [nodeOffset i] and the same
    labels and weight; it adds no other arc. The arc [a] of graph [i] is at
    position [unionOffset i + a]. union of no graph has no node and no
    arc. *)
Theorem union_shape (graphs : list Graph) :
  let out := union_ graphs in
  g_nodes out = graphs ≫= g_nodes ∧
  g_arcs out = union_arcs 0 graphs ∧
  numNodes out = sum_list_with numNodes graphs ∧
  numArcs out = sum_list_with numArcs graphs ∧
  (∀ i n, i < length graphs → n < numNodes (graphs !!! i) →
     isStart out (nodeOffset graphs i + n) = isStart (graphs !!! i) n ∧
     isAccept out (nodeOffset graphs i + n) = isAccept (graphs !!! i) n) ∧
  (∀ i a, i < length graphs → a < numArcs (graphs !!! i) →
     g_arcs out !! (unionOffset graphs i + a) =
     Some (shiftArc (nodeOffset graphs i) (g_arcs (graphs !!! i) !!! a))) ∧
  (g_nodes (union_ []) = [] ∧ g_arcs (union_ []) = []).
Proof.
  intros out. unfold out. rewrite union_eq. cbn [g_nodes g_arcs].
  assert (length (union_arcs 0 graphs) = sum_list_with numArcs graphs) as Hlen.
  { rewrite union_arcs_by_index, union_arcs_offset by done.
    unfold unionOffset. by rewrite firstn_all. }
  split_and!; try done.
  - unfold numNodes at 1. cbn. apply bind_nodes_length.
  - intros i n Hi Hn. unfold isStart, isAccept. cbn [g_nodes].
    pose proof (bind_nodes_lookup graphs i n Hi Hn) as Hl.
    destruct (lookup_lt_is_Some_2 (g_nodes (graphs !!! i)) n Hn) as [x Hx].
    rewrite Hx in Hl.
    by rewrite (list_lookup_total_correct _ _ _ Hl), (list_lookup_total_correct _ _ _ Hx).
  - intros i a Hi Ha. rewrite union_arcs_by_index.
    rewrite <- (union_arcs_offset 0 graphs i) by lia.
    rewrite bind_seq_lookup; [| done | by rewrite length_fmap].
    rewrite list_lookup_fmap.
    destruct (lookup_lt_is_Some_2 (g_arcs (graphs !!! i)) a Ha) as [x Hx].
    by rewrite Hx, (list_lookup_total_correct _ _ _ Hx).
Qed.

Lemma union_layout (graphs : list Graph) :
  numArcs (union_ graphs) = sum_list_with numArcs graphs ∧
  ∀ i a, i < length graphs → a < numArcs (graphs !!! i) →
    g_arcs (union_ graphs) !! (unionOffset graphs i + a) =
    Some (shiftArc (nodeOffset graphs i) (g_arcs (graphs !!! i) !!! a)).
Proof.
  rewrite union_eq. cbn [g_arcs]. split.
  - unfold numArcs at 1. cbn [g_arcs].
    rewrite union_arcs_by_index, union_arcs_offset by done.
    unfold unionOffset. by rewrite firstn_all.
  - intros i a Hi Ha. rewrite union_arcs_by_index.
    rewrite <- (union_arcs_offset 0 graphs i) by lia.
    rewrite bind_seq_lookup; [| done | by rewrite length_fmap].
    rewrite list_lookup_fmap.
    destruct (lookup_lt_is_Some_2 (g_arcs (graphs !!! i)) a Ha) as [x Hx].
    by rewrite Hx, (list_lookup_total_correct _ _ _ Hx).
Qed.

Lemma unionOffset_S (graphs : list Graph) (i : nat) :
  i < length graphs →
  unionOffset graphs (S i) = unionOffset graphs i + numArcs (graphs !!! i).
Proof.
  intros Hi. unfold unionOffset.
  destruct (lookup_lt_is_Some_2 graphs i Hi) as [x Hx].
  rewrite (take_S_r _ _ _ Hx), sum_list_with_app.
  rewrite (list_lookup_total_correct _ _ _ Hx). cbn. lia.
Qed.

Lemma unionOffset_mono (graphs : list Graph) (i j : nat) :
  i ≤ j → j ≤ length graphs → unionOffset graphs i ≤ unionOffset graphs j.
Proof.
  induction 1 as [|j Hij IH]; intros Hj; [done |].
  rewrite unionOffset_S by lia. etrans; [apply IH; lia | lia].
Qed.

Lemma unionOffset_inputs (graphs : list Graph) (i : nat) :
  unionOffset (withoutWeights <$> graphs) i = unionOffset graphs i.
Proof.
  unfold unionOffset. rewrite <- fmap_take.
  induction (take i graphs) as [|g l IH]; [done |].
  rewrite fmap_cons. cbn [sum_list_with]. rewrite IH.
  by destruct (withoutWeights_topology g) as (_ & -> & _).
Qed.

Lemma unionOffset_cover (graphs : list Graph) (k pos : nat) :
  k ≤ length graphs → pos < unionOffset graphs k →
  ∃ i a, i < k ∧ a < numArcs (graphs !!! i) ∧ pos = unionOffset graphs i + a.
Proof.
  induction k as [|k IH]; intros Hk Hpos; [unfold unionOffset in Hpos; rewrite take_0 in Hpos; cbn in Hpos; lia |].
  rewrite unionOffset_S in Hpos by lia.
  destruct (decide (pos < unionOffset graphs k)) as [Hlt|Hge].
  - destruct (IH ltac:(lia) Hlt) as (i & a & Hi & Ha & ->).
    exists i, a. split_and!; [lia | done | done].
  - exists k, (pos - unionOffset graphs k). split_and!; lia.
Qed.

(** X2. The gradient function recorded by union makes, for the inputs in
    order, one call of addGrad on each input that asks for a gradient. For
    a deltas graph with one value per arc of the result, the values given
    to input [i] are those at the positions of the copies of its arcs, in
    their order, and every position of deltas is in the range of one
    input. *)
Theorem union_backward (graphs : list Graph) (deltas : Graph) :
  let out := union_ graphs in
  let inputs := g_inputs out in
  let ws := weights deltas in
  numArcs deltas = numArcs out →
  invokeGradFunc out deltas =
    (seq 0 (length graphs) ≫= union_grad_calls inputs ws, Ok tt) ∧
  (∀ i, i < length graphs →
     let count := numArcs (graphs !!! i) in
     let values := vectorRange ws (unionOffset graphs i) count in
     union_grad_calls inputs ws i =
       (if calcGrad (inputs !!! i) then [AddGrad i values] else []) ∧
     length values = count ∧
     ∀ a, a < count →
       values !! a = ws !! (unionOffset graphs i + a) ∧
       g_arcs out !! (unionOffset graphs i + a) =
         Some (shiftArc (nodeOffset graphs i) (g_arcs (graphs !!! i) !!! a))) ∧
  (∀ pos, pos < length ws →
     ∃ i a, i < length graphs ∧ a < numArcs (graphs !!! i) ∧
            pos = unionOffset graphs i + a).
Proof.
  intros out inputs ws Hlen.
  destruct (union_layout graphs) as (Harcs & Hlookup).
  fold out in Harcs, Hlookup.
  assert (inputs = withoutWeights <$> graphs) as Hin.
  { unfold inputs, out. by rewrite union_eq. }
  assert (length ws = unionOffset graphs (length graphs)) as Hws.
  { unfold ws, weights. rewrite length_fmap. fold (numArcs deltas).
    rewrite Hlen, Harcs. unfold unionOffset. by rewrite firstn_all. }
  assert (∀ i, i < length graphs →
            unionOffset graphs i + numArcs (graphs !!! i) ≤ length ws) as Hfit.
  { intros i Hi. rewrite Hws, <- unionOffset_S by done.
    apply unionOffset_mono; lia. }
  split_and!.
  - unfold invokeGradFunc, out. rewrite union_eq. cbn [g_gradFunc g_inputs gradFunc_call].
    rewrite union_grad_eq, length_fmap. fold ws. by rewrite Hin.
  - intros i Hi count values.
    destruct (vectorRange_spec ws (unionOffset graphs i) count (Hfit i Hi)) as [Hl Hv].
    split_and!.
    + unfold union_grad_calls. rewrite Hin, unionOffset_inputs.
      by destruct (inputs_lookup graphs i) as (-> & _ & _).
    + exact Hl.
    + intros a Ha. split; [by apply Hv | by apply Hlookup].
  - intros pos Hpos. rewrite Hws in Hpos. by apply unionOffset_cover.
Qed.

Lemma union_backward_witness :
  let graphs := [scalar 2 true; scalar 3 false; scalar 4 true] in
  let deltas := deltasOf [10; 20; 30]%Z in
  numArcs deltas = numArcs (union_ graphs) ∧
  invokeGradFunc (union_ graphs) deltas =
    ([AddGrad 0 [float_of_Z 10]; AddGrad 2 [float_of_Z 30]], Ok tt).
Proof.
  split; [reflexivity |].
  exact (proj1 (union_backward
           [scalar 2 true; scalar 3 false; scalar 4 true]
           (deltasOf [10; 20; 30]%Z) eq_refl)).
Defined.

(** ** clone and the projections *)

Lemma clone_eq (g : Graph) (projection : Projection) :
  clone g projection =
  mkGraph (g_nodes g) (projectArc projection <$> g_arcs g)
    (g_calcGrad g) None (Some clone_gradFunc) [withoutWeights g].
Proof.
  unfold clone. rewrite !forRange_forEach.
  rewrite (forEach_addNode _ (isStart g) (isAccept g)).
  rewrite (forEach_addArc _ (srcNode g) (dstNode g)
    (λ a, match projection with OUTPUT => olabel g a | _ => ilabel g a end)
    (λ a, match projection with INPUT => ilabel g a | _ => olabel g a end)
    (weight g)).
  unfold isStart, isAccept, srcNode, dstNode, ilabel, olabel, weight, numNodes, numArcs.
  rewrite (fmap_by_index (g_nodes g) (λ nd, mkNode (node_start nd) (node_accept nd))).
  rewrite (fmap_by_index (g_arcs g)
    (λ a, mkArc (arc_upNode a) (arc_downNode a)
       (match projection with OUTPUT => arc_olabel a | _ => arc_ilabel a end)
       (match projection with INPUT => arc_ilabel a | _ => arc_olabel a end)
       (arc_weight a))).
  rewrite (list_fmap_ext (λ nd, mkNode (node_start nd) (node_accept nd)) id (g_nodes g))
    by (by intros i [] _).
  rewrite list_fmap_id. unfold withArcs, withNodes. cbn. by rewrite orb_false_r.
Qed.

(** X3. clone copies the nodes with their flags and the arcs in their
    order, with the same ends and weight. Without projection the labels are
    the same; projectInput gives both labels of an arc the value of its
    input label, projectOutput of its output label. The recorded gradient
    function gives all the values of deltas to the input. *)
Theorem clone_shape (g : Graph) (projection : Projection) (deltas : Graph) :
  g_nodes (clone g projection) = g_nodes g ∧
  numArcs (clone g projection) = numArcs g ∧
  g_arcs (clone g NONE) = g_arcs g ∧
  (∀ a, a < numArcs g →
     srcNode (clone g projection) a = srcNode g a ∧
     dstNode (clone g projection) a = dstNode g a ∧
     weight (clone g projection) a = weight g a ∧
     ilabel (projectInput g) a = ilabel g a ∧
     olabel (projectInput g) a = ilabel g a ∧
     ilabel (projectOutput g) a = olabel g a ∧
     olabel (projectOutput g) a = olabel g a) ∧
  invokeGradFunc (clone g projection) deltas = ([AddGrad 0 (weights deltas)], Ok tt).
Proof.
  unfold projectInput, projectOutput. rewrite !clone_eq. split_and!.
  - reflexivity.
  - unfold numArcs. cbn. by rewrite length_fmap.
  - cbn. rewrite (list_fmap_ext (projectArc NONE) id (g_arcs g)) by (by intros i [] _).
    by rewrite list_fmap_id.
  - intros a Ha.
    destruct (lookup_lt_is_Some_2 (g_arcs g) a Ha) as [x Hx].
    unfold srcNode, dstNode, weight, ilabel, olabel. cbn [g_arcs].
    assert (∀ q, (projectArc q <$> g_arcs g) !!! a = projectArc q x) as Hq.
    { intros q. apply list_lookup_total_correct. by rewrite list_lookup_fmap, Hx. }
    rewrite !Hq, (list_lookup_total_correct _ _ _ Hx).
    by destruct projection.
  - reflexivity.
Qed.

(** X4. A projection after a projection changes nothing: the clone of a
    projected graph has the arcs of the projected graph, whatever the
    second projection is; the clone of a clone without projection is the
    clone. *)
Theorem clone_clone (g : Graph) (p p' : Projection) :
  g_nodes (clone (clone g p) p') = g_nodes g ∧
  g_arcs (clone (clone g p) p') =
    g_arcs (clone g (match p with NONE => p' | _ => p end)) ∧
  g_arcs (projectInput (projectInput g)) = g_arcs (projectInput g) ∧
  g_arcs (projectOutput (projectOutput g)) = g_arcs (projectOutput g) ∧
  g_arcs (projectOutput (projectInput g)) = g_arcs (projectInput g) ∧
  g_arcs (projectInput (projectOutput g)) = g_arcs (projectOutput g).
Proof.
  assert (∀ q q', g_arcs (clone (clone g q) q') =
                  g_arcs (clone g (match q with NONE => q' | _ => q end))) as H.
  { intros q q'. rewrite !clone_eq. cbn [g_arcs]. rewrite <- list_fmap_compose.
    apply list_fmap_ext. intros i a _. by destruct q, q'. }
  unfold projectInput, projectOutput. rewrite !H. split_and!; try done.
  by rewrite !clone_eq.
Qed.

(** ** Well-formed graphs *)

Lemma nodeOffset_mono (graphs : list Graph) (i j : nat) :
  i ≤ j → j ≤ length graphs → nodeOffset graphs i ≤ nodeOffset graphs j.
Proof.
  induction 1 as [|j Hij IH]; intros Hj; [done |].
  rewrite nodeOffset_S by lia. etrans; [apply IH; lia | lia].
Qed.

Lemma nodeOffset_bound (graphs : list Graph) (i : nat) :
  i < length graphs →
  nodeOffset graphs i + numNodes (graphs !!! i) ≤ sum_list_with numNodes graphs.
Proof.
  intros Hi. rewrite <- nodeOffset_S, <- nodeOffset_all by done.
  apply nodeOffset_mono; lia.
Qed.

Lemma wellFormed_lookup (graphs : list Graph) (i : nat) :
  Forall wellFormed graphs → i < length graphs → wellFormed (graphs !!! i).
Proof.
  intros Hall Hi. destruct (lookup_lt_is_Some_2 graphs i Hi) as [x Hx].
  rewrite (list_lookup_total_correct _ _ _ Hx).
  rewrite Forall_forall in Hall. apply Hall. by eapply list_elem_of_lookup_2.
Qed.

Lemma shiftArc_wellFormed (g : Graph) (off total : nat) :
  wellFormed g → off + numNodes g ≤ total →
  Forall (λ a, arc_upNode a < total ∧ arc_downNode a < total)
    (shiftArc off <$> g_arcs g).
Proof.
  intros Hwf Hoff. apply Forall_fmap. unfold wellFormed in Hwf.
  eapply Forall_impl; [exact Hwf |]. intros a [Hu Hd]. simpl. lia.
Qed.

(** X5. concat and union of well-formed graphs are well formed: every arc
    of the result, the epsilon connectors of concat included, has its ends
    among the nodes of the result. *)
Theorem concat_union_wellFormed (epsilon : label) (graphs : list Graph) :
  Forall wellFormed graphs →
  wellFormed (concat epsilon graphs) ∧ wellFormed (union_ graphs).
Proof.
  intros Hall. split.
  - destruct graphs as [|g graphs]; [by apply Forall_nil |].
    set (gs := g :: graphs) in *.
    unfold wellFormed, numNodes. rewrite concat_eq by done. cbn [g_nodes g_arcs].
    rewrite concat_nodes_offset, nodeOffset_all by done.
    apply Forall_bind, Forall_forall. intros i [_ Hi]%elem_of_seq. rewrite Nat.add_0_l in Hi.
    simpl. unfold concat_arcs. apply Forall_app. split.
    + apply shiftArc_wellFormed; [by apply wellFormed_lookup |].
      by apply nodeOffset_bound.
    + destruct (0 <? i) eqn:Hpos; [| by apply Forall_nil].
      apply Nat.ltb_lt in Hpos.
      apply Forall_forall. intros arc (a & s & Ha & Hs & ->)%elem_of_connectors.
      apply elem_of_accept in Ha as [Ha _]. apply elem_of_start in Hs as [Hs _].
      pose proof (nodeOffset_bound gs (i - 1) ltac:(lia)).
      pose proof (nodeOffset_bound gs i Hi). cbn [arc_upNode arc_downNode].
      change (numNodes g + sum_list_with numNodes graphs)
        with (sum_list_with numNodes gs). lia.
  - unfold wellFormed, numNodes. rewrite union_eq. cbn [g_nodes g_arcs].
    rewrite bind_nodes_length, union_arcs_by_index.
    apply Forall_bind, Forall_forall. intros i [_ Hi]%elem_of_seq. rewrite Nat.add_0_l in Hi.
    simpl. apply shiftArc_wellFormed; [by apply wellFormed_lookup |].
    by apply nodeOffset_bound.
Qed.

Lemma scalar_wellFormed (w : Z) (calcGrad : bool) : wellFormed (scalar w calcGrad).
Proof. apply Forall_singleton. cbn. lia. Qed.

Lemma concat_union_wellFormed_witness :
  Forall wellFormed [scalar 2 true; scalar 3 true] ∧
  wellFormed (concat (-1)%Z [scalar 2 true; scalar 3 true]) ∧
  wellFormed (union_ [scalar 2 true; scalar 3 true]).
Proof.
  assert (Forall wellFormed [scalar 2 true; scalar 3 true]) as H
    by (repeat constructor; apply scalar_wellFormed).
  split; [exact H | exact (concat_union_wellFormed (-1)%Z _ H)].
Defined.

(** X6. closure and clone of a well-formed graph are well formed. *)
Theorem closure_clone_wellFormed (epsilon : label) (g : Graph) (projection : Projection) :
  wellFormed g →
  wellFormed (closure epsilon g) ∧ wellFormed (clone g projection).
Proof.
  intros Hwf. split.
  - unfold wellFormed, numNodes. rewrite closure_eq. cbn [g_nodes g_arcs length].
    rewrite length_replicate. rewrite !Forall_app. split_and!.
    + apply shiftArc_wellFormed; [done | lia].
    + apply Forall_fmap, Forall_forall. intros s [Hs _]%elem_of_start. cbn. lia.
    + apply Forall_fmap, Forall_forall. intros a [Ha _]%elem_of_accept. cbn. lia.
  - unfold wellFormed, numNodes. rewrite clone_eq. cbn [g_nodes g_arcs].
    apply Forall_fmap. eapply Forall_impl; [exact Hwf |]. by intros a.
Qed.

Lemma closure_clone_wellFormed_witness :
  wellFormed (scalar 2 true) ∧
  wellFormed (closure (-1)%Z (scalar 2 true)) ∧
  wellFormed (clone (scalar 2 true) INPUT).
Proof.
  split; [apply scalar_wellFormed |].
  exact (closure_clone_wellFormed (-1)%Z _ INPUT (scalar_wellFormed 2 true)).
Defined.

(** ** The arithmetic of the scalar combinators *)

Lemma fsub_fadd_fneg (x y : float32) : fsub x y = fadd x (fneg y).
Proof.
  destruct x as [sx|sx| |sx mx ex], y as [sy|sy| |sy my ey]; try reflexivity;
    try (by destruct sx, sy).
  all: unfold fsub, fadd, fneg, SFsub, SFadd, SFopp; cbv zeta.
  all: f_equal; by destruct sy.
Qed.

Lemma fadd_comm (x y : float32) : fadd x y = fadd y x.
Proof.
  destruct x as [sx|sx| |sx mx ex], y as [sy|sy| |sy my ey]; try reflexivity;
    try (by destruct sx, sy).
  all: unfold fadd, SFadd; cbv zeta.
  all: by rewrite Z.add_comm, (Z.min_comm ex ey).
Qed.

(** X7. subtract(g1, g2) is add(g1, negate(g2)): one throws exactly when
    the other does, and when they return, the results have the same nodes
    and the same arc, with the same weight. *)
Theorem subtract_add_negate (g1 g2 : Graph) :
  ((∃ msg, subtract g1 g2 = LogicError msg) ↔
   (∃ msg, (negate g2 ≫= add g1) = LogicError msg)) ∧
  (∀ r, subtract g1 g2 = Ok r →
     ∃ r', (negate g2 ≫= add g1) = Ok r' ∧
           g_nodes r' = g_nodes r ∧ g_arcs r' = g_arcs r ∧ item r' = item r).
Proof.
  rewrite subtract_eq, negate_eq.
  destruct (decide (numArcs g2 = 1)) as [H2|H2].
  - rewrite (bool_decide_eq_true_2 (numArcs g2 = 1)) by done.
    cbn [mbind result_bind]. rewrite add_eq.
    change (numArcs (scalarGraph negate_gradFunc [g2] (fneg (item g2)))) with 1.
    destruct (decide (numArcs g1 = 1)) as [H1|H1].
    + rewrite !bool_decide_eq_true_2 by done. split.
      * split; intros [msg H]; discriminate H.
      * intros r [= <-]. eexists. split; [reflexivity |].
        unfold scalarGraph, item, weight. cbn.
        by rewrite fsub_fadd_fneg.
    + rewrite !bool_decide_eq_false_2 by naive_solver. split.
      * split; intros _; eauto.
      * intros r H. discriminate H.
  - rewrite bool_decide_eq_false_2 by naive_solver.
    rewrite (bool_decide_eq_false_2 (numArcs g2 = 1)) by done.
    cbn [mbind result_bind]. split.
    + split; intros _; eauto.
    + intros r H. discriminate H.
Qed.

(** X8. add(g1, g2) and add(g2, g1) throw on the same inputs and otherwise
    return graphs with the same nodes and the same arc, with the same
    weight: the sum does not depend on the order. *)
Theorem add_commutes (g1 g2 : Graph) :
  ((∃ msg, add g1 g2 = LogicError msg) ↔ (∃ msg, add g2 g1 = LogicError msg)) ∧
  (∀ r, add g1 g2 = Ok r →
     ∃ r', add g2 g1 = Ok r' ∧
           g_nodes r' = g_nodes r ∧ g_arcs r' = g_arcs r ∧ item r' = item r).
Proof.
  rewrite !add_eq.
  destruct (decide (numArcs g1 = 1 ∧ numArcs g2 = 1)) as [H|H].
  - rewrite !bool_decide_eq_true_2 by naive_solver. split.
    + split; intros [msg Hm]; discriminate Hm.
    + intros r [= <-]. eexists. split; [reflexivity |].
      unfold scalarGraph, item, weight. cbn. by rewrite fadd_comm.
  - rewrite !bool_decide_eq_false_2 by naive_solver. split.
    + split; intros _; eauto.
    + intros r Hr. discriminate Hr.
Qed.

(** X9. intersect never takes a matcher for less sorted graphs than compose
    does: where compose takes the doubly sorted matcher so does intersect,
    and where intersect takes the unsorted matcher so does compose. *)
Theorem intersect_matcher_sorted
    (ilabelSorted olabelSorted : Graph → bool) (g1 g2 : Graph) :
  (compose_matcher ilabelSorted olabelSorted g1 g2 = DoublySortedMatcher g1 g2 →
   intersect_matcher ilabelSorted olabelSorted g1 g2 = DoublySortedMatcher g1 g2) ∧
  (intersect_matcher ilabelSorted olabelSorted g1 g2 = UnsortedMatcher g1 g2 →
   compose_matcher ilabelSorted olabelSorted g1 g2 = UnsortedMatcher g1 g2).
Proof.
  unfold compose_matcher, intersect_matcher.
  destruct (ilabelSorted g1), (olabelSorted g1), (ilabelSorted g2), (olabelSorted g2);
    cbn; split; intros H; done.
Qed.

(** ** remove: the arcs *)

Lemma explore_arcs_added (g : Graph) (il ol : label) (nodes : list Z) (curr : Z)
    (l : list nat) (q : list nat) (R : gset nat) (G : Graph)
    (q1 : list nat) (R1 : gset nat) (G1 : Graph) :
  forEach l (explore_arc g il ol nodes curr) (q, R, G) = (q1, R1, G1) →
  ∃ new, g_arcs G1 = g_arcs G ++ new ∧
    ∀ arc, arc ∈ new ↔
      ∃ a, a ∈ l ∧ label_match g il ol a = false ∧ arc = removedArc g nodes curr a.
Proof.
  revert q R G. induction l as [|a l IH]; intros q R G Hrun.
  - cbn in Hrun. injection Hrun as <- <- <-. exists []. split; [by rewrite app_nil_r |].
    intros arc. split; [by intros ?%not_elem_of_nil |].
    intros (a & Ha & _). by apply not_elem_of_nil in Ha.
  - rewrite forEach_cons in Hrun. unfold explore_arc at 2 in Hrun.
    destruct (label_match g il ol a) eqn:Hm.
    + assert (∃ q0 R0, forEach l (explore_arc g il ol nodes curr) (q0, R0, G) = (q1, R1, G1))
        as (q0 & R0 & Hrun') by (destruct (negb _); eauto).
      destruct (IH _ _ _ Hrun') as (new & Harcs & Hnew).
      exists new. split; [done |]. intros arc. rewrite Hnew. split.
      * intros (a' & Ha' & Hm' & ->). exists a'. split_and!; [by right | done | done].
      * intros (a' & [->|Ha']%elem_of_cons & Hm' & ->); [congruence |]. by exists a'.
    + destruct (IH _ _ _ Hrun) as (new & Harcs & Hnew).
      exists (removedArc g nodes curr a :: new). split.
      * rewrite Harcs. cbn. by rewrite <- app_assoc.
      * intros arc. rewrite elem_of_cons, Hnew. split.
        -- intros [->|(a' & Ha' & Hm' & ->)].
           ++ exists a. split_and!; [by left | done | done].
           ++ exists a'. split_and!; [by right | done | done].
        -- intros (a' & [->|Ha']%elem_of_cons & Hm' & ->); [by left |].
           right. by exists a'.
Qed.

(** The arcs that the while loop adds: those made for the arcs that do not
    match and leave a node taken out of the queue. *)
Lemma explore_added (g : Graph) (il ol : label) (nodes : list Z) (curr : Z)
    (fuel : nat) (q : list nat) (R : gset nat) (G : Graph)
    (q' : list nat) (R' : gset nat) (G' : Graph) :
  explore fuel g il ol nodes curr q R G = Some (q', R', G') →
  Z.to_nat curr < length (g_nodes G) →
  ∃ new, g_arcs G' = g_arcs G ++ new ∧
    ∀ arc, arc ∈ new ↔
      ∃ x a, (x ∈ q ∨ (x ∈ R' ∧ x ∉ R)) ∧ a < numArcs g ∧ srcNode g a = x ∧
             label_match g il ol a = false ∧ arc = removedArc g nodes curr a.
Proof.
  revert q R G. induction fuel as [|fuel IH]; intros q R G Hrun Hc.
  - destruct q as [|next q]; [| discriminate Hrun].
    injection Hrun as <- <- <-. exists []. split; [by rewrite app_nil_r |].
    intros arc. split; [by intros ?%not_elem_of_nil |].
    intros (x & a & [Hx|[Hx Hx']] & _); [by apply not_elem_of_nil in Hx | done].
  - destruct q as [|next q].
    { injection Hrun as <- <- <-. exists []. split; [by rewrite app_nil_r |].
      intros arc. split; [by intros ?%not_elem_of_nil |].
      intros (x & a & [Hx|[Hx Hx']] & _); [by apply not_elem_of_nil in Hx | done]. }
    cbn [explore] in Hrun.
    set (G1 := if isAccept g next then makeAccept G (Z.to_nat curr) else G) in Hrun.
    destruct (forEach (out g next) (explore_arc g il ol nodes curr) (q, R, G1))
      as [[q1 R1] G2] eqn:Harcs.
    destruct (explore_arcs_spec g il ol nodes curr ∅ _ _ _ _ _ _ _ Harcs)
      as ((newn & -> & -> & Hnewn) & _ & Hn & _).
    destruct (explore_arcs_added _ _ _ _ _ _ _ _ _ _ _ _ Harcs) as (new1 & Harcs1 & Hnew1).
    assert (g_arcs G1 = g_arcs G ∧ length (g_nodes G1) = length (g_nodes G)) as [HG1 HG1'].
    { unfold G1. destruct (isAccept g next); [| done].
      split; [done |]. cbn. apply length_alter. }
    assert (Z.to_nat curr < length (g_nodes G2)) as Hc2 by (rewrite Hn, HG1'; done).
    destruct (explore_spec _ _ _ _ _ _ _ _ _ _ _ _ Hrun Hc2) as (_ & Hsub & _).
    destruct (IH _ _ _ Hrun Hc2) as (new2 & Harcs2 & Hnew2).
    exists (new1 ++ new2). split.
    { rewrite Harcs2, Harcs1, HG1. by rewrite app_assoc. }
    intros arc. rewrite elem_of_app, Hnew1, Hnew2. split.
    + intros [(a & [Ha Hs]%elem_of_out & Hm & ->)|(x & a & Hx & Ha & Hs & Hm & ->)].
      * exists next, a. split_and!; try done. left. by left.
      * exists x, a. split_and!; try done.
        destruct Hx as [Hx|[Hx Hx']].
        -- apply elem_of_app in Hx as [Hx|Hx].
           ++ left. by right.
           ++ right. split; [set_solver |]. by apply (Hnewn x).
        -- right. split; [done | set_solver].
    + intros (x & a & Hx & Ha & Hs & Hm & ->).
      destruct (decide (x = next)) as [->|Hne].
      * left. exists a. split_and!; [by apply elem_of_out | done | done].
      * right. exists x, a. split_and!; try done.
        destruct Hx as [Hx|[Hx Hx']].
        -- left. apply elem_of_cons in Hx as [->|Hx]; [done |].
           apply elem_of_app. by left.
        -- destruct (decide (x ∈ newn)) as [Hxn|Hxn].
           ++ left. apply elem_of_app. by right.
           ++ right. split; [done | set_solver].
Qed.

(** A search from the kept node [k] alone: the nodes taken out of the queue
    are those reached from [k]. *)
Lemma explore_from_node (g : Graph) (il ol : label) (nodes : list Z) (curr : Z)
    (fuel k : nat) (G : Graph) (q' : list nat) (R' : gset nat) (G' : Graph) :
  explore fuel g il ol nodes curr [k] ({[k]} ∪ ∅) G = Some (q', R', G') →
  Z.to_nat curr < length (g_nodes G) →
  ∀ x, (x ∈ [k] ∨ (x ∈ R' ∧ x ∉ ({[k]} ∪ ∅ : gset nat))) ↔ reaches g il ol k x.
Proof.
  intros Hrun Hc.
  destruct (explore_spec _ _ _ _ _ _ _ _ _ _ _ _ Hrun Hc)
    as (_ & Hsub & Hsound & Hclosed & _).
  assert (∀ x, reaches g il ol k x ↔ x ∈ R') as Hreach.
  { intros x. split.
    - intros Hr. apply (reaches_closed g il ol R' k x); [| done | set_solver].
      intros y z Hy Hyz. apply (Hclosed y z); [| done].
      destruct (decide (y = k)) as [->|Hne]; [left; by left | right; set_solver].
    - intros Hx. destruct (Hsound x Hx) as [HxR|(y & Hy & Hyx)].
      + assert (x = k) as -> by set_solver. apply rtc_refl.
      + apply list_elem_of_singleton in Hy as ->. done. }
  intros x. rewrite Hreach. split.
  - intros [->%list_elem_of_singleton|[Hx _]]; [set_solver | done].
  - intros Hx. destruct (decide (x = k)) as [->|Hne]; [left; by left |].
    right. split; [done | set_solver].
Qed.

Lemma remove_step_arcs (g : Graph) (il ol : label) (k : nat) (G G' : Graph) :
  k < numNodes g →
  remove_inv g il ol k G →
  remove_arcs_inv g il ol k G →
  remove_step (S (numArcs g)) g il ol (nodesTable g il ol) k
    (Some ([], ∅, G)) = Some ([], ∅, G') →
  remove_arcs_inv g il ol (S k) G'.
Proof.
  intros Hk (Hlen & _) Harcs Hrun.
  unfold remove_step in Hrun. cbn [mbind option_bind] in Hrun.
  rewrite nodesTable_lookup in Hrun by done.
  destruct (kept g il ol k) eqn:Hkept.
  - assert ((0 <=? Z.of_nat (newIndex g il ol k))%Z = true) as Hpos
      by (apply Z.leb_le; lia).
    rewrite Hpos in Hrun. cbn [app] in Hrun.
    set (c := newIndex g il ol k) in *.
    pose proof (survivors_newIndex g il ol k Hk Hkept) as Hc. fold c in Hc.
    assert (Z.to_nat (Z.of_nat c) < length (g_nodes G)) as HcG.
    { rewrite Nat2Z.id, Hlen. by eapply lookup_lt_Some. }
    destruct (explore (S (numArcs g)) g il ol (nodesTable g il ol) (Z.of_nat c)
                [k] ({[k]} ∪ ∅) G) as [[[q' R'] G'']|] eqn:Hex; [| discriminate Hrun].
    cbn in Hrun. injection Hrun as _ <-.
    pose proof (explore_from_node _ _ _ _ _ _ _ _ _ _ _ Hex HcG) as Hreach.
    destruct (explore_added _ _ _ _ _ _ _ _ _ _ _ _ Hex HcG) as (new & Hnew & Hin).
    intros arc. rewrite Hnew, elem_of_app, (Harcs arc), Hin. split.
    + intros [(n & a & Hn & Hs & Ha & Hr & Hm & ->)|(x & a & Hx & Ha & Hsrc & Hm & ->)].
      * exists n, a. assert (n < S k) by lia. by split_and!.
      * exists k, a.
        assert (k ∈ survivors g il ol) by (by apply elem_of_survivors).
        assert (reaches g il ol k (srcNode g a)) by (rewrite Hsrc; by apply Hreach).
        split_and!; try done. lia.
    + intros (n & a & Hn & Hs & Ha & Hr & Hm & ->).
      destruct (decide (n = k)) as [->|Hne].
      * right. exists (srcNode g a), a.
        assert (srcNode g a ∈ [k] ∨ srcNode g a ∈ R' ∧ srcNode g a ∉ ({[k]} ∪ ∅ : gset nat))
          by (by apply Hreach).
        by split_and!.
      * left. exists n, a. assert (n < k) by lia. by split_and!.
  - assert ((0 <=? -1)%Z = false) as Hneg by done.
    rewrite Hneg in Hrun. cbn in Hrun. injection Hrun as <-.
    intros arc. rewrite (Harcs arc). split.
    + intros (n & a & Hn & Hrest). exists n, a. split; [lia | done].
    + intros (n & a & Hn & Hs & Hrest). exists n, a.
      split; [| by split].
      apply elem_of_survivors in Hs as [_ Hs].
      assert (n ≠ k) by congruence. lia.
Qed.

Lemma remove_loop_arcs (g : Graph) (il ol : label) (k : nat) (G0 G : Graph) :
  k ≤ numNodes g →
  remove_inv g il ol 0 G0 →
  g_arcs G0 = [] →
  forRange k (remove_step (S (numArcs g)) g il ol (nodesTable g il ol))
    (Some ([], ∅, G0)) = Some ([], ∅, G) →
  remove_arcs_inv g il ol k G.
Proof.
  intros Hk H0 Hnil. revert G. induction k as [|k IH]; intros G Hrun.
  - cbn in Hrun. injection Hrun as <-. intros arc. rewrite Hnil. split.
    + by intros ?%not_elem_of_nil.
    + intros (n & a & Hn & _). lia.
  - destruct (remove_loop_inv g il ol k G0 ltac:(lia) H0) as (Gk & Hk' & Hinv).
    rewrite forRange_S, Hk' in Hrun.
    apply (remove_step_arcs g il ol k Gk G); [lia | done | apply IH; [lia | done] | done].
Qed.

Lemma explore_arcs_exact (g : Graph) (il ol : label) (nodes : list Z) (curr : Z)
    (l : list nat) (q : list nat) (R : gset nat) (G : Graph)
    (q1 : list nat) (R1 : gset nat) (G1 : Graph) :
  forEach l (explore_arc g il ol nodes curr) (q, R, G) = (q1, R1, G1) →
  ∃ new, q1 = q ++ new ∧ R1 = list_to_set new ∪ R ∧ NoDup new ∧
    (∀ d, d ∈ new → d ∉ R) ∧
    g_arcs G1 = g_arcs G ++
      (removedArc g nodes curr <$> filter (λ a, label_match g il ol a = false) l).
Proof.
  revert q R G. induction l as [|a l IH]; intros q R G Hrun.
  - cbn in Hrun. injection Hrun as <- <- <-. exists [].
    rewrite !app_nil_r. split_and!; [done | set_solver | constructor | set_solver | done].
  - rewrite forEach_cons in Hrun. unfold explore_arc at 2 in Hrun.
    rewrite filter_cons.
    destruct (label_match g il ol a) eqn:Hm.
    + rewrite decide_False by done.
      destruct (bool_decide (dstNode g a ∈ R)) eqn:Hin; cbn [negb] in Hrun.
      * destruct (IH _ _ _ Hrun) as (new & -> & -> & Hnd & Hnew & Harcs).
        by exists new.
      * apply bool_decide_eq_false in Hin.
        destruct (IH _ _ _ Hrun) as (new & -> & -> & Hnd & Hnew & Harcs).
        exists (dstNode g a :: new). split_and!.
        -- by rewrite <- app_assoc.
        -- set_solver.
        -- apply NoDup_cons. split; [| done]. intros Hd. apply (Hnew _ Hd). set_solver.
        -- intros d [->|Hd]%elem_of_cons; [done |]. specialize (Hnew d Hd). set_solver.
        -- done.
    + rewrite decide_True by done.
      destruct (IH _ _ _ Hrun) as (new & -> & -> & Hnd & Hnew & Harcs).
      exists new. split_and!; [done | done | done | done |].
      rewrite Harcs. cbn. by rewrite <- app_assoc.
Qed.

(** The list of the arcs that the while loop adds: the nodes that it takes
    out of the queue are those of the queue, then those that enter
    [reachable], each once. *)
Lemma explore_exact (g : Graph) (il ol : label) (nodes : list Z) (curr : Z)
    (fuel : nat) (q : list nat) (R : gset nat) (G : Graph)
    (q' : list nat) (R' : gset nat) (G' : Graph) :
  explore fuel g il ol nodes curr q R G = Some (q', R', G') →
  Z.to_nat curr < length (g_nodes G) →
  ∃ added, NoDup added ∧ (∀ x, x ∈ added ↔ x ∈ R' ∧ x ∉ R) ∧
    g_arcs G' = g_arcs G ++
      ((q ++ added) ≫= (λ x,
         removedArc g nodes curr <$> filter (λ a, label_match g il ol a = false) (out g x))).
Proof.
  revert q R G. induction fuel as [|fuel IH]; intros q R G Hrun Hc.
  - destruct q as [|next q]; [| discriminate Hrun].
    injection Hrun as <- <- <-. exists []. rewrite app_nil_r.
    split_and!; [constructor | set_solver | done].
  - destruct q as [|next q].
    { injection Hrun as <- <- <-. exists []. rewrite app_nil_r.
      split_and!; [constructor | set_solver | done]. }
    cbn [explore] in Hrun.
    set (G1 := if isAccept g next then makeAccept G (Z.to_nat curr) else G) in Hrun.
    destruct (forEach (out g next) (explore_arc g il ol nodes curr) (q, R, G1))
      as [[q1 R1] G2] eqn:Harcs.
    destruct (explore_arcs_spec g il ol nodes curr ∅ _ _ _ _ _ _ _ Harcs)
      as (_ & _ & Hn & _).
    destruct (explore_arcs_exact _ _ _ _ _ _ _ _ _ _ _ _ Harcs)
      as (newn & -> & -> & Hnd & Hnew & Harcs1).
    assert (g_arcs G1 = g_arcs G ∧ length (g_nodes G1) = length (g_nodes G)) as [HG1 HG1'].
    { unfold G1. destruct (isAccept g next); [| done].
      split; [done |]. cbn. apply length_alter. }
    assert (Z.to_nat curr < length (g_nodes G2)) as Hc2 by (rewrite Hn, HG1'; done).
    destruct (explore_spec _ _ _ _ _ _ _ _ _ _ _ _ Hrun Hc2) as (_ & Hsub & _).
    destruct (IH _ _ _ Hrun Hc2) as (added & Hnd' & Hadded & Harcs2).
    exists (newn ++ added). split_and!.
    + apply NoDup_app. split_and!; [done | | done].
      intros x Hx [_ Hx']%Hadded. set_solver.
    + intros x. rewrite elem_of_app, Hadded. split.
      * intros [Hx|[Hx Hx']]; [| set_solver].
        split; [set_solver | by apply Hnew].
      * intros [Hx Hx']. destruct (decide (x ∈ newn)); [by left |].
        right. split; [done | set_solver].
    + rewrite Harcs2, Harcs1, HG1. cbn [app]. rewrite bind_cons.
      by rewrite <- !app_assoc.
Qed.

Lemma bind_ext_in {A B} (f h : A → list B) (l : list A) :
  (∀ x, x ∈ l → f x = h x) → l ≫= f = l ≫= h.
Proof.
  induction l as [|x l IH]; intros H; [done |].
  rewrite !bind_cons, (H x) by (by left). rewrite IH; [done |].
  intros y Hy. apply H. by right.
Qed.

Lemma remove_step_exact (g : Graph) (il ol : label) (k : nat) (G G' : Graph) :
  k < numNodes g →
  remove_inv g il ol k G →
  remove_arcs_exact g il ol k G →
  remove_step (S (numArcs g)) g il ol (nodesTable g il ol) k
    (Some ([], ∅, G)) = Some ([], ∅, G') →
  remove_arcs_exact g il ol (S k) G'.
Proof.
  intros Hk (Hlen & _) (order & Hord & Harcs) Hrun.
  unfold remove_step in Hrun. cbn [mbind option_bind] in Hrun.
  rewrite nodesTable_lookup in Hrun by done.
  unfold remove_arcs_exact. rewrite filter_seq_S.
  destruct (kept g il ol k) eqn:Hkept.
  - assert ((0 <=? Z.of_nat (newIndex g il ol k))%Z = true) as Hpos
      by (apply Z.leb_le; lia).
    rewrite Hpos in Hrun. cbn [app] in Hrun.
    set (c := newIndex g il ol k) in *.
    pose proof (survivors_newIndex g il ol k Hk Hkept) as Hc. fold c in Hc.
    assert (Z.to_nat (Z.of_nat c) < length (g_nodes G)) as HcG.
    { rewrite Nat2Z.id, Hlen. by eapply lookup_lt_Some. }
    destruct (explore (S (numArcs g)) g il ol (nodesTable g il ol) (Z.of_nat c)
                [k] ({[k]} ∪ ∅) G) as [[[q' R'] G'']|] eqn:Hex; [| discriminate Hrun].
    cbn in Hrun. injection Hrun as _ <-.
    pose proof (explore_from_node _ _ _ _ _ _ _ _ _ _ _ Hex HcG) as Hreach.
    destruct (explore_exact _ _ _ _ _ _ _ _ _ _ _ _ Hex HcG) as (added & Hnd & Hadded & Hnew).
    exists (λ n, if decide (n = k) then k :: added else order n).
    rewrite decide_True by done. split.
    + intros n Hn Hkn. destruct (decide (n = k)) as [->|Hne].
      * split_and!; [done | |].
        -- apply NoDup_cons. split; [| done]. intros [_ Hx]%Hadded. set_solver.
        -- intros x. rewrite <- Hreach, elem_of_cons, list_elem_of_singleton, Hadded.
           done.
      * apply Hord; [lia | done].
    + rewrite Hnew, Harcs, !bind_app. f_equal.
      * apply bind_ext_in. intros n [_ Hn%elem_of_seq]%list_elem_of_filter.
        rewrite decide_False by lia. done.
      * rewrite !bind_cons. cbn [mbind list_bind]. rewrite decide_True by done.
        fold c. by rewrite !app_nil_r.
  - assert ((0 <=? -1)%Z = false) as Hneg by done.
    rewrite Hneg in Hrun. cbn in Hrun. injection Hrun as <-.
    rewrite decide_False by congruence. rewrite app_nil_r.
    exists order. split; [| done].
    intros n Hn Hkn. apply Hord; [| done].
    assert (n ≠ k) by congruence. lia.
Qed.

Lemma remove_loop_exact (g : Graph) (il ol : label) (k : nat) (G0 G : Graph) :
  k ≤ numNodes g →
  remove_inv g il ol 0 G0 →
  g_arcs G0 = [] →
  forRange k (remove_step (S (numArcs g)) g il ol (nodesTable g il ol))
    (Some ([], ∅, G0)) = Some ([], ∅, G) →
  remove_arcs_exact g il ol k G.
Proof.
  intros Hk H0 Hnil. revert G. induction k as [|k IH]; intros G Hrun.
  - cbn in Hrun. injection Hrun as <-. exists (λ _, []). split; [| done].
    intros n Hn. lia.
  - destruct (remove_loop_inv g il ol k G0 ltac:(lia) H0) as (Gk & Hk' & Hinv).
    rewrite forRange_S, Hk' in Hrun.
    apply (remove_step_exact g il ol k Gk G); [lia | done | apply IH; [lia | done] | done].
Qed.

(** X10. For a well-formed graph [g], the graph that remove returns is well
    formed, and the list of its arcs is this one. The kept nodes [n] are
    taken in increasing order. For each, the nodes [x] reached from [n] along
    arcs that have both labels to remove are taken once each, [n] first,
    then in the order [order n] of the search, which is not stated further.
    For each of them, the arcs [a] of [g] that leave [x] and do not have
    both labels are taken in increasing order, and each gives one arc, from
    the node made for [n] to the node made for the destination of [a], which
    is kept, with the labels of [a] and weight 0. So an arc belongs to the
    result exactly when it is made in this way for some [n] and [a]. *)
Theorem remove_arcs (g : Graph) (il ol : label) :
  wellFormed g →
  ∃ r (order : nat → list nat), remove g il ol = Some r ∧
    wellFormed r ∧
    (∀ n, n ∈ survivors g il ol →
       head (order n) = Some n ∧ NoDup (order n) ∧
       ∀ x, x ∈ order n ↔ reaches g il ol n x) ∧
    g_arcs r =
      survivors g il ol ≫= (λ n, order n ≫= removedArcs g il ol n) ∧
    (∀ arc, arc ∈ g_arcs r ↔
       ∃ n a, n ∈ survivors g il ol ∧ a < numArcs g ∧
              reaches g il ol n (srcNode g a) ∧
              ¬ (ilabel g a = il ∧ olabel g a = ol) ∧
              arc = mkArc (newIndex g il ol n) (newIndex g il ol (dstNode g a))
                      (ilabel g a) (olabel g a) fzero) ∧
    (∀ a, a < numArcs g → ¬ (ilabel g a = il ∧ olabel g a = ol) →
       survivors g il ol !! newIndex g il ol (dstNode g a) = Some (dstNode g a)) ∧
    (∀ n, n ∈ survivors g il ol → survivors g il ol !! newIndex g il ol n = Some n).
Proof.
  intros Hwf.
  assert (∀ a, a < numArcs g → dstNode g a < numNodes g) as Hdst.
  { intros a Ha. unfold wellFormed in Hwf. rewrite Forall_lookup in Hwf.
    destruct (lookup_lt_is_Some_2 (g_arcs g) a Ha) as [x Hx].
    unfold dstNode. rewrite (list_lookup_total_correct _ _ _ Hx).
    by destruct (Hwf a x Hx). }
  destruct (remove_spec g il ol) as (r & Hr & Hinv).
  assert (remove_arcs_inv g il ol (numNodes g) r ∧
          remove_arcs_exact g il ol (numNodes g) r) as [Harcs Hexact].
  { unfold remove, remove_fuel in Hr. rewrite remove_nodes_eq in Hr by done.
    destruct (forRange (numNodes g) _ _) as [[[q R] G]|] eqn:Hrun; [| discriminate Hr].
    cbn in Hr. injection Hr as Heq. subst G.
    destruct (remove_loop_inv g il ol (numNodes g) _ ltac:(done) (remove_inv_0 g il ol))
      as (r' & Hrun' & _).
    rewrite Hrun in Hrun'. injection Hrun' as Hq HR Hr'. subst q R r'.
    split.
    - by apply (remove_loop_arcs g il ol (numNodes g) _ r (le_n _) (remove_inv_0 g il ol)).
    - by apply (remove_loop_exact g il ol (numNodes g) _ r (le_n _) (remove_inv_0 g il ol)). }
  assert (∀ arc, arc ∈ g_arcs r ↔
       ∃ n a, n ∈ survivors g il ol ∧ a < numArcs g ∧
              reaches g il ol n (srcNode g a) ∧
              ¬ (ilabel g a = il ∧ olabel g a = ol) ∧
              arc = mkArc (newIndex g il ol n) (newIndex g il ol (dstNode g a))
                      (ilabel g a) (olabel g a) fzero) as Hchar.
  { intros arc. rewrite (Harcs arc). split.
    - intros (n & a & Hn & Hs & Ha & Hreach & Hm & ->). exists n, a.
      split_and!; try done; [by apply label_match_false |].
      unfold removedArc.
      destruct (remove_arc_endpoints g il ol a Ha (Hdst a Ha) Hm) as [-> _].
      by rewrite !Nat2Z.id.
    - intros (n & a & Hs & Ha & Hreach & Hm & ->). exists n, a.
      apply label_match_false in Hm.
      split_and!; try done; [by apply elem_of_survivors in Hs as [? _] |].
      unfold removedArc.
      destruct (remove_arc_endpoints g il ol a Ha (Hdst a Ha) Hm) as [-> _].
      by rewrite !Nat2Z.id. }
  destruct Hexact as (order & Hord & Hlist).
  exists r, order. split_and!; [done | | | | done | |].
  - destruct Hinv as (Hlen & _).
    unfold wellFormed, numNodes. rewrite Hlen. apply Forall_forall.
    intros arc (n & a & Hs & Ha & _ & Hm & ->)%Hchar. cbn. split.
    + apply elem_of_survivors in Hs as [Hn Hk].
      eapply lookup_lt_Some. by apply survivors_newIndex.
    + apply label_match_false in Hm.
      eapply lookup_lt_Some.
      exact (proj2 (remove_arc_endpoints g il ol a Ha (Hdst a Ha) Hm)).
  - intros n [Hn Hk]%elem_of_survivors. by apply Hord.
  - rewrite Hlist. unfold survivors. apply list_bind_ext; [| done].
    intros n. apply list_bind_ext; [| done].
    intros x. unfold removedArcs. apply list_fmap_ext.
    intros i a [Hm [Ha _]%elem_of_out]%list_elem_of_lookup_2%list_elem_of_filter.
    unfold removedArc.
    destruct (remove_arc_endpoints g il ol a Ha (Hdst a Ha) Hm) as [-> _].
    by rewrite !Nat2Z.id.
  - intros a Ha Hm. apply label_match_false in Hm.
    exact (proj2 (remove_arc_endpoints g il ol a Ha (Hdst a Ha) Hm)).
  - intros n [Hn Hk]%elem_of_survivors. by apply survivors_newIndex.
Qed.

Lemma chain_wellFormed : wellFormed chain.
Proof.
  unfold wellFormed. apply Forall_forall. intros a Ha.
  assert (numNodes chain = 4) as -> by reflexivity.
  change (g_arcs chain) with
    [mkArc 0 1 (-1)%Z (-1)%Z (float_of_Z 1); mkArc 1 1 (-1)%Z (-1)%Z (float_of_Z 1);
     mkArc 1 2 7%Z 7%Z (float_of_Z 1); mkArc 2 3 (-1)%Z (-1)%Z (float_of_Z 1);
     mkArc 0 2 8%Z 8%Z (float_of_Z 5)] in Ha.
  repeat (apply elem_of_cons in Ha as [->|Ha]; [cbn; lia |]).
  by apply not_elem_of_nil in Ha.
Qed.

Lemma remove_arcs_witness :
  wellFormed chain ∧
  ∃ r, remove chain (-1)%Z (-1)%Z = Some r ∧ wellFormed r.
Proof.
  split; [exact chain_wellFormed |].
  destruct (remove_arcs chain (-1)%Z (-1)%Z chain_wellFormed)
    as (r & order & Hr & Hwf & _).
  exists r. split; [exact Hr | exact Hwf].
Defined.

(** ** The gradient functions of the scalar combinators *)

(** X11. For a deltas graph with exactly one arc, of value [d]: the gradient
    function of negate gives [-d] to its input; the one of add gives [d] to
    both inputs; the one of subtract gives [d] to the first input and, when
    the second asks for a gradient, [-d] to the second. None throws. *)
Theorem scalar_backward_values (inputs : list Graph) (deltas : Graph) :
  numArcs deltas = 1 →
  negate_grad inputs deltas = ([AddGrad 0 [fneg (item deltas)]], Ok tt) ∧
  add_grad inputs deltas =
    ([AddGrad 0 [item deltas]; AddGrad 1 [item deltas]], Ok tt) ∧
  subtract_grad inputs deltas =
    (AddGrad 0 [item deltas] ::
     (if calcGrad (inputs !!! 1) then [AddGrad 1 [fneg (item deltas)]] else []),
     Ok tt).
Proof.
  intros H1.
  assert (weights deltas = [item deltas]) as Hw.
  { unfold weights, item, weight, numArcs in *.
    destruct (g_arcs deltas) as [|a [|b l]]; try discriminate H1. reflexivity. }
  unfold negate_grad, add_grad, subtract_grad.
  rewrite negate_eq, bool_decide_eq_true_2, Hw by done.
  split_and!; try reflexivity.
  by destruct (calcGrad (inputs !!! 1)).
Qed.

Lemma scalar_backward_values_witness :
  numArcs (scalar 5 false) = 1 ∧
  subtract_grad [scalar 2 true; scalar 3 true] (scalar 5 false) =
    ([AddGrad 0 [float_of_Z 5]; AddGrad 1 [float_of_Z (-5)]], Ok tt).
Proof.
  split; [reflexivity |].
  exact (proj2 (proj2 (scalar_backward_values
           [scalar 2 true; scalar 3 true] (scalar 5 false) eq_refl))).
Defined.

(** X12. For a deltas graph that does not have exactly one arc, the gradient
    function of negate throws the logic error of negate before any call of
    addGrad, whatever its inputs are, and the only call of addGrad that the
    gradient function of subtract makes is the one on its first input, with
    the deltas: it makes none on its second input, whether that input asks
    for a gradient (negate(deltas) is evaluated before the call, and throws)
    or not (the call is skipped). This is about the calls that are made, not
    about what addGrad does with them. *)
Theorem scalar_backward_throws (inputs : list Graph) (deltas : Graph) :
  numArcs deltas ≠ 1 →
  negate_grad inputs deltas =
    ([], LogicError "[gtn::negate] input must have only one arc") ∧
  bw_calls (subtract_grad inputs deltas) = [AddGrad 0 (weights deltas)] ∧
  (∀ values, AddGrad 1 values ∉ bw_calls (subtract_grad inputs deltas)).
Proof.
  intros H1.
  assert (bw_calls (subtract_grad inputs deltas) = [AddGrad 0 (weights deltas)]) as Hcalls.
  { unfold subtract_grad. destruct (calcGrad (inputs !!! 1)); [| reflexivity].
    by rewrite negate_eq, bool_decide_eq_false_2 by done. }
  split_and!; [| done |].
  - unfold negate_grad. by rewrite negate_eq, bool_decide_eq_false_2 by done.
  - intros values. rewrite Hcalls. intros Hin%list_elem_of_singleton. discriminate Hin.
Qed.

Lemma scalar_backward_throws_witness :
  numArcs (deltasOf [1; 2]%Z) ≠ 1 ∧
  negate_grad [scalar 2 true] (deltasOf [1; 2]%Z) =
    ([], LogicError "[gtn::negate] input must have only one arc").
Proof.
  assert (numArcs (deltasOf [1; 2]%Z) ≠ 1) as H by (cbn; lia).
  split; [exact H |].
  exact (proj1 (scalar_backward_throws [scalar 2 true] (deltasOf [1; 2]%Z) H)).
Defined.

(** ** concat and union of one graph *)

Lemma shiftArc_0 (l : list Arc) : shiftArc 0 <$> l = l.
Proof.
  rewrite (list_fmap_ext (shiftArc 0) id l) by (by intros i [] _).
  apply list_fmap_id.
Qed.

(** X13. concat and union of one graph are copies of the graph: the same
    nodes with the same flags and the same arcs. concat of two graphs
    differs from their union by the flags of the nodes and by the
    connectors, which come after the arcs that both have. *)
Theorem concat_union_single (epsilon : label) (g g1 g2 : Graph) :
  g_nodes (concat epsilon [g]) = g_nodes g ∧
  g_arcs (concat epsilon [g]) = g_arcs g ∧
  g_nodes (union_ [g]) = g_nodes g ∧
  g_arcs (union_ [g]) = g_arcs g ∧
  g_arcs (concat epsilon [g1; g2]) =
    g_arcs (union_ [g1; g2]) ++ connectors epsilon g1 g2 0 (numNodes g1).
Proof.
  assert ([g] ≠ []) as Hne by done.
  assert ([g1; g2] ≠ []) as Hne2 by done.
  rewrite !concat_eq, !union_eq by done.
  unfold concat_nodes, concat_arcs, nodeOffset. cbn.
  rewrite ?app_nil_r, !shiftArc_0, ?Nat.add_0_r. split_and!; try done.
  - rewrite (list_fmap_ext _ id (g_nodes g)) by (by intros i [] _).
    apply list_fmap_id.
  - by rewrite <- app_assoc.
Qed.

(** ** minimizeAcyclicFST: the sets *)

Lemma elem_of_set_insert (x y : nat) (s : list nat) :
  y ∈ set_insert x s ↔ y = x ∨ y ∈ s.
Proof.
  induction s as [|z s IH]; cbn [set_insert].
  - rewrite list_elem_of_singleton. split; [by left | intros [H|H]; [done |]].
    by apply not_elem_of_nil in H.
  - destruct (x <? z); [apply elem_of_cons |].
    destruct (Nat.eqb_spec x z) as [->|Hne].
    + rewrite elem_of_cons. naive_solver.
    + rewrite !elem_of_cons, IH. naive_solver.
Qed.

Lemma elem_of_addPredecessors (g : Graph) (n p : nat) (predecessors : list nat) :
  p ∈ addPredecessors g n predecessors ↔ p ∈ predecessors ∨ predecessorOf g n p.
Proof.
  unfold addPredecessors, predecessorOf.
  assert (∀ l acc, p ∈ forEach l (λ in_arc predecessors,
                         set_insert (srcNode g in_arc) predecessors) acc ↔
                   p ∈ acc ∨ ∃ a, a ∈ l ∧ srcNode g a = p) as H.
  { induction l as [|a l IH]; intros acc.
    - cbn. split; [by left | intros [H|(a & Ha & _)]; [done |]].
      by apply not_elem_of_nil in Ha.
    - rewrite forEach_cons, IH, elem_of_set_insert. split.
      + intros [[->|H]|(a' & Ha' & Hs)].
        * right. exists a. split; [by left | done].
        * by left.
        * right. exists a'. split; [by right | done].
      + intros [H|(a' & [->|Ha']%elem_of_cons & Hs)].
        * left. by right.
        * left. by left.
        * right. by exists a'. }
  rewrite H. split.
  - intros [Hp|(a & [Ha Hd]%elem_of_in_ & Hs)]; [by left | right; by exists a].
  - intros [Hp|(a & Ha & Hd & Hs)]; [by left | right].
    exists a. split; [by apply elem_of_in_ | done].
Qed.

Lemma std_count_pos (x : nat) (l : list nat) :
  (0 <? std_count x l) = true ↔ x ∈ l.
Proof.
  unfold std_count. rewrite Nat.ltb_lt. split.
  - intros H. destruct (filter (λ y, y = x) l) as [|y l'] eqn:Hf; [cbn in H; lia |].
    assert (y ∈ filter (λ y, y = x) l) as Hy by (rewrite Hf; by left).
    apply list_elem_of_filter in Hy as [-> Hy]. done.
  - intros H. assert (x ∈ filter (λ y, y = x) l) as Hx by (by apply list_elem_of_filter).
    destruct (filter (λ y, y = x) l); [by apply not_elem_of_nil in Hx | cbn; lia].
Qed.

Lemma candidate_test (g : Graph) (processed : list nat) (p : nat) :
  forallb (λ a, 0 <? std_count (dstNode g a) processed) (out g p) = true ↔
  candidate g processed p.
Proof.
  rewrite forallb_forall. unfold candidate. split.
  - intros H a Ha Hs. apply std_count_pos, H, list_elem_of_In, elem_of_out. done.
  - intros H a [Ha Hs]%list_elem_of_In%elem_of_out. by apply std_count_pos, H.
Qed.

Lemma elem_of_join_alter_app (cs : list (list nat)) (i p n : nat) (x : list nat) :
  cs !! i = Some x →
  n ∈ mjoin (alter (λ subset, subset ++ [p]) i cs) ↔ n ∈ mjoin cs ∨ n = p.
Proof.
  revert i. induction cs as [|c cs IH]; intros i Hi; [done |].
  destruct i as [|i]; cbn.
  - rewrite !elem_of_app, list_elem_of_singleton. naive_solver.
  - rewrite !elem_of_app, (IH i Hi). naive_solver.
Qed.

Lemma minimize_candidate_spec (g : Graph) (oldToNew : list Z) (processed : list nat)
    (p : nat) (cs : list (list nat)) (n : nat) :
  n ∈ mjoin (minimize_candidate g oldToNew processed p cs) ↔
  n ∈ mjoin cs ∨ (n = p ∧ candidate g processed p).
Proof.
  unfold minimize_candidate.
  destruct (forallb _ (out g p)) eqn:Hc.
  - apply candidate_test in Hc.
    destruct (list_find _ cs) as [[i x]|] eqn:Hfind.
    + apply list_find_Some in Hfind as (Hi & _).
      rewrite (elem_of_join_alter_app cs i p n x Hi). naive_solver.
    + rewrite join_app, elem_of_app. cbn. rewrite ?app_nil_r, list_elem_of_singleton.
      naive_solver.
  - split; [by left | intros [H|[_ H]]; [done |]].
    apply candidate_test in H. congruence.
Qed.

Lemma minimize_candidates_spec (g : Graph) (oldToNew : list Z) (processed : list nat)
    (l : list nat) (n : nat) :
  n ∈ mjoin (forEach l (minimize_candidate g oldToNew processed) []) ↔
  n ∈ l ∧ candidate g processed n.
Proof.
  enough (∀ acc, n ∈ mjoin (forEach l (minimize_candidate g oldToNew processed) acc) ↔
                 n ∈ mjoin acc ∨ (n ∈ l ∧ candidate g processed n)) as H.
  { rewrite H. cbn. split; [intros [H'|H']; [by apply not_elem_of_nil in H' | done] | by right]. }
  induction l as [|p l IH]; intros acc.
  - cbn. split; [by left | intros [H|[H _]]; [done |]]. by apply not_elem_of_nil in H.
  - rewrite forEach_cons, IH, minimize_candidate_spec, elem_of_cons. naive_solver.
Qed.

Lemma join_alter_app_perm (cs : list (list nat)) (i p : nat) (x : list nat) :
  cs !! i = Some x →
  mjoin (alter (λ subset, subset ++ [p]) i cs) ≡ₚ mjoin cs ++ [p].
Proof.
  revert i. induction cs as [|c cs IH]; intros i Hi; [done |].
  destruct i as [|i]; cbn.
  - rewrite <- !app_assoc. f_equiv. apply Permutation_app_comm.
  - rewrite (IH i Hi). by rewrite app_assoc.
Qed.

Lemma minimize_candidates_perm (g : Graph) (oldToNew : list Z) (processed : list nat)
    (l : list nat) (acc : list (list nat)) :
  Forall (λ c, c ≠ []) acc →
  let cs := forEach l (minimize_candidate g oldToNew processed) acc in
  Forall (λ c, c ≠ []) cs ∧
  mjoin cs ≡ₚ
    mjoin acc ++
    filter (λ p, forallb (λ a, 0 <? std_count (dstNode g a) processed) (out g p) = true) l.
Proof.
  revert acc. induction l as [|p l IH]; intros acc Hacc.
  - cbn. by rewrite app_nil_r.
  - cbn zeta. rewrite forEach_cons, filter_cons.
    assert (Forall (λ c, c ≠ []) (minimize_candidate g oldToNew processed p acc) ∧
            mjoin (minimize_candidate g oldToNew processed p acc) ≡ₚ
              mjoin acc ++
              (if decide (forallb (λ a, 0 <? std_count (dstNode g a) processed)
                            (out g p) = true) then [p] else [])) as [Hne Hperm].
    { unfold minimize_candidate.
      destruct (forallb _ (out g p)) eqn:Hc.
      - rewrite decide_True by done.
        destruct (list_find _ acc) as [[i x]|] eqn:Hfind.
        + apply list_find_Some in Hfind as (Hi & _). split.
          * apply Forall_forall. intros c Hc'.
            apply list_elem_of_lookup in Hc' as [j Hj].
            destruct (decide (i = j)) as [->|Hij].
            -- rewrite list_lookup_alter_eq, Hi in Hj. injection Hj as <-.
               by destruct x.
            -- rewrite list_lookup_alter_ne in Hj by done.
               rewrite Forall_forall in Hacc. apply Hacc.
               by eapply list_elem_of_lookup_2.
          * by eapply join_alter_app_perm.
        + split.
          * apply Forall_app. split; [done |]. by apply Forall_singleton.
          * rewrite join_app. cbn. by rewrite ?app_nil_r.
      - rewrite decide_False by done. by rewrite app_nil_r. }
    destruct (IH _ Hne) as [Hne' Hperm']. split; [done |].
    rewrite Hperm', Hperm, <- app_assoc. f_equiv.
    by destruct (decide _).
Qed.

(** ** minimizeAcyclicFST: the rounds *)

Lemma minimize_graph_inv_addNode (g G : Graph) (st ac : bool) :
  minimize_graph_inv g G → minimize_graph_inv g (addNode G st ac).2.
Proof. by intros (? & ? & ?). Qed.

Lemma minimize_graph_inv_addArc (g G : Graph) (up down a : nat) :
  a < numArcs g →
  minimize_graph_inv g G →
  minimize_graph_inv g (addArc G up down (ilabel g a) (olabel g a) (weight g a)).2.
Proof.
  intros Ha (Hf & Hi & Harcs). unfold minimize_graph_inv. cbn. split_and!; [done | done |].
  apply Forall_app. split; [done |]. apply Forall_singleton. by exists a.
Qed.

Lemma minimize_arcs_inv (g : Graph) (l : list nat) (mergedNode : nat)
    (oldToNew : list Z) (G : Graph) :
  (∀ a, a ∈ l → a < numArcs g) →
  minimize_graph_inv g G →
  minimize_graph_inv g
    (forEach l (λ a graph,
       (addArc graph mergedNode (Z.to_nat (oldToNew !!! dstNode g a))
          (ilabel g a) (olabel g a) (weight g a)).2) G).
Proof.
  revert G. induction l as [|a l IH]; intros G Hl HG; [done |].
  rewrite forEach_cons. apply IH.
  - intros a' Ha'. apply Hl. by right.
  - apply minimize_graph_inv_addArc; [| done]. apply Hl. by left.
Qed.

Lemma minimize_merge_spec (g : Graph) (subset : list nat) (s : MinState) :
  let s' := merged g subset s in
  ms_oldProcessed s' = ms_oldProcessed s ++ subset ∧
  (∀ p, p ∈ ms_predecessors s' ↔
        p ∈ ms_predecessors s ∨ ∃ n, n ∈ subset ∧ predecessorOf g n p) ∧
  (minimize_graph_inv g (ms_graph s) → minimize_graph_inv g (ms_graph s')).
Proof.
  unfold merged. cbn [addNode].
  set (G1 := mkGraph _ _ _ _ _ _).
  set (mergedNode := numNodes (ms_graph s)).
  assert (∀ l s0,
    let s1 := forEach l (λ n s,
      mkMinState (ms_graph s) (<[n := Z.of_nat mergedNode]> (ms_oldToNew s))
        (ms_oldProcessed s ++ [n]) (addPredecessors g n (ms_predecessors s))) s0 in
    ms_graph s1 = ms_graph s0 ∧
    ms_oldProcessed s1 = ms_oldProcessed s0 ++ l ∧
    ∀ p, p ∈ ms_predecessors s1 ↔
         p ∈ ms_predecessors s0 ∨ ∃ n, n ∈ l ∧ predecessorOf g n p) as Hloop.
  { induction l as [|n l IH]; intros s0.
    - cbn. rewrite app_nil_r. split_and!; [done | done |].
      intros p. split; [by left | intros [H|(n & Hn & _)]; [done |]].
      by apply not_elem_of_nil in Hn.
    - cbn zeta. rewrite forEach_cons.
      destruct (IH (mkMinState (ms_graph s0) (<[n := Z.of_nat mergedNode]> (ms_oldToNew s0))
        (ms_oldProcessed s0 ++ [n]) (addPredecessors g n (ms_predecessors s0))))
        as (HG & Hp & Hpred).
      cbn [ms_graph ms_oldProcessed ms_predecessors] in *.
      split_and!; [done | by rewrite Hp, <- app_assoc |].
      intros p. rewrite Hpred, elem_of_addPredecessors. split.
      + intros [[H|H]|(n' & Hn' & H)].
        * by left.
        * right. exists n. split; [by left | done].
        * right. exists n'. split; [by right | done].
      + intros [H|(n' & [->|Hn']%elem_of_cons & H)].
        * left. by left.
        * left. by right.
        * right. by exists n'. }
  destruct (Hloop subset (mkMinState G1 (ms_oldToNew s) (ms_oldProcessed s) (ms_predecessors s)))
    as (HG & Hp & Hpred).
  cbn [ms_graph ms_oldProcessed ms_predecessors] in *.
  split_and!; [done | done |].
  intros Hinv. rewrite HG. apply minimize_arcs_inv.
  - by intros a [Ha _]%elem_of_out.
  - by destruct Hinv as (? & ? & ?).
Qed.

Lemma minimize_merges_spec (g : Graph) (cs : list (list nat)) (s : MinState) :
  let s' := forEach cs (merged g) s in
  ms_oldProcessed s' = ms_oldProcessed s ++ mjoin cs ∧
  (∀ p, p ∈ ms_predecessors s' ↔
        p ∈ ms_predecessors s ∨ ∃ n, n ∈ mjoin cs ∧ predecessorOf g n p) ∧
  (minimize_graph_inv g (ms_graph s) → minimize_graph_inv g (ms_graph s')).
Proof.
  revert s. induction cs as [|c cs IH]; intros s.
  - cbn. rewrite app_nil_r. split_and!; [done | | done].
    intros p. split; [by left | intros [H|(n & Hn & _)]; [done |]].
    by apply not_elem_of_nil in Hn.
  - cbn zeta. rewrite forEach_cons.
    destruct (minimize_merge_spec g c s) as (Hp1 & Hpred1 & HG1).
    destruct (IH (merged g c s)) as (Hp & Hpred & HG).
    split_and!.
    + rewrite Hp, Hp1. cbn. by rewrite <- app_assoc.
    + intros p. rewrite Hpred, Hpred1. cbn. setoid_rewrite elem_of_app. naive_solver.
    + auto.
Qed.

Lemma nil_or_elem {A} (l : list A) : l = [] ∨ ∃ x, x ∈ l.
Proof. destruct l as [|x l]; [by left | right; exists x; by left]. Qed.

(** A round keeps [minimize_inv], and either leaves [predecessors] empty or
    processes a node that an arc leaves and that was not processed. *)
Lemma minimize_round_inv (g : Graph) (s : MinState) :
  minimize_inv g s →
  let s' := rounded g s in
  minimize_inv g s' ∧
  (minimize_graph_inv g (ms_graph s) → minimize_graph_inv g (ms_graph s')) ∧
  (ms_predecessors s' = [] ∨
   size (sources g ∖ list_to_set (ms_oldProcessed s')) <
   size (sources g ∖ list_to_set (ms_oldProcessed s))).
Proof.
  intros (I1 & I2 & I3). unfold rounded. cbn zeta.
  set (cs := forEach (ms_predecessors s) _ []).
  assert (∀ n, n ∈ mjoin cs ↔
               n ∈ ms_predecessors s ∧ candidate g (ms_oldProcessed s) n) as Hcs
    by (intros n; apply minimize_candidates_spec).
  destruct (minimize_merges_spec g cs
    (mkMinState (ms_graph s) (ms_oldToNew s) (ms_oldProcessed s) []))
    as (Hp & Hpred & HG).
  cbn [ms_graph ms_oldProcessed ms_predecessors] in *.
  set (s' := forEach cs (merged g) _) in *.
  assert (∀ p, p ∈ ms_predecessors s' → ∃ n, n ∈ mjoin cs ∧ predecessorOf g n p) as Hpred'.
  { intros p [H|H]%Hpred; [by apply not_elem_of_nil in H | done]. }
  split_and!.
  - unfold minimize_inv. rewrite Hp. split_and!.
    + intros p (n & [Hn Hc]%Hcs & a & Ha & Hd & Hs)%Hpred' [Hin|Hin]%elem_of_app.
      * apply (I1 n Hn). rewrite <- Hd. by apply (I2 p Hin a).
      * apply Hcs in Hin as [_ Hcp]. apply (I1 n Hn). rewrite <- Hd. by apply Hcp.
    + intros x [Hx|[_ Hx]%Hcs]%elem_of_app a Ha Hs; apply elem_of_app; left.
      * by apply (I2 x Hx a).
      * by apply Hx.
    + intros p (n & _ & a & Ha & _ & Hs)%Hpred'. by exists a.
  - done.
  - destruct (nil_or_elem (ms_predecessors s')) as [Hnil|(p & Hp')]; [by left | right].
    destruct (Hpred' p Hp') as (n & [Hn Hc]%Hcs & _).
    destruct (I3 n Hn) as (a & Ha & Hs).
    apply subset_size. rewrite Hp.
    assert (n ∈ sources g) as Hsrc.
    { unfold sources. apply elem_of_list_to_set, list_elem_of_fmap.
      exists a. split; [done |]. apply elem_of_seq. lia. }
    assert (n ∈ mjoin cs) as Hjoin by (by apply Hcs).
    pose proof (I1 n Hn) as Hnot.
    set_solver.
Qed.

Lemma sources_size (g : Graph) : size (sources g) ≤ numArcs g.
Proof.
  unfold sources. etrans; [apply size_list_to_set_le |].
  by rewrite length_fmap, length_seq.
Qed.

(** ** minimizeAcyclicFST: the first loop *)

Lemma leafNode_inv (g G : Graph) (node : Z) (st ac : bool) :
  minimize_graph_inv g G → minimize_graph_inv g (leafNode G node st ac).1.
Proof.
  intros HG. unfold leafNode. destruct (node <? 0)%Z; [| done].
  by apply (minimize_graph_inv_addNode g G st ac).
Qed.

Lemma minimize_leaf_spec (g : Graph) (n : nat) (st : MinState * (Z * Z * Z * Z)) :
  let st' := minimize_leaf g n st in
  ms_oldProcessed st'.1 =
    ms_oldProcessed st.1 ++ (if decide (numOut g n = 0) then [n] else []) ∧
  (∀ p, p ∈ ms_predecessors st'.1 ↔
        p ∈ ms_predecessors st.1 ∨ (numOut g n = 0 ∧ predecessorOf g n p)) ∧
  (minimize_graph_inv g (ms_graph st.1) → minimize_graph_inv g (ms_graph st'.1)).
Proof.
  destruct st as [s [[[c1 c2] c3] c4]]. unfold minimize_leaf.
  destruct (Nat.eqb_spec (numOut g n) 0) as [H0|H0].
  - rewrite decide_True by done.
    assert (∀ G c sa ac, minimize_graph_inv g G →
              minimize_graph_inv g (leafNode G c sa ac).1) as Hleaf
      by (intros; by apply leafNode_inv).
    destruct (isStart g n), (isAccept g n); cbn [andb negb];
      match goal with
      | |- context [leafNode ?G ?c ?sa ?ac] =>
        specialize (Hleaf G c sa ac); destruct (leafNode G c sa ac) as [G' c']
      end; cbn [fst snd ms_oldProcessed ms_predecessors ms_graph] in *;
      (split_and!; [done | | done]);
      intros p; rewrite elem_of_addPredecessors; naive_solver.
  - rewrite decide_False by done. cbn. rewrite app_nil_r.
    split_and!; [done | | done]. naive_solver.
Qed.

(** The state when the while loop starts: the processed nodes are the nodes
    that no arc leaves, and [predecessors] has the nodes with an arc to one
    of them. *)
Lemma minimize_init_spec (g : Graph) :
  ms_oldProcessed (minimize_init g) =
    filter (λ n, numOut g n = 0) (seq 0 (numNodes g)) ∧
  (∀ p, p ∈ ms_predecessors (minimize_init g) ↔
        ∃ n, n < numNodes g ∧ numOut g n = 0 ∧ predecessorOf g n p) ∧
  minimize_graph_inv g (ms_graph (minimize_init g)).
Proof.
  unfold minimize_init. cbv zeta.
  set (st0 := (mkMinState Graph_new (replicate (numNodes g) (-1)%Z) [] [],
               ((-1)%Z, (-1)%Z, (-1)%Z, (-1)%Z))).
  enough (∀ k,
    ms_oldProcessed (forRange k (minimize_leaf g) st0).1 =
      filter (λ n, numOut g n = 0) (seq 0 k) ∧
    (∀ p, p ∈ ms_predecessors (forRange k (minimize_leaf g) st0).1 ↔
          ∃ n, n < k ∧ numOut g n = 0 ∧ predecessorOf g n p) ∧
    minimize_graph_inv g (ms_graph (forRange k (minimize_leaf g) st0).1)) as H
    by apply H.
  induction k as [|k (Hp & Hpred & HG)].
  - cbn. split_and!; [done | | by unfold minimize_graph_inv].
    intros p. split; [by intros ?%not_elem_of_nil | intros (n & Hn & _); lia].
  - rewrite forRange_S.
    destruct (minimize_leaf_spec g k (forRange k (minimize_leaf g) st0))
      as (Hp' & Hpred' & HG').
    split_and!.
    + by rewrite Hp', Hp, filter_seq_S.
    + intros p. rewrite Hpred', Hpred. split.
      * intros [(n & Hn & H)|[H0 H]].
        -- exists n. split; [lia | done].
        -- exists k. split; [lia | done].
      * intros (n & Hn & H0 & H). destruct (decide (n = k)) as [->|Hne]; [by right |].
        left. exists n. split; [lia | done].
    + by apply HG'.
Qed.

Lemma numOut_0 (g : Graph) (n : nat) :
  numOut g n = 0 ↔ ∀ a, a < numArcs g → srcNode g a ≠ n.
Proof.
  unfold numOut. split.
  - intros H a Ha Hs. apply length_zero_iff_nil in H.
    assert (a ∈ out g n) as Hin by (by apply elem_of_out).
    rewrite H in Hin. by apply not_elem_of_nil in Hin.
  - intros H. destruct (out g n) as [|a l] eqn:Hout; [done |].
    assert (a ∈ out g n) as [Ha Hs]%elem_of_out by (rewrite Hout; by left).
    by destruct (H a Ha).
Qed.

Lemma minimize_init_inv (g : Graph) : minimize_inv g (minimize_init g).
Proof.
  destruct (minimize_init_spec g) as (Hp & Hpred & _).
  unfold minimize_inv. rewrite Hp. split_and!.
  - intros p (n & _ & _ & a & Ha & _ & Hs)%Hpred [H0 _]%list_elem_of_filter.
    by apply (proj1 (numOut_0 g p) H0 a).
  - intros x [H0 _]%list_elem_of_filter a Ha Hs.
    by destruct (proj1 (numOut_0 g x) H0 a).
  - intros p (n & _ & _ & a & Ha & _ & Hs)%Hpred. by exists a.
Qed.

(** minimizeAcyclicFST returns a graph. *)
(** ** minimizeAcyclicFST: the calls of addArc *)

Lemma forEach_None {A B} (f : A → B → option B) (l : list A) :
  forEach l (λ x s, s ← s; f x s) None = None.
Proof. induction l as [|x l IH]; [done |]. rewrite forEach_cons. exact IH. Qed.

(** The loop over the arcs of [subset[0]] goes through when no entry that it
    reads is negative. *)
Lemma minimize_arcs_loop (g : Graph) (oldToNew : list Z) (mergedNode : nat)
    (l : list nat) (G : Graph) :
  forEach l (λ a graph,
    graph ← graph;
    downNode ← nodeIndex (oldToNew !!! dstNode g a);
    Some (addArc graph mergedNode downNode (ilabel g a) (olabel g a) (weight g a)).2)
    (Some G) =
  if forallb (λ a, (0 <=? oldToNew !!! dstNode g a)%Z) l
  then Some (forEach l (λ a graph,
         (addArc graph mergedNode (Z.to_nat (oldToNew !!! dstNode g a))
            (ilabel g a) (olabel g a) (weight g a)).2) G)
  else None.
Proof.
  revert G. induction l as [|a l IH]; intros G; [done |].
  rewrite !forEach_cons. cbn [forallb mbind option_bind].
  destruct (Z.ltb_spec (oldToNew !!! dstNode g a) 0) as [Hlt|Hge].
  - assert (nodeIndex (oldToNew !!! dstNode g a) = None) as ->.
    { unfold nodeIndex. by rewrite (proj2 (Z.ltb_lt _ _) Hlt). }
    rewrite (proj2 (Z.leb_gt _ _) Hlt). cbn [andb mbind option_bind].
    apply (forEach_None (λ a graph,
      downNode ← nodeIndex (oldToNew !!! dstNode g a);
      Some (addArc graph mergedNode downNode (ilabel g a) (olabel g a) (weight g a)).2)).
  - assert (nodeIndex (oldToNew !!! dstNode g a) =
            Some (Z.to_nat (oldToNew !!! dstNode g a))) as ->.
    { unfold nodeIndex. by rewrite (proj2 (Z.ltb_ge _ _) Hge). }
    rewrite (proj2 (Z.leb_le _ _) Hge). cbn [andb mbind option_bind]. apply IH.
Qed.

Lemma minimize_merge_eq (g : Graph) (c : list nat) (s : MinState) :
  minimize_merge g c s =
  if forallb (λ a, (0 <=? ms_oldToNew (merged g c s) !!! dstNode g a)%Z)
       (out g (c !!! 0))
  then Some (merged g c s)
  else None.
Proof.
  unfold minimize_merge, merged. cbn [addNode].
  rewrite minimize_arcs_loop. cbn [ms_oldToNew].
  by destruct (forallb _ _).
Qed.

Lemma oldToNew_insert_nonneg (oldToNew : list Z) (n x : nat) (v : Z) :
  (0 ≤ v)%Z →
  (x ≠ n → (0 ≤ oldToNew !!! x)%Z) →
  (0 ≤ <[n := v]> oldToNew !!! x)%Z.
Proof.
  intros Hv Hold. destruct (decide (x = n)) as [->|Hne].
  - destruct (decide (n < length oldToNew)) as [Hn|Hn].
    + by rewrite list_lookup_total_insert_eq.
    + rewrite list_lookup_total_alt, lookup_ge_None_2 by (rewrite length_insert; lia).
      done.
  - rewrite list_lookup_total_insert_ne by done. by apply Hold.
Qed.

Lemma merged_nonneg (g : Graph) (c : list nat) (s : MinState) :
  minimize_nonneg_inv s → minimize_nonneg_inv (merged g c s).
Proof.
  intros Hs. unfold merged. cbn [addNode].
  set (G1 := mkGraph _ _ _ _ _ _).
  set (mergedNode := numNodes (ms_graph s)).
  assert (∀ l s0, minimize_nonneg_inv s0 →
    minimize_nonneg_inv (forEach l (λ n s,
      mkMinState (ms_graph s) (<[n := Z.of_nat mergedNode]> (ms_oldToNew s))
        (ms_oldProcessed s ++ [n]) (addPredecessors g n (ms_predecessors s))) s0))
    as Hloop.
  { induction l as [|n l IH]; intros s0 H0; [done |].
    rewrite forEach_cons. apply IH.
    intros x Hx. cbn [ms_oldToNew ms_oldProcessed] in *.
    apply oldToNew_insert_nonneg; [lia |].
    intros Hne. apply H0.
    apply elem_of_app in Hx as [Hx|Hx%list_elem_of_singleton]; done. }
  specialize (Hloop c (mkMinState G1 (ms_oldToNew s) (ms_oldProcessed s) (ms_predecessors s))
                Hs).
  exact Hloop.
Qed.

Lemma minimize_merge_some (g : Graph) (c : list nat) (s : MinState) :
  minimize_nonneg_inv s →
  (∀ a, a ∈ out g (c !!! 0) → dstNode g a ∈ ms_oldProcessed s) →
  minimize_merge g c s = Some (merged g c s).
Proof.
  intros Hs Hdst. rewrite minimize_merge_eq.
  destruct (forallb _ _) eqn:Hall; [done |].
  apply forallb_false in Hall as (a & Ha & Hneg).
  pose proof (merged_nonneg g c s Hs (dstNode g a)) as H.
  destruct (minimize_merge_spec g c s) as (Hp & _).
  rewrite Hp in H.
  specialize (H ltac:(apply elem_of_app; left; by apply Hdst)).
  apply Z.leb_gt in Hneg. lia.
Qed.

Lemma minimize_merges_some (g : Graph) (cs : list (list nat)) (s : MinState) :
  minimize_nonneg_inv s →
  Forall (λ c, ∀ a, a ∈ out g (c !!! 0) → dstNode g a ∈ ms_oldProcessed s) cs →
  forEach cs (λ subset s, s ← s; minimize_merge g subset s) (Some s) =
    Some (forEach cs (merged g) s) ∧
  minimize_nonneg_inv (forEach cs (merged g) s).
Proof.
  revert s. induction cs as [|c cs IH]; intros s Hs Hcs; [done |].
  apply Forall_cons in Hcs as [Hc Hcs]. rewrite !forEach_cons.
  cbn [mbind option_bind]. rewrite (minimize_merge_some g c s Hs Hc).
  apply IH; [by apply merged_nonneg |].
  destruct (minimize_merge_spec g c s) as (-> & _).
  eapply Forall_impl; [exact Hcs |]. intros c' H a Ha.
  apply elem_of_app. left. by apply H.
Qed.

(** A round makes no call of addArc with a negative index: a set of
    candidates is not empty, and the arcs that leave its first node go to
    processed nodes. *)
Lemma minimize_round_some (g : Graph) (s : MinState) :
  minimize_inv g s → minimize_nonneg_inv s →
  minimize_round g s = Some (rounded g s) ∧ minimize_nonneg_inv (rounded g s).
Proof.
  intros _ Hs. unfold minimize_round, rounded. cbn zeta.
  set (cs := forEach (ms_predecessors s) _ []).
  assert (∀ n, n ∈ mjoin cs ↔
               n ∈ ms_predecessors s ∧ candidate g (ms_oldProcessed s) n) as Hcs
    by (intros n; apply minimize_candidates_spec).
  destruct (minimize_candidates_perm g (ms_oldToNew s) (ms_oldProcessed s)
              (ms_predecessors s) [] (Forall_nil_2 _)) as [Hne _].
  fold cs in Hne.
  apply minimize_merges_some; [exact Hs |].
  cbn [ms_oldProcessed]. apply Forall_forall. intros c Hc a [Ha Hsrc]%elem_of_out.
  rewrite Forall_forall in Hne. specialize (Hne c Hc).
  assert (c !!! 0 ∈ mjoin cs) as [_ Hcand]%Hcs.
  { apply list_elem_of_join. exists c. split; [| done].
    destruct c as [|n c]; [done |]. cbn. by left. }
  by apply Hcand.
Qed.

Lemma minimize_init_nonneg (g : Graph) : minimize_nonneg_inv (minimize_init g).
Proof.
  unfold minimize_init. cbv zeta.
  set (st0 := (mkMinState Graph_new (replicate (numNodes g) (-1)%Z) [] [],
               ((-1)%Z, (-1)%Z, (-1)%Z, (-1)%Z))).
  enough (∀ k, minimize_nonneg_inv (forRange k (minimize_leaf g) st0).1) as H
    by apply H.
  induction k as [|k IH].
  - intros x Hx. by apply not_elem_of_nil in Hx.
  - rewrite forRange_S.
    destruct (forRange k (minimize_leaf g) st0) as [s [[[c1 c2] c3] c4]].
    cbn [fst] in IH. unfold minimize_leaf. destruct (numOut g k =? 0); [| done].
    assert (∀ G c sa ac, (0 ≤ (leafNode G c sa ac).2)%Z) as Hleaf.
    { intros G c sa ac. unfold leafNode.
      destruct (Z.ltb_spec c 0); cbn [addNode fst snd]; lia. }
    assert (∀ c', (0 ≤ c')%Z →
              ∀ x, x ∈ ms_oldProcessed s ++ [k] →
                   (0 ≤ <[k := c']> (ms_oldToNew s) !!! x)%Z) as Hins.
    { intros c' Hc' x Hx. apply oldToNew_insert_nonneg; [done |].
      intros Hne. apply IH.
      apply elem_of_app in Hx as [Hx|Hx%list_elem_of_singleton]; done. }
    destruct (isStart g k), (isAccept g k); cbn [andb negb];
      match goal with
      | |- context [leafNode ?G ?c ?sa ?ac] =>
        specialize (Hleaf G c sa ac); destruct (leafNode G c sa ac) as [G' c']
      end; cbn [fst snd] in *; intros x Hx; by apply Hins.
Qed.

(** ** minimizeAcyclicFST: the while loop *)

(** The while loop ends, without a call of addArc with a negative index,
    and its result is the graph of a state that the rounds reach. *)
Lemma minimize_loop_total (g : Graph) (fuel : nat) (s : MinState) :
  minimize_inv g s →
  minimize_nonneg_inv s →
  minimize_graph_inv g (ms_graph s) →
  ms_predecessors s = [] ∨
    size (sources g ∖ list_to_set (ms_oldProcessed s)) < fuel →
  ∃ r, minimize_loop fuel g s = Some r ∧ minimize_graph_inv g r.
Proof.
  revert s. induction fuel as [|fuel IH]; intros s Hinv Hnn HG Hfuel.
  - destruct Hfuel as [Hnil|Hlt]; [| lia].
    cbn. rewrite Hnil. by exists (ms_graph s).
  - cbn [minimize_loop]. destruct (ms_predecessors s) as [|p l] eqn:Hpreds.
    { by exists (ms_graph s). }
    destruct (minimize_round_some g s Hinv Hnn) as [-> Hnn'].
    destruct (minimize_round_inv g s Hinv) as (Hinv' & HG' & Hstep).
    apply IH; [done | done | by apply HG' |].
    destruct Hstep as [Hnil|Hlt]; [by left | right].
    destruct Hfuel as [Hnil'|Hlt']; [discriminate Hnil' | lia].
Qed.

(** The graph that the while loop returns is the graph of a state that the
    rounds reach from the state the loop starts with. *)
Lemma minimize_loop_ind (g : Graph) (Q : MinState → Prop) (fuel : nat)
    (s : MinState) (r : Graph) :
  (∀ s, minimize_inv g s → Q s → Q (rounded g s)) →
  minimize_inv g s → minimize_nonneg_inv s → Q s →
  minimize_loop fuel g s = Some r →
  ∃ s', Q s' ∧ r = ms_graph s'.
Proof.
  intros Hstep. revert s. induction fuel as [|fuel IH]; intros s Hinv Hnn HQ Hrun.
  - cbn in Hrun. destruct (ms_predecessors s); [| discriminate Hrun].
    injection Hrun as <-. by exists s.
  - cbn [minimize_loop] in Hrun. destruct (ms_predecessors s).
    { injection Hrun as <-. by exists s. }
    destruct (minimize_round_some g s Hinv Hnn) as [Hround Hnn'].
    rewrite Hround in Hrun.
    apply (IH (rounded g s)); [| done | by apply Hstep | done].
    by apply (minimize_round_inv g s).
Qed.

Lemma minimize_total (g : Graph) :
  ∃ r, minimizeAcyclicFST g = Some r ∧ minimize_graph_inv g r.
Proof.
  unfold minimizeAcyclicFST, minimizeAcyclicFST_fuel.
  apply minimize_loop_total.
  - apply minimize_init_inv.
  - apply minimize_init_nonneg.
  - apply minimize_init_spec.
  - right. pose proof (sources_size g).
    pose proof (subseteq_size
      (sources g ∖ list_to_set (ms_oldProcessed (minimize_init g))) (sources g)
      ltac:(set_solver)). lia.
Qed.

(** ** minimizeAcyclicFST: the result *)

(** X14. minimizeAcyclicFST returns a graph for every graph, with or
    without cycles. The graph it returns records no gradient function, so
    that backward through it calls no addGrad, and each of its arcs has the
    labels and the weight of an arc of [g]. *)
Theorem minimize_returns (g : Graph) (deltas : Graph) :
  ∃ r, minimizeAcyclicFST g = Some r ∧
    g_gradFunc r = None ∧ g_inputs r = [] ∧
    invokeGradFunc r deltas = ([], Ok tt) ∧
    ∀ arc, arc ∈ g_arcs r →
      ∃ a, a < numArcs g ∧ arc_ilabel arc = ilabel g a ∧
           arc_olabel arc = olabel g a ∧ arc_weight arc = weight g a.
Proof.
  destruct (minimize_total g) as (r & Hr & Hf & Hi & Harcs).
  exists r. split_and!; [done | done | done | |].
  - unfold invokeGradFunc. by rewrite Hf.
  - intros arc Harc. rewrite Forall_forall in Harcs. by apply Harcs.
Qed.

(** X15. When an arc leaves every node of [g], as in a graph where every
    node is on a cycle, minimizeAcyclicFST returns the graph without nodes
    and arcs. *)
Theorem minimize_no_leaf (g : Graph) :
  (∀ n, n < numNodes g → numOut g n ≠ 0) →
  minimizeAcyclicFST g = Some Graph_new.
Proof.
  intros Hout. unfold minimizeAcyclicFST, minimizeAcyclicFST_fuel.
  assert (minimize_init g = mkMinState Graph_new (replicate (numNodes g) (-1)%Z) [] [])
    as ->; [| reflexivity].
  unfold minimize_init. cbv zeta.
  set (st0 := (mkMinState Graph_new (replicate (numNodes g) (-1)%Z) [] [],
               ((-1)%Z, (-1)%Z, (-1)%Z, (-1)%Z))).
  enough (∀ k, k ≤ numNodes g → forRange k (minimize_leaf g) st0 = st0) as H
    by (by rewrite H).
  induction k as [|k IH]; intros Hk; [done |].
  rewrite forRange_S, IH by lia. unfold minimize_leaf, st0.
  destruct (Nat.eqb_spec (numOut g k) 0) as [H0|H0]; [| done].
  by destruct (Hout k ltac:(lia)).
Qed.

Lemma minimize_no_leaf_witness :
  (∀ n, n < numNodes selfLoop → numOut selfLoop n ≠ 0) ∧
  minimizeAcyclicFST selfLoop = Some Graph_new.
Proof.
  assert (∀ n, n < numNodes selfLoop → numOut selfLoop n ≠ 0) as H.
  { intros n Hn. assert (n = 0) as -> by (cbn in Hn; lia). by cbn. }
  split; [exact H | exact (minimize_no_leaf selfLoop H)].
Defined.

(** The graph [diamond]: the two accept nodes are merged, then the two
    nodes before them, of which the arc of the first is kept, with its
    weight. *)
Example minimize_example :
  ∃ r, minimizeAcyclicFST diamond = Some r ∧
    g_nodes r = [mkNode false true; mkNode false false; mkNode true false] ∧
    g_arcs r = [mkArc 1 0 2%Z 2%Z (float_of_Z 3); mkArc 2 1 1%Z 1%Z (float_of_Z 1);
                mkArc 2 1 1%Z 1%Z (float_of_Z 2)].
Proof. eexists. split_and!; vm_compute; reflexivity. Qed.

(** ** minimizeAcyclicFST: the sizes *)

Lemma set_insert_sorted (x : nat) (s : list nat) :
  StronglySorted lt s → StronglySorted lt (set_insert x s).
Proof.
  induction 1 as [|y s Hs IH Hy]; cbn [set_insert].
  - by repeat constructor.
  - destruct (Nat.ltb_spec x y) as [Hlt|Hge].
    + constructor; [by constructor |]. constructor; [done |].
      eapply Forall_impl; [exact Hy |]. intros z Hz. cbn in Hz. lia.
    + destruct (Nat.eqb_spec x y) as [->|Hne]; [by constructor |].
      constructor; [done |]. apply Forall_forall.
      intros z [->|Hz]%elem_of_set_insert; [lia |].
      rewrite Forall_forall in Hy. by apply Hy.
Qed.

Lemma sorted_NoDup (s : list nat) : StronglySorted lt s → NoDup s.
Proof.
  induction 1 as [|y s Hs IH Hy]; constructor; [| done].
  intros Hin. rewrite Forall_forall in Hy. specialize (Hy y Hin). lia.
Qed.

Lemma addPredecessors_sorted (g : Graph) (n : nat) (predecessors : list nat) :
  StronglySorted lt predecessors →
  StronglySorted lt (addPredecessors g n predecessors).
Proof.
  unfold addPredecessors. revert predecessors.
  induction (in_ g n) as [|a l IH]; intros preds Hs; [done |].
  rewrite forEach_cons. by apply IH, set_insert_sorted.
Qed.

Lemma minimize_merge_size (g : Graph) (c : list nat) (s : MinState) :
  c ≠ [] →
  let s' := merged g c s in
  numNodes (ms_graph s') = S (numNodes (ms_graph s)) ∧
  numArcs (ms_graph s') ≤ numArcs (ms_graph s) + sum_list_with (numOut g) c ∧
  (StronglySorted lt (ms_predecessors s) → StronglySorted lt (ms_predecessors s')).
Proof.
  intros Hc. unfold merged. cbn [addNode].
  set (G1 := mkGraph _ _ _ _ _ _).
  set (mergedNode := numNodes (ms_graph s)).
  assert (∀ l s0,
    let s1 := forEach l (λ n s,
      mkMinState (ms_graph s) (<[n := Z.of_nat mergedNode]> (ms_oldToNew s))
        (ms_oldProcessed s ++ [n]) (addPredecessors g n (ms_predecessors s))) s0 in
    ms_graph s1 = ms_graph s0 ∧
    (StronglySorted lt (ms_predecessors s0) → StronglySorted lt (ms_predecessors s1)))
    as Hloop.
  { induction l as [|n l IH]; intros s0; [done |].
    cbn zeta. rewrite forEach_cons.
    destruct (IH (mkMinState (ms_graph s0) (<[n := Z.of_nat mergedNode]> (ms_oldToNew s0))
      (ms_oldProcessed s0 ++ [n]) (addPredecessors g n (ms_predecessors s0))))
      as (HG & Hs).
    cbn [ms_graph ms_predecessors] in *. split; [done |].
    intros H. by apply Hs, addPredecessors_sorted. }
  destruct (Hloop c (mkMinState G1 (ms_oldToNew s) (ms_oldProcessed s) (ms_predecessors s)))
    as (HG & Hs).
  set (s1 := forEach c _ _) in *.
  cbn [ms_graph ms_oldProcessed ms_predecessors] in *.
  rewrite HG.
  rewrite (forEach_addArc (out g (c !!! 0)) (λ _, mergedNode)
    (λ a, Z.to_nat (ms_oldToNew s1 !!! dstNode g a)) (ilabel g) (olabel g) (weight g)).
  split_and!.
  - unfold mergedNode, numNodes, withArcs, G1. cbn. rewrite length_app. cbn. lia.
  - unfold mergedNode, numArcs, withArcs, G1. cbn. rewrite length_app, length_fmap.
    destruct c as [|n c]; [done |]. cbn. unfold numOut. lia.
  - done.
Qed.

Lemma minimize_merges_size (g : Graph) (cs : list (list nat)) (s : MinState) :
  Forall (λ c, c ≠ []) cs →
  let s' := forEach cs (merged g) s in
  numNodes (ms_graph s') ≤ numNodes (ms_graph s) + length (mjoin cs) ∧
  numArcs (ms_graph s') ≤ numArcs (ms_graph s) + sum_list_with (numOut g) (mjoin cs) ∧
  (StronglySorted lt (ms_predecessors s) → StronglySorted lt (ms_predecessors s')).
Proof.
  revert s. induction cs as [|c cs IH]; intros s Hne.
  - cbn. split_and!; [lia | lia | done].
  - apply Forall_cons in Hne as [Hc Hne]. cbn zeta. rewrite forEach_cons.
    destruct (minimize_merge_size g c s Hc) as (Hn1 & Ha1 & Hs1).
    destruct (IH (merged g c s) Hne) as (Hn & Ha & Hs).
    change (mjoin (c :: cs)) with (c ++ mjoin cs).
    rewrite length_app, sum_list_with_app.
    split_and!; [| lia | auto].
    destruct c; [done |]. cbn [length] in *. lia.
Qed.

Lemma minimize_round_size (g : Graph) (s : MinState) :
  minimize_inv g s → minimize_size_inv g s →
  minimize_size_inv g (rounded g s).
Proof.
  intros (I1 & I2 & I3) (K1 & K2 & K3 & K4 & K5). unfold rounded. cbn zeta.
  set (cs := forEach (ms_predecessors s) _ []).
  assert (∀ n, n ∈ mjoin cs ↔
               n ∈ ms_predecessors s ∧ candidate g (ms_oldProcessed s) n) as Hcs
    by (intros n; apply minimize_candidates_spec).
  destruct (minimize_candidates_perm g (ms_oldToNew s) (ms_oldProcessed s)
              (ms_predecessors s) [] (Forall_nil_2 _)) as [Hne Hperm].
  fold cs in Hne, Hperm. cbn in Hperm.
  set (s0 := mkMinState (ms_graph s) (ms_oldToNew s) (ms_oldProcessed s) []).
  destruct (minimize_merges_spec g cs s0) as (Hp & _ & _).
  destruct (minimize_merges_size g cs s0 Hne) as (Hn & Ha & Hs).
  cbn [ms_graph ms_oldProcessed ms_predecessors s0] in *.
  unfold minimize_size_inv. rewrite Hp. split_and!.
  - rewrite length_app. lia.
  - apply NoDup_app. split_and!; [done | |].
    + intros x Hx [Hpred _]%Hcs. by apply (I1 x).
    + rewrite Hperm. apply NoDup_filter. by apply sorted_NoDup.
  - apply Hs. constructor.
  - rewrite sum_list_with_app. lia.
  - intros x [Hx|[Hx _]%Hcs]%elem_of_app; [by apply K5 | right; by apply I3].
Qed.

Lemma minimize_leaf_size (g : Graph) (n : nat) (st : MinState * (Z * Z * Z * Z)) :
  let st' := minimize_leaf g n st in
  numNodes (ms_graph st'.1) ≤
    numNodes (ms_graph st.1) + (if decide (numOut g n = 0) then 1 else 0) ∧
  numArcs (ms_graph st'.1) = numArcs (ms_graph st.1) ∧
  (StronglySorted lt (ms_predecessors st.1) →
   StronglySorted lt (ms_predecessors st'.1)).
Proof.
  destruct st as [s [[[c1 c2] c3] c4]]. unfold minimize_leaf.
  destruct (Nat.eqb_spec (numOut g n) 0) as [H0|H0].
  - rewrite decide_True by done.
    assert (∀ G c sa ac,
              numNodes (leafNode G c sa ac).1 ≤ numNodes G + 1 ∧
              numArcs (leafNode G c sa ac).1 = numArcs G) as Hleaf.
    { intros G c sa ac. unfold leafNode. destruct (c <? 0)%Z; [| cbn; lia].
      unfold numNodes, numArcs. cbn. rewrite length_app. cbn. lia. }
    destruct (isStart g n), (isAccept g n); cbn [andb negb];
      match goal with
      | |- context [leafNode ?G ?c ?sa ?ac] =>
        specialize (Hleaf G c sa ac); destruct (leafNode G c sa ac) as [G' c']
      end; cbn [fst snd ms_oldProcessed ms_predecessors ms_graph] in *;
      (split_and!; [lia | lia | by apply addPredecessors_sorted]).
  - rewrite decide_False by done. cbn. split_and!; [lia | done | done].
Qed.

Lemma minimize_init_size (g : Graph) : minimize_size_inv g (minimize_init g).
Proof.
  destruct (minimize_init_spec g) as (Hp & _ & _).
  unfold minimize_size_inv. rewrite Hp.
  unfold minimize_init. cbv zeta.
  set (st0 := (mkMinState Graph_new (replicate (numNodes g) (-1)%Z) [] [],
               ((-1)%Z, (-1)%Z, (-1)%Z, (-1)%Z))).
  assert (∀ k,
    numNodes (ms_graph (forRange k (minimize_leaf g) st0).1) ≤
      length (filter (λ n, numOut g n = 0) (seq 0 k)) ∧
    numArcs (ms_graph (forRange k (minimize_leaf g) st0).1) = 0 ∧
    StronglySorted lt (ms_predecessors (forRange k (minimize_leaf g) st0).1)) as H.
  { induction k as [|k (Hn & Ha & Hs)].
    - cbn. split_and!; [lia | done | constructor].
    - rewrite forRange_S.
      destruct (minimize_leaf_size g k (forRange k (minimize_leaf g) st0))
        as (Hn' & Ha' & Hs').
      rewrite filter_seq_S, length_app. split_and!; [| congruence | auto].
      destruct (decide (numOut g k = 0)); cbn [length] in *; lia. }
  destruct (H (numNodes g)) as (Hn & Ha & Hs).
  split_and!; [done | apply NoDup_filter, NoDup_seq | done | lia |].
  intros x [_ Hx%elem_of_seq]%list_elem_of_filter. left. lia.
Qed.

Lemma sum_numOut_le (g : Graph) (l : list nat) :
  NoDup l → sum_list_with (numOut g) l ≤ numArcs g.
Proof.
  intros Hl.
  assert (sum_list_with (numOut g) l = length (l ≫= out g)) as ->.
  { induction l as [|x l IH]; [done |].
    apply NoDup_cons in Hl as [_ Hl].
    rewrite bind_cons, length_app. cbn. rewrite IH by done. reflexivity. }
  trans (length (seq 0 (numArcs g))); [| by rewrite length_seq].
  apply submseteq_length, NoDup_submseteq.
  - apply NoDup_bind; [| | done].
    + intros x1 x2 a _ _ [_ H1]%elem_of_out [_ H2]%elem_of_out. congruence.
    + intros x _. unfold out. apply NoDup_filter, NoDup_seq.
  - intros a (x & [Ha _]%elem_of_out & _)%list_elem_of_bind.
    apply elem_of_seq. lia.
Qed.

(** X16. minimizeAcyclicFST does not make a graph grow: the result has at
    most as many arcs as [g], and, when the arcs of [g] have their ends
    among its nodes, at most as many nodes. *)
Theorem minimize_size (g : Graph) :
  wellFormed g →
  ∃ r, minimizeAcyclicFST g = Some r ∧
    numNodes r ≤ numNodes g ∧ numArcs r ≤ numArcs g.
Proof.
  intros Hwf.
  destruct (minimize_total g) as (r & Hr & _). exists r. split; [done |].
  unfold minimizeAcyclicFST, minimizeAcyclicFST_fuel in Hr.
  destruct (minimize_loop_ind g (minimize_size_inv g) _ _ _
              (minimize_round_size g) (minimize_init_inv g) (minimize_init_nonneg g)
              (minimize_init_size g) Hr)
    as (s & (K1 & K2 & _ & K4 & K5) & ->).
  split.
  - etrans; [exact K1 |].
    trans (length (seq 0 (numNodes g))); [| by rewrite length_seq].
    apply submseteq_length, NoDup_submseteq; [done |].
    intros x [Hx|(a & Ha & Hs)]%K5; apply elem_of_seq; [lia |].
    unfold wellFormed in Hwf. rewrite Forall_lookup in Hwf.
    destruct (lookup_lt_is_Some_2 (g_arcs g) a Ha) as [arc Harc].
    destruct (Hwf a arc Harc) as [Hup _].
    unfold srcNode in Hs. rewrite (list_lookup_total_correct _ _ _ Harc) in Hs. lia.
  - etrans; [exact K4 |]. by apply sum_numOut_le.
Qed.

Lemma diamond_wellFormed : wellFormed diamond.
Proof.
  unfold wellFormed. apply Forall_forall. intros a Ha.
  assert (numNodes diamond = 5) as -> by reflexivity.
  change (g_arcs diamond) with
    [mkArc 0 1 1%Z 1%Z (float_of_Z 1); mkArc 0 2 1%Z 1%Z (float_of_Z 2);
     mkArc 1 3 2%Z 2%Z (float_of_Z 3); mkArc 2 4 2%Z 2%Z (float_of_Z 4)] in Ha.
  repeat (apply elem_of_cons in Ha as [->|Ha]; [cbn; lia |]).
  by apply not_elem_of_nil in Ha.
Qed.

Lemma minimize_size_witness :
  wellFormed diamond ∧
  ∃ r, minimizeAcyclicFST diamond = Some r ∧
    numNodes r ≤ numNodes diamond ∧ numArcs r ≤ numArcs diamond.
Proof. split; [exact diamond_wellFormed | exact (minimize_size diamond diamond_wellFormed)]. Defined.

(** ** minimizeAcyclicFST: the indices *)

Lemma wellFormed_arc (g : Graph) (a : nat) :
  wellFormed g → a < numArcs g →
  srcNode g a < numNodes g ∧ dstNode g a < numNodes g.
Proof.
  intros Hwf Ha. unfold wellFormed in Hwf. rewrite Forall_lookup in Hwf.
  destruct (lookup_lt_is_Some_2 (g_arcs g) a Ha) as [arc Harc].
  unfold srcNode, dstNode. rewrite (list_lookup_total_correct _ _ _ Harc).
  by apply (Hwf a arc).
Qed.

Lemma oldToNew_insert (oldToNew : list Z) (n x : nat) (v : Z) (bound : Z) :
  x < length oldToNew →
  (0 ≤ v < bound)%Z →
  (x ≠ n → (0 ≤ oldToNew !!! x < bound)%Z) →
  (0 ≤ <[n := v]> oldToNew !!! x < bound)%Z.
Proof.
  intros Hx Hv Hold. destruct (decide (x = n)) as [->|Hne].
  - rewrite list_lookup_total_insert_eq by done. exact Hv.
  - rewrite list_lookup_total_insert_ne by done. by apply Hold.
Qed.

Lemma minimize_merge_index (g : Graph) (c : list nat) (s : MinState) :
  wellFormed g →
  (∀ a, a ∈ out g (c !!! 0) → dstNode g a ∈ ms_oldProcessed s) →
  minimize_index_inv g s → minimize_index_inv g (merged g c s).
Proof.
  intros Hwf Hdst (Hlen & Hidx & HG). unfold merged. cbn [addNode].
  set (G1 := mkGraph _ _ _ _ _ _).
  set (mergedNode := numNodes (ms_graph s)).
  assert (numNodes G1 = S mergedNode) as HG1.
  { unfold G1, mergedNode, numNodes. cbn. rewrite length_app. cbn. lia. }
  assert (∀ l s0,
    length (ms_oldToNew s0) = numNodes g →
    (∀ x, x ∈ ms_oldProcessed s0 → x < numNodes g →
          (0 ≤ ms_oldToNew s0 !!! x < Z.of_nat (S mergedNode))%Z) →
    let s1 := forEach l (λ n s,
      mkMinState (ms_graph s) (<[n := Z.of_nat mergedNode]> (ms_oldToNew s))
        (ms_oldProcessed s ++ [n]) (addPredecessors g n (ms_predecessors s))) s0 in
    ms_graph s1 = ms_graph s0 ∧
    length (ms_oldToNew s1) = numNodes g ∧
    (∀ x, x ∈ ms_oldProcessed s0 → x ∈ ms_oldProcessed s1) ∧
    (∀ x, x ∈ ms_oldProcessed s1 → x < numNodes g →
          (0 ≤ ms_oldToNew s1 !!! x < Z.of_nat (S mergedNode))%Z)) as Hloop.
  { induction l as [|n l IH]; intros s0 Hl0 Hi0; [done |].
    cbn zeta. rewrite forEach_cons.
    destruct (IH (mkMinState (ms_graph s0) (<[n := Z.of_nat mergedNode]> (ms_oldToNew s0))
      (ms_oldProcessed s0 ++ [n]) (addPredecessors g n (ms_predecessors s0))))
      as (H1 & H2 & H3 & H4); cbn [ms_graph ms_oldToNew ms_oldProcessed] in *.
    - by rewrite length_insert.
    - intros x Hx Hxg. apply oldToNew_insert; [lia | lia |].
      intros Hne. apply Hi0; [| done].
      apply elem_of_app in Hx as [Hx|Hx%list_elem_of_singleton]; done.
    - split_and!; [done | done | | done].
      intros x Hx. apply H3, elem_of_app. by left. }
  destruct (Hloop c (mkMinState G1 (ms_oldToNew s) (ms_oldProcessed s) (ms_predecessors s)))
    as (H1 & H2 & H3 & H4); cbn [ms_graph ms_oldToNew ms_oldProcessed] in *.
  { done. }
  { intros x Hx Hxg. specialize (Hidx x Hx Hxg). fold mergedNode in Hidx. lia. }
  set (s1 := forEach c _ _) in *.
  rewrite H1.
  rewrite (forEach_addArc (out g (c !!! 0)) (λ _, mergedNode)
    (λ a, Z.to_nat (ms_oldToNew s1 !!! dstNode g a)) (ilabel g) (olabel g) (weight g)).
  assert (numNodes (withArcs G1
    ((λ x, mkArc mergedNode (Z.to_nat (ms_oldToNew s1 !!! dstNode g x))
             (ilabel g x) (olabel g x) (weight g x)) <$> out g (c !!! 0))) =
    S mergedNode) as HN by exact HG1.
  unfold minimize_index_inv. cbn [ms_graph ms_oldToNew ms_oldProcessed].
  rewrite HN. split_and!; [done | done |].
  unfold wellFormed. rewrite HN. cbn [withArcs g_arcs G1].
  apply Forall_app. split.
  - eapply Forall_impl; [exact HG |]. intros arc [Hu Hd].
    fold mergedNode in Hu, Hd. cbn beta. lia.
  - apply Forall_fmap, Forall_forall. intros a Ha. cbn.
    split; [lia |].
    pose proof (Hdst a Ha) as Hp.
    apply elem_of_out in Ha as [Ha _].
    destruct (wellFormed_arc g a Hwf Ha) as [_ Hd].
    specialize (H4 (dstNode g a) (H3 _ Hp) Hd). lia.
Qed.

Lemma minimize_merges_index (g : Graph) (cs : list (list nat)) (s : MinState) :
  wellFormed g →
  Forall (λ c, ∀ a, a ∈ out g (c !!! 0) → dstNode g a ∈ ms_oldProcessed s) cs →
  minimize_index_inv g s → minimize_index_inv g (forEach cs (merged g) s).
Proof.
  intros Hwf. revert s. induction cs as [|c cs IH]; intros s Hcs Hinv; [done |].
  apply Forall_cons in Hcs as [Hc Hcs]. rewrite forEach_cons.
  apply IH; [| by apply minimize_merge_index].
  destruct (minimize_merge_spec g c s) as (-> & _).
  eapply Forall_impl; [exact Hcs |]. intros c' H a Ha.
  apply elem_of_app. left. by apply H.
Qed.

Lemma minimize_round_index (g : Graph) (s : MinState) :
  wellFormed g →
  minimize_inv g s → minimize_index_inv g s →
  minimize_index_inv g (rounded g s).
Proof.
  intros Hwf _ Hinv. unfold rounded. cbn zeta.
  set (cs := forEach (ms_predecessors s) _ []).
  assert (∀ n, n ∈ mjoin cs ↔
               n ∈ ms_predecessors s ∧ candidate g (ms_oldProcessed s) n) as Hcs
    by (intros n; apply minimize_candidates_spec).
  destruct (minimize_candidates_perm g (ms_oldToNew s) (ms_oldProcessed s)
              (ms_predecessors s) [] (Forall_nil_2 _)) as [Hne _].
  fold cs in Hne.
  apply minimize_merges_index; [done | | exact Hinv].
  cbn [ms_oldProcessed]. apply Forall_forall. intros c Hc a [Ha Hs]%elem_of_out.
  rewrite Forall_forall in Hne. specialize (Hne c Hc).
  assert (c !!! 0 ∈ mjoin cs) as [_ Hcand]%Hcs.
  { apply list_elem_of_join. exists c. split; [| done].
    destruct c as [|n c]; [done |]. cbn. by left. }
  by apply Hcand.
Qed.

Lemma leafNode_index (G : Graph) (node : Z) (st ac : bool) :
  (node < 0 ∨ 0 ≤ node < Z.of_nat (numNodes G))%Z →
  let r := leafNode G node st ac in
  numNodes G ≤ numNodes r.1 ∧ g_arcs r.1 = g_arcs G ∧
  (0 ≤ r.2 < Z.of_nat (numNodes r.1))%Z.
Proof.
  intros Hnode. unfold leafNode. destruct (Z.ltb_spec node 0) as [Hlt|Hge].
  - cbn [addNode fst snd]. unfold numNodes. cbn [g_nodes g_arcs].
    rewrite length_app. cbn [length]. split_and!; [lia | done | lia | lia].
  - cbn [fst snd]. split_and!; [lia | done | lia | lia].
Qed.

Lemma minimize_init_index (g : Graph) : minimize_index_inv g (minimize_init g).
Proof.
  unfold minimize_init. cbv zeta.
  set (st0 := (mkMinState Graph_new (replicate (numNodes g) (-1)%Z) [] [],
               ((-1)%Z, (-1)%Z, (-1)%Z, (-1)%Z))).
  set (valid := λ (G : Graph) (c : Z), (c < 0 ∨ 0 ≤ c < Z.of_nat (numNodes G))%Z).
  assert (∀ k, let st := forRange k (minimize_leaf g) st0 in
    length (ms_oldToNew st.1) = numNodes g ∧
    (∀ x, x ∈ ms_oldProcessed st.1 → x < numNodes g →
          (0 ≤ ms_oldToNew st.1 !!! x < Z.of_nat (numNodes (ms_graph st.1)))%Z) ∧
    g_arcs (ms_graph st.1) = [] ∧
    valid (ms_graph st.1) st.2.1.1.1 ∧ valid (ms_graph st.1) st.2.1.1.2 ∧
    valid (ms_graph st.1) st.2.1.2 ∧ valid (ms_graph st.1) st.2.2) as H.
  { induction k as [|k IH].
    - cbn. unfold valid. split_and!; try lia; try done.
      + by rewrite length_replicate.
      + intros x Hx. by apply not_elem_of_nil in Hx.
    - cbn zeta in *. rewrite forRange_S.
      destruct (forRange k (minimize_leaf g) st0) as [s [[[c1 c2] c3] c4]].
      cbn [fst snd] in IH. destruct IH as (Hl & Hi & Ha & V1 & V2 & V3 & V4).
      unfold minimize_leaf. destruct (numOut g k =? 0); [| done].
      assert (∀ G' c', numNodes (ms_graph s) ≤ numNodes G' →
                (0 ≤ c' < Z.of_nat (numNodes G'))%Z →
                ∀ x, x ∈ ms_oldProcessed s ++ [k] → x < numNodes g →
                (0 ≤ <[k := c']> (ms_oldToNew s) !!! x < Z.of_nat (numNodes G'))%Z)
        as Hins.
      { intros G' c' HG' Hc' x Hx Hxg. apply oldToNew_insert; [lia | done |].
        intros Hne. apply elem_of_app in Hx as [Hx|Hx%list_elem_of_singleton]; [| done].
        specialize (Hi x Hx Hxg). lia. }
      assert (∀ G' c, numNodes (ms_graph s) ≤ numNodes G' →
                valid (ms_graph s) c → valid G' c) as Hval.
      { unfold valid. intros G' c HG' Hc. lia. }
      destruct (isStart g k), (isAccept g k); cbn [andb negb];
        match goal with
        | |- context [leafNode ?G ?c ?sa ?ac] =>
          destruct (leafNode_index G c sa ac ltac:(assumption)) as (HN & HA & HC);
          destruct (leafNode G c sa ac) as [G' c']
        end; cbn [fst snd ms_graph ms_oldToNew ms_oldProcessed] in *;
        (split_and!;
         [by rewrite length_insert | by apply Hins | congruence
         | first [by right | by apply Hval] | first [by right | by apply Hval]
         | first [by right | by apply Hval] | first [by right | by apply Hval]]). }
  destruct (H (numNodes g)) as (Hl & Hi & Ha & _).
  split_and!; [done | done |]. unfold wellFormed. rewrite Ha. constructor.
Qed.

(** Where the destination of an arc was not processed, its entry in
    [oldToNew] is the initial [-1], and the call of addArc has a negative
    index. *)
Example minimize_merge_unset :
  let g := (addArc (addNode (addNode Graph_new true false).2 false true).2
              0 1 1%Z 1%Z (float_of_Z 1)).2 in
  minimize_merge g [0] (mkMinState Graph_new [(-1)%Z; (-1)%Z] [] []) = None.
Proof. reflexivity. Qed.

(** X17. When the arcs of [g] have their ends among its nodes,
    minimizeAcyclicFST returns a graph, so that no call of addArc has a
    negative index: no entry of [oldToNew] that is read for the destination
    of an arc is the initial [-1]. The arcs of the graph it returns have
    their ends among its own nodes. *)
Theorem minimize_wellFormed (g : Graph) :
  wellFormed g →
  ∃ r, minimizeAcyclicFST g = Some r ∧ wellFormed r.
Proof.
  intros Hwf.
  destruct (minimize_total g) as (r & Hr & _). exists r. split; [done |].
  unfold minimizeAcyclicFST, minimizeAcyclicFST_fuel in Hr.
  destruct (minimize_loop_ind g (minimize_index_inv g) _ _ _
              (λ s, minimize_round_index g s Hwf)
              (minimize_init_inv g) (minimize_init_nonneg g) (minimize_init_index g) Hr)
    as (s & (_ & _ & HG) & ->).
  exact HG.
Qed.

Lemma minimize_wellFormed_witness :
  wellFormed diamond ∧
  ∃ r, minimizeAcyclicFST diamond = Some r ∧ wellFormed r.
Proof.
  split; [exact diamond_wellFormed | exact (minimize_wellFormed diamond diamond_wellFormed)].
Defined.

(** ** minimizeAcyclicFST: graphs without arcs *)

Lemma leafNode_class (G : Graph) (c : Z) (st ac : bool) :
  ((c < 0)%Z ∧ mkNode st ac ∉ g_nodes G) ∨ ((0 ≤ c)%Z ∧ mkNode st ac ∈ g_nodes G) →
  NoDup (g_nodes G) →
  let r := leafNode G c st ac in
  g_arcs r.1 = g_arcs G ∧ NoDup (g_nodes r.1) ∧
  (∀ nd, nd ∈ g_nodes r.1 ↔ nd ∈ g_nodes G ∨ nd = mkNode st ac) ∧
  (0 ≤ r.2)%Z.
Proof.
  intros Hc Hnd. unfold leafNode. destruct (Z.ltb_spec c 0) as [Hlt|Hge].
  - destruct Hc as [[_ Hc]|[? _]]; [| lia].
    cbn [addNode fst snd g_nodes g_arcs]. split_and!; [done | | | lia].
    + apply NoDup_app. split_and!; [done | | apply NoDup_singleton].
      by intros x Hx ->%list_elem_of_singleton.
    + intros nd. by rewrite elem_of_app, list_elem_of_singleton.
  - destruct Hc as [[? _]|[_ Hc]]; [lia |].
    cbn [fst snd]. split_and!; [done | done | | lia].
    intros nd. split; [by left |]. by intros [H| ->].
Qed.

(** X18. A graph without arcs is minimized to a graph without arcs that has
    one node for each combination of the start and accept flags that a node
    of [g] has. *)
Theorem minimize_arcless (g : Graph) :
  numArcs g = 0 →
  ∃ r, minimizeAcyclicFST g = Some r ∧
    g_arcs r = [] ∧ NoDup (g_nodes r) ∧
    ∀ nd, nd ∈ g_nodes r ↔ nd ∈ g_nodes g.
Proof.
  intros Harcs.
  assert (∀ n, out g n = []) as Hout by (intros n; unfold out; by rewrite Harcs).
  assert (∀ n preds, addPredecessors g n preds = preds) as Hpred.
  { intros n preds. unfold addPredecessors, in_. by rewrite Harcs. }
  set (st0 := (mkMinState Graph_new (replicate (numNodes g) (-1)%Z) [] [],
               ((-1)%Z, (-1)%Z, (-1)%Z, (-1)%Z))).
  set (cls := λ (G : Graph) (c : Z) (nd : Node),
    ((c < 0)%Z ∧ nd ∉ g_nodes G) ∨ ((0 ≤ c)%Z ∧ nd ∈ g_nodes G)).
  assert (∀ k, k ≤ numNodes g →
    let st := forRange k (minimize_leaf g) st0 in
    ms_predecessors st.1 = [] ∧ g_arcs (ms_graph st.1) = [] ∧
    NoDup (g_nodes (ms_graph st.1)) ∧
    (∀ nd, nd ∈ g_nodes (ms_graph st.1) ↔ nd ∈ take k (g_nodes g)) ∧
    cls (ms_graph st.1) st.2.1.1.1 (mkNode true true) ∧
    cls (ms_graph st.1) st.2.1.1.2 (mkNode true false) ∧
    cls (ms_graph st.1) st.2.1.2 (mkNode false true) ∧
    cls (ms_graph st.1) st.2.2 (mkNode false false)) as H.
  { induction k as [|k IH]; intros Hk.
    - cbn. unfold cls. cbn.
      split_and!; [done | done | constructor | done | | | |];
        (left; split; [lia | apply not_elem_of_nil]).
    - cbn zeta in *. rewrite forRange_S. specialize (IH ltac:(lia)).
      destruct (forRange k (minimize_leaf g) st0) as [s [[[c1 c2] c3] c4]].
      cbn [fst snd] in IH. destruct IH as (Hp & Ha & Hnd & Hmem & V1 & V2 & V3 & V4).
      destruct (lookup_lt_is_Some_2 (g_nodes g) k Hk) as [[sa ac] Hnode].
      rewrite (take_S_r _ _ _ Hnode).
      unfold minimize_leaf. unfold numOut. rewrite Hout. cbn [length Nat.eqb].
      unfold isStart, isAccept. rewrite (list_lookup_total_correct _ _ _ Hnode).
      cbn [node_start node_accept]. rewrite Hpred.
      unfold cls in *.
      destruct sa, ac; cbn [andb negb];
        match goal with
        | |- context [leafNode ?G ?c ?sa ?ac] =>
          destruct (leafNode_class G c sa ac ltac:(assumption) Hnd)
            as (HA & HN & HM & HC);
          destruct (leafNode G c sa ac) as [G' c']
        end; cbn [fst snd ms_graph ms_predecessors] in *;
        (split_and!;
         [done | congruence | done
         | intros nd; rewrite HM, elem_of_app, list_elem_of_singleton, Hmem; done
         | .. ]);
        rewrite !HM;
        first [ right; split; [done | by right]
              | match goal with
                | V : ((?c < 0)%Z ∧ _) ∨ _ |- ((?c < 0)%Z ∧ _) ∨ _ =>
                  destruct V as [[? Hn]|[? Hi]];
                  [ left; split; [done | intros [?|?]; [by apply Hn | discriminate]]
                  | right; split; [done | by left] ]
                end ]. }
  destruct (H (numNodes g) ltac:(lia)) as (Hp & Ha & Hnd & Hmem & _).
  exists (ms_graph (minimize_init g)).
  unfold minimizeAcyclicFST, minimizeAcyclicFST_fuel, minimize_init. cbv zeta.
  fold st0. split_and!; [| done | done |].
  - cbn [minimize_loop]. by rewrite Hp.
  - intros nd. rewrite Hmem. unfold numNodes. by rewrite firstn_all.
Qed.

Lemma minimize_arcless_witness :
  let g := (addNode (addNode (addNode Graph_new true false).2 false true).2
              false true).2 in
  numArcs g = 0 ∧
  ∃ r, minimizeAcyclicFST g = Some r ∧
    g_arcs r = [] ∧ NoDup (g_nodes r) ∧
    ∀ nd, nd ∈ g_nodes r ↔ nd ∈ g_nodes g.
Proof. split; [reflexivity | by apply minimize_arcless]. Defined.
